(** * Riverside Town simulation: a shallow embedding of the core and its properties

    The development follows the Python sources:
    - [src/characters/base_character.py]  (PersonalityTraits, BaseCharacter)
    - [src/characters/ai_characters.py]   (DeepSeaResearcher, ERSurgeon)
    - [src/npcs/npc_system.py]            (NPC)
    - [src/npcs/npc_manager.py]           (NPCManager)
    - [src/world/world_state.py]          (World)
    - [main.py]                           (run_simulation_step)

    Python objects live in a heap of characters addressed by reference
    (object identity); the world and the manager hold references.  The
    global [random] module is a tape of draws read at a cursor, the wall
    clock [datetime.now()] is a counter that ticks at every reading, and
    the [world_events] table of the SQLite file is the list of its rows.
    Floating point weights are read as exact rationals. *)

From Stdlib Require Import ZArith QArith Qminmax Ascii String List Lia Lqa DecimalString.
From Stdlib Require Import Sorting.Sorted Sorting.Permutation.
From stdpp Require Import list.
Import ListNotations.

Open Scope string_scope.
Open Scope list_scope.
Open Scope Z_scope.

(** String concatenation, as an f-string joins its pieces. *)
Infix "+++" := String.append (at level 60, right associativity).

(** ** Strings and small helpers *)

(** [str(n)] inside an f-string, and [int(s)]. *)
Definition Z_to_string (z : Z) : string := NilZero.string_of_int (Z.to_int z).
Definition Z_of_string (s : string) : option Z :=
  option_map Z.of_int (NilZero.int_of_string s).

(** [x in l] for a list of strings. *)
Definition str_in (x : string) (l : list string) : bool :=
  existsb (String.eqb x) l.

(** [s.split(":")[0]]: the text before the first colon. *)
Fixpoint before_colon (s : string) : string :=
  match s with
  | EmptyString => EmptyString
  | String a rest =>
      if Ascii.eqb a ":"%char then EmptyString else String a (before_colon rest)
  end.

(** A Python [dict] keeps its keys in insertion order; assigning to a
    key that is present keeps its position. *)
Section Dict.
Context {V : Type}.

Fixpoint dict_get (k : string) (d : list (string * V)) : option V :=
  match d with
  | [] => None
  | (k', v) :: rest => if String.eqb k k' then Some v else dict_get k rest
  end.

Fixpoint dict_set (k : string) (v : V) (d : list (string * V)) : list (string * V) :=
  match d with
  | [] => [(k, v)]
  | (k', v') :: rest =>
      if String.eqb k k' then (k', v) :: rest else (k', v') :: dict_set k v rest
  end.

Definition dict_mem (k : string) (d : list (string * V)) : bool :=
  match dict_get k d with Some _ => true | None => false end.

Definition dict_keys (d : list (string * V)) : list string := map fst d.
Definition dict_values (d : list (string * V)) : list V := map snd d.
End Dict.

(** ** Data model *)

(** [class PersonalityTraits(BaseModel)]: the ten fields in declaration order. *)
Record PersonalityTraits := mkTraits {
  curiosity : Z;
  empathy : Z;
  confidence : Z;
  creativity : Z;
  analytical : Z;
  social : Z;
  cautious : Z;
  ambitious : Z;
  humor : Z;
  adaptability : Z
}.

Definition trait_names : list string :=
  ["curiosity"; "empathy"; "confidence"; "creativity"; "analytical";
   "social"; "cautious"; "ambitious"; "humor"; "adaptability"].

Definition trait_values (p : PersonalityTraits) : list Z :=
  [curiosity p; empathy p; confidence p; creativity p; analytical p;
   social p; cautious p; ambitious p; humor p; adaptability p].

(** Entries of [self.memories], [self.relationships], [self.daily_routine]
    and [self.medical_cases]. *)
Record Memory := mkMemory {
  content : string;
  timestamp : Z;
  importance : Z
}.

Record Relationship := mkRelationship {
  rel_type : string;
  strength : Z;
  created : Z
}.

Record RoutineItem := mkRoutineItem {
  r_time : string;
  r_activity : string;
  r_location : string;
  r_duration : Z
}.

Record MedicalCase := mkMedicalCase {
  case_type : string;
  complexity : string;
  outcome : string;
  case_timestamp : Z
}.

(** The class of an object decides which override of
    [get_possible_actions] and [execute_action] runs. *)
Inductive Klass := KBase | KNPC | KResearcher | KSurgeon.

(** The attributes that the modelled methods read or write.  The
    attributes set once in a constructor and never read by the core
    ([goals], [skills], [equipment], [research_projects],
    [specializations], [npc_type], [social_circle]) are left out. *)
Record Character := mkCharacter {
  klass : Klass;
  name : string;
  job : string;
  age : Z;
  background : string;
  personality : PersonalityTraits;
  location : string;
  mood : string;
  energy : Z;
  current_activity : string;
  relationships : list (string * Relationship);
  memories : list Memory;
  created_at : Z;
  last_action_time : Z;
  daily_routine : list RoutineItem;
  preferred_locations : list string;
  work_schedule : list (string * bool);
  discoveries : list string;
  samples_collected : Z;
  patients_treated : Z;
  surgeries_performed : Z;
  medical_cases : list MedicalCase
}.

Definition set_location (v : string) (c : Character) : Character :=
  mkCharacter (klass c) (name c) (job c) (age c) (background c) (personality c) v (mood c)
    (energy c) (current_activity c) (relationships c) (memories c) (created_at c)
    (last_action_time c) (daily_routine c) (preferred_locations c) (work_schedule c)
    (discoveries c) (samples_collected c) (patients_treated c) (surgeries_performed c)
    (medical_cases c).

Definition set_mood (v : string) (c : Character) : Character :=
  mkCharacter (klass c) (name c) (job c) (age c) (background c) (personality c) (location c)
    v (energy c) (current_activity c) (relationships c) (memories c) (created_at c)
    (last_action_time c) (daily_routine c) (preferred_locations c) (work_schedule c)
    (discoveries c) (samples_collected c) (patients_treated c) (surgeries_performed c)
    (medical_cases c).

Definition set_energy (v : Z) (c : Character) : Character :=
  mkCharacter (klass c) (name c) (job c) (age c) (background c) (personality c) (location c)
    (mood c) v (current_activity c) (relationships c) (memories c) (created_at c)
    (last_action_time c) (daily_routine c) (preferred_locations c) (work_schedule c)
    (discoveries c) (samples_collected c) (patients_treated c) (surgeries_performed c)
    (medical_cases c).

Definition set_current_activity (v : string) (c : Character) : Character :=
  mkCharacter (klass c) (name c) (job c) (age c) (background c) (personality c) (location c)
    (mood c) (energy c) v (relationships c) (memories c) (created_at c) (last_action_time
    c) (daily_routine c) (preferred_locations c) (work_schedule c) (discoveries c)
    (samples_collected c) (patients_treated c) (surgeries_performed c) (medical_cases c).

Definition set_relationships (v : list (string * Relationship)) (c : Character) : Character :=
  mkCharacter (klass c) (name c) (job c) (age c) (background c) (personality c) (location c)
    (mood c) (energy c) (current_activity c) v (memories c) (created_at c)
    (last_action_time c) (daily_routine c) (preferred_locations c) (work_schedule c)
    (discoveries c) (samples_collected c) (patients_treated c) (surgeries_performed c)
    (medical_cases c).

Definition set_memories (v : list Memory) (c : Character) : Character :=
  mkCharacter (klass c) (name c) (job c) (age c) (background c) (personality c) (location c)
    (mood c) (energy c) (current_activity c) (relationships c) v (created_at c)
    (last_action_time c) (daily_routine c) (preferred_locations c) (work_schedule c)
    (discoveries c) (samples_collected c) (patients_treated c) (surgeries_performed c)
    (medical_cases c).

Definition set_last_action_time (v : Z) (c : Character) : Character :=
  mkCharacter (klass c) (name c) (job c) (age c) (background c) (personality c) (location c)
    (mood c) (energy c) (current_activity c) (relationships c) (memories c) (created_at c)
    v (daily_routine c) (preferred_locations c) (work_schedule c) (discoveries c)
    (samples_collected c) (patients_treated c) (surgeries_performed c) (medical_cases c).

Definition set_discoveries (v : list string) (c : Character) : Character :=
  mkCharacter (klass c) (name c) (job c) (age c) (background c) (personality c) (location c)
    (mood c) (energy c) (current_activity c) (relationships c) (memories c) (created_at c)
    (last_action_time c) (daily_routine c) (preferred_locations c) (work_schedule c) v
    (samples_collected c) (patients_treated c) (surgeries_performed c) (medical_cases c).

Definition set_samples_collected (v : Z) (c : Character) : Character :=
  mkCharacter (klass c) (name c) (job c) (age c) (background c) (personality c) (location c)
    (mood c) (energy c) (current_activity c) (relationships c) (memories c) (created_at c)
    (last_action_time c) (daily_routine c) (preferred_locations c) (work_schedule c)
    (discoveries c) v (patients_treated c) (surgeries_performed c) (medical_cases c).

Definition set_patients_treated (v : Z) (c : Character) : Character :=
  mkCharacter (klass c) (name c) (job c) (age c) (background c) (personality c) (location c)
    (mood c) (energy c) (current_activity c) (relationships c) (memories c) (created_at c)
    (last_action_time c) (daily_routine c) (preferred_locations c) (work_schedule c)
    (discoveries c) (samples_collected c) v (surgeries_performed c) (medical_cases c).

Definition set_surgeries_performed (v : Z) (c : Character) : Character :=
  mkCharacter (klass c) (name c) (job c) (age c) (background c) (personality c) (location c)
    (mood c) (energy c) (current_activity c) (relationships c) (memories c) (created_at c)
    (last_action_time c) (daily_routine c) (preferred_locations c) (work_schedule c)
    (discoveries c) (samples_collected c) (patients_treated c) v (medical_cases c).

Definition set_medical_cases (v : list MedicalCase) (c : Character) : Character :=
  mkCharacter (klass c) (name c) (job c) (age c) (background c) (personality c) (location c)
    (mood c) (energy c) (current_activity c) (relationships c) (memories c) (created_at c)
    (last_action_time c) (daily_routine c) (preferred_locations c) (work_schedule c)
    (discoveries c) (samples_collected c) (patients_treated c) (surgeries_performed c) v.

(** A row of the [world_events] table. *)
Record Event := mkEvent {
  ev_timestamp : Z;
  event_type : string;
  description : string;
  ev_location : string;
  participants : string
}.

(** An entry of [World.locations]; occupants are references. *)
Record Location := mkLocation {
  loc_name : string;
  loc_description : string;
  occupants : list nat
}.

Definition set_occupants (v : list nat) (l : Location) : Location :=
  mkLocation (loc_name l) (loc_description l) v.

(** [class World]; [time] counts seconds from a local midnight. *)
Record World := mkWorld {
  world_name : string;
  time : Z;
  locations : list (string * Location);
  ai_characters : list nat;
  npcs : list nat;
  world_events : list Event
}.

Definition set_time (v : Z) (w : World) : World :=
  mkWorld (world_name w) v (locations w) (ai_characters w) (npcs w) (world_events w).
Definition set_locations (v : list (string * Location)) (w : World) : World :=
  mkWorld (world_name w) (time w) v (ai_characters w) (npcs w) (world_events w).
Definition set_ai_characters (v : list nat) (w : World) : World :=
  mkWorld (world_name w) (time w) (locations w) v (npcs w) (world_events w).
Definition set_npcs (v : list nat) (w : World) : World :=
  mkWorld (world_name w) (time w) (locations w) (ai_characters w) v (world_events w).
Definition set_world_events (v : list Event) (w : World) : World :=
  mkWorld (world_name w) (time w) (locations w) (ai_characters w) (npcs w) v.

(** [class NPCManager]; of [population_stats] the totals and job counts
    are kept. *)
Record NPCManager := mkManager {
  target_population : Z;
  mgr_npcs : list nat;
  npc_database : list (string * nat);
  job_distribution : list (string * Z);
  first_names : list string;
  last_names : list string;
  stats_total_npcs : Z;
  stats_job_counts : list (string * Z)
}.

Definition set_mgr_npcs (v : list nat) (m : NPCManager) : NPCManager :=
  mkManager (target_population m) v (npc_database m) (job_distribution m)
    (first_names m) (last_names m) (stats_total_npcs m) (stats_job_counts m).
Definition set_npc_database (v : list (string * nat)) (m : NPCManager) : NPCManager :=
  mkManager (target_population m) (mgr_npcs m) v (job_distribution m)
    (first_names m) (last_names m) (stats_total_npcs m) (stats_job_counts m).
Definition set_stats (t : Z) (jc : list (string * Z)) (m : NPCManager) : NPCManager :=
  mkManager (target_population m) (mgr_npcs m) (npc_database m) (job_distribution m)
    (first_names m) (last_names m) t jc.

(** ** The interpreter state and its monad *)

Inductive exn :=
  | ValidationError (fields : list string)
  | ValueError (msg : string)
  | IndexError
  | KeyError (key : string)
  | ReferenceError.

Record State := mkState {
  heap : list Character;
  world : World;
  manager : NPCManager;
  tape : nat -> Z;
  cursor : nat;
  wall : Z
}.

Definition set_heap (v : list Character) (s : State) : State :=
  mkState v (world s) (manager s) (tape s) (cursor s) (wall s).
Definition set_world (v : World) (s : State) : State :=
  mkState (heap s) v (manager s) (tape s) (cursor s) (wall s).
Definition set_manager (v : NPCManager) (s : State) : State :=
  mkState (heap s) (world s) v (tape s) (cursor s) (wall s).
Definition set_cursor (v : nat) (s : State) : State :=
  mkState (heap s) (world s) (manager s) (tape s) v (wall s).
Definition set_wall (v : Z) (s : State) : State :=
  mkState (heap s) (world s) (manager s) (tape s) (cursor s) v.

(** A call returns, raises, or is still inside a [while] loop when its
    fuel is spent; each outcome carries the state reached. *)
Inductive Res (A : Type) :=
  | Ok (a : A) (s : State)
  | Raise (e : exn) (s : State)
  | Timeout (s : State).
Arguments Ok {A} a s.
Arguments Raise {A} e s.
Arguments Timeout {A} s.

Definition M (A : Type) : Type := State -> Res A.

Definition ret {A} (a : A) : M A := fun s => Ok a s.
Definition raise {A} (e : exn) : M A := fun s => Raise e s.
Definition bind {A B} (m : M A) (k : A -> M B) : M B :=
  fun s =>
    match m s with
    | Ok a s' => k a s'
    | Raise e s' => Raise e s'
    | Timeout s' => Timeout s'
    end.

Notation "x <- m ;; k" := (bind m (fun x => k))
  (at level 100, m at level 99, right associativity).
Notation "m >>> k" := (bind m (fun _ => k))
  (at level 100, k at level 200, right associativity).

Definition final_state {A} (r : Res A) : State :=
  match r with Ok _ s => s | Raise _ s => s | Timeout s => s end.

Definition get : M State := fun s => Ok s s.
Definition modify (f : State -> State) : M unit := fun s => Ok tt (f s).

Definition when (b : bool) (m : M unit) : M unit := if b then m else ret tt.

(** [for x in l: body(x)] *)
Fixpoint for_each {A} (l : list A) (body : A -> M unit) : M unit :=
  match l with
  | [] => ret tt
  | x :: rest => body x >>> for_each rest body
  end.

(** Attribute reads and writes through a reference. *)
Definition get_char (cid : nat) : M Character :=
  fun s => match heap s !! cid with
           | Some c => Ok c s
           | None => Raise ReferenceError s
           end.

Definition upd_char (cid : nat) (f : Character -> Character) : M unit :=
  fun s => match heap s !! cid with
           | Some c => Ok tt (set_heap (<[cid := f c]> (heap s)) s)
           | None => Raise ReferenceError s
           end.

(** Object creation: the new object gets the next free reference. *)
Definition alloc (c : Character) : M nat :=
  fun s => Ok (length (heap s)) (set_heap (heap s ++ [c]) s).

Definition get_world : M World := fun s => Ok (world s) s.
Definition upd_world (f : World -> World) : M unit :=
  modify (fun s => set_world (f (world s)) s).
Definition get_manager : M NPCManager := fun s => Ok (manager s) s.
Definition upd_manager (f : NPCManager -> NPCManager) : M unit :=
  modify (fun s => set_manager (f (manager s)) s).

(** [datetime.now()] *)
Definition now : M Z := fun s => Ok (wall s) (set_wall (wall s + 1) s).

(** ** The [random] module *)

Definition draw : M Z :=
  fun s => Ok (tape s (cursor s)) (set_cursor (S (cursor s)) s).

(** [random.randint(a, b)] *)
Definition randint (a b : Z) : M Z :=
  if b <? a then raise (ValueError "empty range for randrange()")
  else d <- draw ;; ret (a + d mod (b - a + 1)).

(** [random.choice(seq)] *)
Definition choice {A} (l : list A) : M A :=
  match l with
  | [] => raise IndexError
  | x :: _ => d <- draw ;; ret (nth (Z.to_nat (d mod Z.of_nat (length l))) l x)
  end.

(** [random.random()]: a multiple of 2^-53 in [0, 1). *)
Definition random : M Q :=
  d <- draw ;; ret (Qmake (d mod 2 ^ 53) (2 ^ 53)%positive).

(** The float literals [0.7] and [0.3] that draws of [random()] are
    compared with, at their exact binary values. *)
Definition float_0_7 : Q := 6305039478318694 # 9007199254740992.
Definition float_0_3 : Q := 5404319552844595 # 18014398509481984.

(** [random.uniform(a, b)] is [a + (b - a) * random()]. *)
Definition uniform (a b : Q) : M Q :=
  r <- random ;; ret (a + (b - a) * r)%Q.

(** [random.shuffle(x)]: for [i] from [len(x) - 1] down to [1], swap
    [x[i]] with [x[j]] for a drawn [j <= i]. *)
Definition swap {A} (i j : nat) (l : list A) : list A :=
  match l !! i, l !! j with
  | Some a, Some b => <[j := a]> (<[i := b]> l)
  | _, _ => l
  end.

Fixpoint shuffle_from {A} (i : nat) (l : list A) : M (list A) :=
  match i with
  | O => ret l
  | S i' =>
      d <- draw ;;
      shuffle_from i' (swap i (Z.to_nat (d mod Z.of_nat (S i))) l)
  end.

Definition shuffle {A} (l : list A) : M (list A) :=
  shuffle_from (length l - 1) l.

(** [random.sample(population, k)], selection without replacement from a
    pool: the drawn slot is refilled with the last live element. *)
Fixpoint sample_from {A} (k n : nat) (pool : list A) : M (list A) :=
  match k with
  | O => ret []
  | S k' =>
      d <- draw ;;
      let j := Z.to_nat (d mod Z.of_nat n) in
      match pool !! j, pool !! (n - 1)%nat with
      | Some x, Some y =>
          rest <- sample_from k' (n - 1) (<[j := y]> pool) ;;
          ret (x :: rest)
      | _, _ => raise (ValueError "Sample larger than population or is negative")
      end
  end.

Definition sample {A} (population : list A) (k : Z) : M (list A) :=
  if (k <? 0) || (Z.of_nat (length population) <? k)
  then raise (ValueError "Sample larger than population or is negative")
  else sample_from (Z.to_nat k) (length population) population.

(** ** PersonalityTraits *)

(** [Field(ge=0, le=100)] *)
Definition in_range (v : Z) : bool := (0 <=? v) && (v <=? 100).

(** Field validation reports every field that is out of range. *)
Definition invalid_fields (p : PersonalityTraits) : list string :=
  map fst (List.filter (fun nv => negb (in_range (snd nv)))
             (combine trait_names (trait_values p))).

Definition model_post_init (p : PersonalityTraits) : option exn :=
  let total := fold_left Z.add (trait_values p) 0 in
  if total =? 100 then None
  else Some (ValueError ("Personality traits must sum to 100, got " +++ Z_to_string total)).

(** [PersonalityTraits(curiosity=..., ...)]: the fields are validated,
    then [model_post_init] runs. *)
Definition new_PersonalityTraits (p : PersonalityTraits) : exn + PersonalityTraits :=
  match invalid_fields p with
  | [] => match model_post_init p with
          | None => inr p
          | Some e => inl e
          end
  | fs => inl (ValidationError fs)
  end.

Definition lift {A} (r : exn + A) : M A :=
  match r with inl e => raise e | inr a => ret a end.

(** The constructor called with the [traits] dict as keywords: a missing
    keyword is a validation error. *)
Definition traits_of_dict (d : list (string * Z)) : exn + PersonalityTraits :=
  match map (fun n => dict_get n d) trait_names with
  | [Some a; Some b; Some c; Some d1; Some e; Some f; Some g; Some h; Some i; Some j] =>
      new_PersonalityTraits (mkTraits a b c d1 e f g h i j)
  | _ => inl (ValidationError (List.filter (fun n => negb (dict_mem n d)) trait_names))
  end.

(** ** World, first part: events and moves *)

Definition initial_locations : list (string * Location) :=
  [("riverside", mkLocation "Riverside Park"
      "A peaceful park along the flowing river with walking trails and benches" []);
   ("hospital", mkLocation "Riverside General Hospital"
      "A modern medical facility serving the town's healthcare needs" []);
   ("research_station", mkLocation "Aquatic Research Station"
      "A research facility studying marine life and river ecosystems" []);
   ("town_center", mkLocation "Town Center"
      "The bustling heart of Riverside Town with shops and cafes" []);
   ("marina", mkLocation "Riverside Marina"
      "A dock area with boats and fishing equipment" [])].

(** [World.__init__]; the tables of the database start empty. *)
Definition World_init (name : string) : M unit :=
  t <- now ;;
  upd_world (fun _ => mkWorld name t initial_locations [] [] []).

Definition log_event (event_type description location participants : string) : M unit :=
  t <- now ;;
  upd_world (fun w =>
    set_world_events
      (world_events w ++ [mkEvent t event_type description location participants]) w).

Definition add_character (character : nat) : M unit :=
  c <- get_char character ;;
  (if str_in (job c) ["Deep Sea Researcher"; "ER Surgeon"]
   then upd_world (fun w => set_ai_characters (ai_characters w ++ [character]) w)
   else upd_world (fun w => set_npcs (npcs w ++ [character]) w)) >>>
  log_event "character_added" (name c +++ " joined the world") "town_center" (name c).

(** [character in lst] and [lst.remove(character)] compare references. *)
Definition ref_in (x : nat) (l : list nat) : bool := existsb (Nat.eqb x) l.

Fixpoint list_remove (x : nat) (l : list nat) : list nat :=
  match l with
  | [] => []
  | y :: rest => if Nat.eqb x y then rest else y :: list_remove x rest
  end.

Definition vacate (character : nat) (loc : Location) : Location :=
  if ref_in character (occupants loc)
  then set_occupants (list_remove character (occupants loc)) loc
  else loc.

Definition enter (character : nat) (loc : Location) : Location :=
  set_occupants (occupants loc ++ [character]) loc.

Definition map_values {V} (f : V -> V) (d : list (string * V)) : list (string * V) :=
  map (fun kv => (fst kv, f (snd kv))) d.

Fixpoint dict_update {V} (k : string) (f : V -> V) (d : list (string * V)) : list (string * V) :=
  match d with
  | [] => []
  | (k', v) :: rest =>
      if String.eqb k k' then (k', f v) :: rest else (k', v) :: dict_update k f rest
  end.

Definition location_name (w : World) (key : string) : M string :=
  match dict_get key (locations w) with
  | Some loc => ret (loc_name loc)
  | None => raise (KeyError key)
  end.

Definition move_character (character : nat) (location_key : string) : M unit :=
  w <- get_world ;;
  if dict_mem location_key (locations w) then
    upd_world (fun w => set_locations (map_values (vacate character) (locations w)) w) >>>
    upd_world (fun w =>
      set_locations (dict_update location_key (enter character) (locations w)) w) >>>
    upd_char character (set_location location_key) >>>
    c <- get_char character ;;
    w <- get_world ;;
    place <- location_name w location_key ;;
    log_event "character_movement" (name c +++ " moved to " +++ place)
      location_key (name c)
  else ret tt.

(** [strftime('%Y-%m-%d %H:%M')] and [strftime('%H:%M')] on seconds
    counted from 1970-01-01 00:00 local time. *)
Definition pad (width : nat) (z : Z) : string :=
  let s := Z_to_string z in
  String.concat "" (repeat "0" (width - String.length s)) +++ s.

Definition civil_from_days (z : Z) : Z * Z * Z :=
  let z := z + 719468 in
  let era := z / 146097 in
  let doe := z - era * 146097 in
  let yoe := (doe - doe / 1460 + doe / 36524 - doe / 146096) / 365 in
  let doy := doe - (365 * yoe + yoe / 4 - yoe / 100) in
  let mp := (5 * doy + 2) / 153 in
  let d := doy - (153 * mp + 2) / 5 + 1 in
  let m := if mp <? 10 then mp + 3 else mp - 9 in
  let y := yoe + era * 400 + (if m <=? 2 then 1 else 0) in
  (y, m, d).

Definition hour (t : Z) : Z := (t / 3600) mod 24.
Definition minute (t : Z) : Z := (t / 60) mod 60.

Definition strftime (t : Z) : string :=
  let '(y, m, d) := civil_from_days (t / 86400) in
  pad 4 y +++ "-" +++ pad 2 m +++ "-" +++ pad 2 d +++ " " +++
  pad 2 (hour t) +++ ":" +++ pad 2 (minute t).

Definition update_time (hours : Z) : M unit :=
  upd_world (fun w => set_time (time w + 3600 * hours) w) >>>
  w <- get_world ;;
  log_event "time_update" ("Time advanced to " +++ strftime (time w)) "global" "".

(** ** BaseCharacter *)

(** [BaseCharacter.__init__] on a new object of class [k]. *)
Definition BaseCharacter_init (k : Klass) (name job : string)
    (personality_traits : PersonalityTraits) (age : Z) (background : string) : M nat :=
  created <- now ;;
  last <- now ;;
  alloc (mkCharacter k name job age background personality_traits
           "town_center" "neutral" 100 "idle" [] [] created last
           [] [] [] [] 0 0 0 []).

(** [sorted(memories, key=importance, reverse=True)]: a stable sort, so
    entries of equal importance keep their order. *)
Fixpoint insert_by_importance (m : Memory) (l : list Memory) : list Memory :=
  match l with
  | [] => [m]
  | y :: rest =>
      if importance y <=? importance m then m :: y :: rest
      else y :: insert_by_importance m rest
  end.

Fixpoint sorted_by_importance (l : list Memory) : list Memory :=
  match l with
  | [] => []
  | m :: rest => insert_by_importance m (sorted_by_importance rest)
  end.

(** The list kept by [add_memory] once the new entry is appended. *)
Definition remember (ms : list Memory) (m : Memory) : list Memory :=
  let ms := ms ++ [m] in
  if (50 <? length ms)%nat then firstn 50 (sorted_by_importance ms) else ms.

Definition add_memory (self : nat) (memory : string) (importance : Z) : M unit :=
  t <- now ;;
  upd_char self (fun c => set_memories (remember (memories c) (mkMemory memory t importance)) c).

Definition add_relationship (self : nat) (character_name relationship_type : string)
    (strength : Z) : M unit :=
  t <- now ;;
  upd_char self (fun c =>
    set_relationships
      (dict_set character_name (mkRelationship relationship_type strength t)
         (relationships c)) c).

Definition update_mood (self : nat) (mood : string) : M unit :=
  upd_char self (set_mood mood) >>>
  add_memory self ("My mood changed to " +++ mood) 3.

Definition set_activity (self : nat) (activity : string) : M unit :=
  upd_char self (set_current_activity activity) >>>
  t <- now ;;
  upd_char self (set_last_action_time t).

Definition Base_get_possible_actions (c : Character) : list string :=
  ["rest"; "explore"; "socialize"] ++
  (if String.eqb (job c) "Deep Sea Researcher"
   then ["research"; "collect_samples"; "analyze_data"]
   else if String.eqb (job c) "ER Surgeon"
   then ["treat_patients"; "study_medical_texts"; "emergency_response"]
   else []) ++
  (if String.eqb (location c) "riverside"
   then ["fish"; "walk_trails"; "enjoy_nature"]
   else if String.eqb (location c) "hospital"
   then ["visit_patients"; "consult_colleagues"]
   else if String.eqb (location c) "research_station"
   then ["conduct_research"; "use_equipment"]
   else []).

(** The weight of one action in [choose_action], before and after the
    floor. *)
Definition raw_weight (p : PersonalityTraits) (energy : Z) (action : string) : Q :=
  let weight : Q := 1%Q in
  if str_in action ["research"; "analyze_data"; "conduct_research"]
  then (weight + (inject_Z (curiosity p) * (2 # 100) + inject_Z (analytical p) * (2 # 100)))%Q
  else if str_in action ["socialize"; "visit_patients"]
  then (weight + (inject_Z (social p) * (2 # 100) + inject_Z (empathy p) * (2 # 100)))%Q
  else if String.eqb action "explore"
  then (weight + (inject_Z (curiosity p) * (2 # 100) + inject_Z (adaptability p) * (2 # 100)))%Q
  else if String.eqb action "rest"
  then (weight + inject_Z (100 - energy) * (1 # 100))%Q
  else weight.

Definition action_weight (p : PersonalityTraits) (energy : Z) (action : string) : Q :=
  Qmax (raw_weight p energy action) (1 # 10)%Q.

Definition trait_weights (p : PersonalityTraits) (energy : Z)
    (possible_actions : list string) : list (string * Q) :=
  fold_left (fun d action => dict_set action (action_weight p energy action) d)
    possible_actions [].

Definition sum_Q (l : list Q) : Q := fold_left Qplus l 0%Q.

(** The cumulative walk over [trait_weights.items()]. *)
Fixpoint walk (items : list (string * Q)) (choice current_weight : Q) : option string :=
  match items with
  | [] => None
  | (action, weight) :: rest =>
      let current_weight := (current_weight + weight)%Q in
      if Qle_bool choice current_weight then Some action
      else walk rest choice current_weight
  end.

Definition choose_action (self : nat) (possible_actions : list string) : M string :=
  c <- get_char self ;;
  let tw := trait_weights (personality c) (energy c) possible_actions in
  let total_weight := sum_Q (dict_values tw) in
  pick <- uniform 0%Q total_weight ;;
  match walk tw pick 0%Q with
  | Some action => ret action
  | None => choice possible_actions
  end.

Definition occupants_at (w : World) (key : string) : M (list nat) :=
  match dict_get key (locations w) with
  | Some loc => ret (occupants loc)
  | None => raise (KeyError key)
  end.

Definition not_ref (x y : nat) : bool := negb (Nat.eqb y x).

Definition Base_execute_action (self : nat) (action : string) : M unit :=
  set_activity self action >>>
  (if String.eqb action "rest" then
     upd_char self (fun c => set_energy (Z.min 100 (energy c + 20)) c) >>>
     add_memory self "I rested and feel more energetic" 2
   else if String.eqb action "explore" then
     w <- get_world ;;
     c <- get_char self ;;
     let locs := dict_keys (locations w) in
     new_location <- choice (List.filter (fun loc => negb (String.eqb loc (location c))) locs) ;;
     move_character self new_location >>>
     w <- get_world ;;
     place <- location_name w new_location ;;
     add_memory self ("I explored and moved to " +++ place) 4
   else if String.eqb action "socialize" then
     w <- get_world ;;
     c <- get_char self ;;
     location_occupants <- occupants_at w (location c) ;;
     if (1 <? length location_occupants)%nat then
       let other_chars := List.filter (not_ref self) location_occupants in
       match other_chars with
       | [] => ret tt
       | _ =>
           partner <- choice other_chars ;;
           p <- get_char partner ;;
           add_memory self ("I socialized with " +++ name p) 5 >>>
           c <- get_char self ;;
           when (negb (dict_mem (name p) (relationships c)))
             (add_relationship self (name p) "acquaintance" 30)
       end
     else ret tt
   else ret tt) >>>
  upd_char self (fun c => set_energy (Z.max 0 (energy c - 5)) c).

(** ** DeepSeaResearcher and ERSurgeon *)

Definition researcher_traits : PersonalityTraits := mkTraits 25 12 15 18 20 5 3 2 0 0.
Definition surgeon_traits : PersonalityTraits := mkTraits 10 25 20 8 15 12 5 3 2 0.

Definition DeepSeaResearcher_init (name : string) (age : Z) (background : string) : M nat :=
  traits <- lift (new_PersonalityTraits researcher_traits) ;;
  self <- BaseCharacter_init KResearcher name "Deep Sea Researcher" traits age background ;;
  upd_char self (set_discoveries []) >>>
  upd_char self (set_samples_collected 0) >>>
  upd_char self (set_location "research_station") >>>
  ret self.

Definition ERSurgeon_init (name : string) (age : Z) (background : string) : M nat :=
  traits <- lift (new_PersonalityTraits surgeon_traits) ;;
  self <- BaseCharacter_init KSurgeon name "ER Surgeon" traits age background ;;
  upd_char self (set_patients_treated 0) >>>
  upd_char self (set_surgeries_performed 0) >>>
  upd_char self (set_medical_cases []) >>>
  upd_char self (set_location "hospital") >>>
  ret self.

Definition Researcher_get_possible_actions (c : Character) : list string :=
  Base_get_possible_actions c ++
  (["collect_water_samples"; "analyze_specimens"; "document_findings";
    "calibrate_equipment"; "plan_dive_expedition"; "review_research_data";
    "prepare_dive_equipment"; "study_water_currents"; "photograph_specimens";
    "update_field_notes"] ++
   (if String.eqb (location c) "riverside"
    then ["dive_for_samples"; "test_water_quality"; "observe_fish_behavior";
          "map_underwater_terrain"]
    else if String.eqb (location c) "research_station"
    then ["use_laboratory_equipment"; "process_samples"; "write_research_report";
          "video_conference_with_colleagues"]
    else [])).

Definition Researcher_execute_action (self : nat) (action : string) : M unit :=
  Base_execute_action self action >>>
  if String.eqb action "collect_water_samples" then
    n <- randint 1 3 ;;
    upd_char self (fun c => set_samples_collected (samples_collected c + n) c) >>>
    c <- get_char self ;;
    add_memory self ("Collected water samples. Total samples: "
                     +++ Z_to_string (samples_collected c)) 6 >>>
    c <- get_char self ;;
    log_event "research_activity" (name c +++ " collected water samples")
      (location c) (name c)
  else if String.eqb action "analyze_specimens" then
    c <- get_char self ;;
    if 0 <? samples_collected c then
      discovery_chance <- random ;;
      if Qlt_le_dec float_0_7 discovery_chance then
        kind <- choice ["algae"; "bacteria"; "microorganism"] ;;
        let discovery := "Unusual " +++ kind +++ " strain" in
        upd_char self (fun c => set_discoveries (discoveries c ++ [discovery]) c) >>>
        add_memory self ("Made exciting discovery: " +++ discovery +++ "!") 9 >>>
        c <- get_char self ;;
        log_event "scientific_discovery" (name c +++ " discovered: " +++ discovery)
          (location c) (name c)
      else ret tt
    else ret tt
  else if String.eqb action "dive_for_samples" then
    c <- get_char self ;;
    if String.eqb (location c) "riverside" then
      n <- randint 2 5 ;;
      upd_char self (fun c => set_samples_collected (samples_collected c + n) c) >>>
      depth_explored <- randint 10 30 ;;
      add_memory self ("Dove to " +++ Z_to_string depth_explored
                       +++ "m depth, collected valuable samples") 7 >>>
      c <- get_char self ;;
      log_event "field_research" (name c +++ " conducted deep dive research")
        (location c) (name c)
    else ret tt
  else if String.eqb action "document_findings" then
    c <- get_char self ;;
    match discoveries c with
    | [] => ret tt
    | _ =>
        add_memory self "Documented recent findings for publication" 8 >>>
        c <- get_char self ;;
        log_event "research_documentation" (name c +++ " documented research findings")
          (location c) (name c)
    end
  else ret tt.

Definition Surgeon_get_possible_actions (c : Character) : list string :=
  Base_get_possible_actions c ++
  (["examine_patients"; "perform_surgery"; "review_medical_charts";
    "consult_specialists"; "train_medical_staff"; "update_patient_records";
    "check_emergency_supplies"; "practice_procedures"; "attend_medical_conference";
    "research_medical_literature"] ++
   (if String.eqb (location c) "hospital"
    then ["rounds_with_patients"; "emergency_response_drill"; "mentor_residents";
          "equipment_maintenance"]
    else if String.eqb (location c) "town_center"
    then ["provide_first_aid"; "health_education_outreach"; "emergency_response"]
    else [])).

Definition Surgeon_execute_action (self : nat) (action : string) : M unit :=
  Base_execute_action self action >>>
  if String.eqb action "examine_patients" then
    patients_seen <- randint 1 4 ;;
    upd_char self (fun c => set_patients_treated (patients_treated c + patients_seen) c) >>>
    add_memory self ("Examined " +++ Z_to_string patients_seen +++ " patients today") 6 >>>
    c <- get_char self ;;
    log_event "medical_care"
      (name c +++ " examined " +++ Z_to_string patients_seen +++ " patients")
      (location c) (name c)
  else if String.eqb action "perform_surgery" then
    surgery_type <- choice ["appendectomy"; "trauma_repair"; "cardiac_procedure";
                            "emergency_surgery"] ;;
    upd_char self (fun c => set_surgeries_performed (surgeries_performed c + 1) c) >>>
    complexity <- choice ["routine"; "complex"; "critical"] ;;
    upd_char self (fun c =>
      set_medical_cases
        (medical_cases c ++
         [mkMedicalCase surgery_type complexity "successful" (last_action_time c)]) c) >>>
    add_memory self ("Successfully performed " +++ complexity +++ " " +++ surgery_type) 9 >>>
    c <- get_char self ;;
    log_event "medical_surgery" (name c +++ " performed " +++ surgery_type)
      (location c) (name c)
  else if String.eqb action "train_medical_staff" then
    topic <- choice ["emergency_protocols"; "surgical_techniques"; "patient_care";
                     "crisis_management"] ;;
    add_memory self ("Conducted training session on " +++ topic) 7 >>>
    c <- get_char self ;;
    log_event "medical_training" (name c +++ " trained staff on " +++ topic)
      (location c) (name c)
  else if String.eqb action "emergency_response" then
    emergency_type <- choice ["cardiac_arrest"; "severe_trauma"; "allergic_reaction";
                              "stroke"] ;;
    add_memory self ("Responded to " +++ emergency_type +++ " emergency") 8 >>>
    c <- get_char self ;;
    log_event "emergency_response" (name c +++ " responded to " +++ emergency_type)
      (location c) (name c)
  else ret tt.

(** ** NPC *)

(** [_generate_random_personality]: the loop over [enumerate(trait_names)]. *)
Fixpoint allocate_points (names : list string) (i : nat) (remaining_points : Z)
    (traits : list (string * Z)) : M (list (string * Z)) :=
  match names with
  | [] => ret traits
  | trait :: rest =>
      if Nat.eqb i (length trait_names - 1) then
        allocate_points rest (S i) remaining_points (dict_set trait remaining_points traits)
      else
        let min_points := 0 in
        let max_points := Z.min remaining_points 30 in
        points <- randint min_points max_points ;;
        allocate_points rest (S i) (remaining_points - points) (dict_set trait points traits)
  end.

Definition _generate_random_personality : M PersonalityTraits :=
  traits <- allocate_points trait_names 0 100 [] ;;
  lift (traits_of_dict traits).

Definition backgrounds : list (string * string) :=
  [("shopkeeper", "Runs a small family business that has been in the town for generations");
   ("teacher", "Dedicated educator who moved to the riverside town for its peaceful environment");
   ("fisherman", "Local who knows every spot along the river and its seasonal patterns");
   ("chef", "Culinary artist who specializes in fresh river fish and local ingredients");
   ("librarian", "Quiet intellectual who maintains the town's historical records and stories");
   ("mechanic", "Skilled tradesperson who repairs everything from boats to bicycles");
   ("artist", "Creative soul inspired by the natural beauty of the riverside setting");
   ("farmer", "Agricultural worker who grows crops in the fertile riverbank soil");
   ("postal_worker", "Connects the town to the outside world through mail and packages");
   ("security_guard", "Protects local businesses and ensures community safety");
   ("cafe_owner", "Social hub creator who knows everyone's coffee preferences and gossip");
   ("boat_captain", "River transportation expert who ferries people and goods");
   ("gardener", "Green thumb who maintains the town's parks and public spaces");
   ("carpenter", "Skilled craftsperson who builds and repairs the town's wooden structures");
   ("journalist", "Local news gatherer who documents the town's daily happenings")].

Definition _generate_background (job : string) : string :=
  match dict_get job backgrounds with
  | Some b => b
  | None => "Local resident working as a " +++ job +++ " in the riverside community"
  end.

Definition work_locations : list (string * string) :=
  [("shopkeeper", "town_center"); ("teacher", "town_center"); ("fisherman", "riverside");
   ("chef", "town_center"); ("librarian", "town_center"); ("mechanic", "town_center");
   ("artist", "riverside"); ("farmer", "riverside"); ("postal_worker", "town_center");
   ("security_guard", "town_center"); ("cafe_owner", "town_center");
   ("boat_captain", "marina"); ("gardener", "riverside"); ("carpenter", "town_center");
   ("journalist", "town_center")].

Definition _get_work_location (c : Character) : string :=
  match dict_get (job c) work_locations with
  | Some l => l
  | None => "town_center"
  end.

Definition clock_label (h : Z) : string := Z_to_string h +++ ":00".

Definition _generate_daily_routine (c : Character) : M (list RoutineItem) :=
  work_hours <- randint 6 10 ;;
  start_time <- randint 6 9 ;;
  let routine :=
    [mkRoutineItem (clock_label start_time) "work" (_get_work_location c) work_hours] in
  let lunch_time := start_time + work_hours / 2 in
  let routine := routine ++ [mkRoutineItem (clock_label lunch_time) "lunch_break" "town_center" 1] in
  r <- random ;;
  routine <-
    (if Qlt_le_dec float_0_7 r then
       place <- choice ["town_center"; "riverside"] ;;
       ret (routine ++
            [mkRoutineItem (clock_label (start_time + work_hours + 1)) "social_time" place 2])
     else ret routine) ;;
  ret (routine ++
       [mkRoutineItem (clock_label (start_time + work_hours + 3)) "personal_time" "home" 3]).

Definition _get_preferred_locations (c : Character) : list string :=
  if 20 <=? social (personality c) then ["town_center"; "riverside"; "marina"]
  else if 20 <=? curiosity (personality c) then ["research_station"; "riverside"; "town_center"]
  else if 20 <=? cautious (personality c) then ["town_center"; "hospital"]
  else ["riverside"; "town_center"].

Definition week (sat sun : bool) : list (string * bool) :=
  [("monday", true); ("tuesday", true); ("wednesday", true); ("thursday", true);
   ("friday", true); ("saturday", sat); ("sunday", sun)].

Definition _generate_work_schedule (c : Character) : M (list (string * bool)) :=
  if str_in (job c) ["fisherman"; "farmer"; "gardener"] then ret (week true false)
  else if str_in (job c) ["teacher"; "librarian"; "postal_worker"] then ret (week false false)
  else
    sat <- choice [true; false] ;;
    sun <- choice [true; false] ;;
    ret (week sat sun).

Definition set_npc_fields (routine : list RoutineItem) (preferred : list string)
    (schedule : list (string * bool)) (c : Character) : Character :=
  mkCharacter (klass c) (name c) (job c) (age c) (background c) (personality c) (location c)
    (mood c) (energy c) (current_activity c) (relationships c) (memories c) (created_at c)
    (last_action_time c) routine preferred schedule
    (discoveries c) (samples_collected c) (patients_treated c) (surgeries_performed c)
    (medical_cases c).

(** [NPC(name=name, job=job)], with [age] and [background] left to their
    defaults. *)
Definition NPC_init (name job : string) : M nat :=
  personality_traits <- _generate_random_personality ;;
  age <- randint 18 75 ;;
  let background := _generate_background job in
  self <- BaseCharacter_init KNPC name job personality_traits age background ;;
  c <- get_char self ;;
  routine <- _generate_daily_routine c ;;
  upd_char self (fun c => set_npc_fields routine (preferred_locations c) (work_schedule c) c) >>>
  c <- get_char self ;;
  upd_char self (fun c =>
    set_npc_fields (daily_routine c) (_get_preferred_locations c) (work_schedule c) c) >>>
  c <- get_char self ;;
  schedule <- _generate_work_schedule c ;;
  upd_char self (fun c => set_npc_fields (daily_routine c) (preferred_locations c) schedule c) >>>
  ret self.

Definition job_specific_actions : list (string * list string) :=
  [("fisherman", ["cast_fishing_line"; "repair_nets"; "sell_fish"]);
   ("shopkeeper", ["serve_customers"; "restock_inventory"; "count_register"]);
   ("teacher", ["prepare_lessons"; "grade_papers"; "tutor_students"]);
   ("chef", ["prepare_meals"; "shop_for_ingredients"; "experiment_recipes"]);
   ("artist", ["paint_landscape"; "sketch_people"; "sell_artwork"]);
   ("farmer", ["tend_crops"; "feed_animals"; "harvest_produce"]);
   ("mechanic", ["repair_vehicles"; "order_parts"; "maintain_tools"]);
   ("librarian", ["organize_books"; "help_patrons"; "read_quietly"]);
   ("boat_captain", ["check_boat_engine"; "navigate_river"; "transport_passengers"]);
   ("gardener", ["water_plants"; "prune_trees"; "plant_flowers"])].

Definition location_actions : list (string * list string) :=
  [("riverside", ["watch_sunset"; "feed_ducks"; "collect_river_stones"]);
   ("town_center", ["window_shop"; "people_watch"; "buy_newspaper"]);
   ("hospital", ["visit_doctor"; "volunteer_help"]);
   ("marina", ["admire_boats"; "talk_to_sailors"]);
   ("research_station", ["ask_about_research"; "observe_scientists"])].

Definition dict_get_or {V} (k : string) (d : list (string * V)) (default : V) : V :=
  match dict_get k d with Some v => v | None => default end.

Definition NPC_get_possible_actions (c : Character) : list string :=
  Base_get_possible_actions c ++
  (["work_at_job"; "chat_with_neighbors"; "shop_for_supplies"; "enjoy_hobby";
    "visit_family"; "attend_community_event"; "help_neighbor"; "take_walk";
    "read_local_news"; "maintain_home"] ++
   dict_get_or (job c) job_specific_actions [] ++
   dict_get_or (location c) location_actions []).

Definition NPC_execute_action (self : nat) (action : string) : M unit :=
  Base_execute_action self action >>>
  if String.eqb action "work_at_job" then
    c <- get_char self ;;
    let work_location := _get_work_location c in
    when (negb (String.eqb (location c) work_location))
      (move_character self work_location) >>>
    set_activity self ("working as " +++ job c) >>>
    add_memory self ("Completed work duties as " +++ job c) 4
  else if String.eqb action "chat_with_neighbors" then
    w <- get_world ;;
    c <- get_char self ;;
    location_occupants <- occupants_at w (location c) ;;
    let other_people := List.filter (not_ref self) location_occupants in
    match other_people with
    | [] => ret tt
    | _ =>
        chat_partner <- choice other_people ;;
        topic <- choice ["weather"; "local_news"; "family"; "work"; "hobbies";
                         "river_conditions"; "town_events"; "fishing_spots"] ;;
        p <- get_char chat_partner ;;
        add_memory self ("Had a nice chat with " +++ name p +++ " about " +++ topic) 5 >>>
        c <- get_char self ;;
        (if dict_mem (name p) (relationships c) then ret tt
         else strength <- randint 40 70 ;;
              add_relationship self (name p) "neighbor" strength) >>>
        c <- get_char self ;;
        log_event "social_interaction"
          (name c +++ " chatted with " +++ name p +++ " about " +++ topic)
          (location c) (name c +++ ", " +++ name p)
    end
  else if String.eqb action "attend_community_event" then
    event <- choice ["town_meeting"; "festival"; "market_day"; "concert";
                     "art_show"; "book_reading"; "fishing_competition"] ;;
    add_memory self ("Attended " +++ event +++ " - met some interesting people") 6 >>>
    c <- get_char self ;;
    log_event "community_event" (name c +++ " attended " +++ event) (location c) (name c)
  else if str_in action ["cast_fishing_line"; "paint_landscape"; "tend_crops"] then
    skill_gain <- randint 1 3 ;;
    add_memory self ("Practiced " +++ action +++ " and improved my skills") 4 >>>
    c <- get_char self ;;
    log_event "skill_development" (name c +++ " practiced " +++ action)
      (location c) (name c)
  else ret tt.

(** [follow_routine]: the first entry whose hour matches is applied. *)
Fixpoint follow_items (self : nat) (items : list RoutineItem) (current_hour : Z) : M unit :=
  match items with
  | [] => ret tt
  | routine_item :: rest =>
      match Z_of_string (before_colon (r_time routine_item)) with
      | None => raise (ValueError "invalid literal for int()")
      | Some routine_hour =>
          if routine_hour =? current_hour then
            let target_location := r_location routine_item in
            w <- get_world ;;
            when (negb (String.eqb target_location "home")
                  && dict_mem target_location (locations w))
              (move_character self target_location) >>>
            set_activity self (r_activity routine_item)
          else follow_items self rest current_hour
      end
  end.

Definition follow_routine (self : nat) (current_hour : Z) : M unit :=
  c <- get_char self ;;
  follow_items self (daily_routine c) current_hour.

(** ** Method dispatch and [take_action] *)

Definition get_possible_actions (c : Character) : list string :=
  match klass c with
  | KBase => Base_get_possible_actions c
  | KNPC => NPC_get_possible_actions c
  | KResearcher => Researcher_get_possible_actions c
  | KSurgeon => Surgeon_get_possible_actions c
  end.

Definition execute_action (self : nat) (action : string) : M unit :=
  c <- get_char self ;;
  match klass c with
  | KBase => Base_execute_action self action
  | KNPC => NPC_execute_action self action
  | KResearcher => Researcher_execute_action self action
  | KSurgeon => Surgeon_execute_action self action
  end.

Definition take_action (self : nat) : M unit :=
  c <- get_char self ;;
  let possible_actions := get_possible_actions c in
  match possible_actions with
  | [] => ret tt
  | _ =>
      action <- choose_action self possible_actions ;;
      execute_action self action
  end.

(** ** World, second part: one step *)

Definition simulate_step : M unit :=
  update_time 1 >>>
  w <- get_world ;;
  for_each (ai_characters w) take_action >>>
  w <- get_world ;;
  for_each (firstn 10 (npcs w)) take_action.

(** ** NPCManager *)

Definition _create_job_distribution : list (string * Z) :=
  [
   ("shopkeeper", 15); ("fisherman", 25); ("farmer", 20); ("chef", 8); ("teacher", 12);
   ("mechanic", 10); ("librarian", 3); ("artist", 12); ("postal_worker", 4);
   ("security_guard", 6); ("cafe_owner", 5); ("boat_captain", 8); ("gardener", 10);
   ("carpenter", 12); ("journalist", 3); ("bartender", 8); ("baker", 6); ("musician",
   8); ("photographer", 4); ("delivery_driver", 7); ("store_clerk", 18); ("tour_guide",
   5); ("veterinarian", 2); ("electrician", 6); ("plumber", 4); ("taxi_driver", 6);
   ("florist", 3); ("jeweler", 2); ("tailor", 4); ("barber", 5); ("accountant", 3);
   ("real_estate_agent", 4); ("insurance_agent", 3); ("bank_teller", 4);
   ("mailroom_clerk", 3); ("janitor", 8); ("receptionist", 6); ("waitress", 12);
   ("cashier", 15); ("sales_associate", 10); ("landscaper", 8); ("construction_worker",
   12); ("handyman", 8); ("maintenance_worker", 6); ("dock_worker", 10);
   ("warehouse_worker", 8)
  ].

Definition pool_first_names : list string :=
  [
   "Alex"; "Jordan"; "Taylor"; "Morgan"; "Casey"; "Riley"; "Avery"; "Quinn"; "Sage";
   "River"; "Rowan"; "Blake"; "Cameron"; "Dakota"; "Emery"; "Finley"; "Harper";
   "Hayden"; "Jamie"; "Kai"; "Lane"; "Logan"; "Parker"; "Peyton"; "Reese"; "Skylar";
   "Sydney"; "Adrian"; "Ashton"; "Bailey"; "Charlie"; "Drew"; "Ellis"; "Evren"; "Gray";
   "Hunter"; "Iris"; "Jules"; "Kennedy"; "Lee"; "Marlowe"; "Nico"; "Ocean"; "Phoenix";
   "Rain"; "Sam"; "Tatum"; "Val"; "Winter"; "Zara"; "Brook"; "Clay"; "Eden"; "Fox";
   "Glen"; "Hope"; "Indigo"; "Jade"; "Knox"; "Lake"; "Moon"; "North"; "Onyx"; "Pine";
   "Quill"; "Reed"; "Stone"; "Teal"; "Uma"; "Vale"; "Wade"; "Wren"; "York"; "Zion";
   "Ash"; "Bay"; "Coral"; "Dell"; "Echo"; "Fern"; "Grove"; "Heath"; "Isle"; "Jasper";
   "Lark"; "Mesa"; "Nova"; "Oak"; "Pearl"; "Sage"; "Terra"; "Unity"; "Vega"; "Wilde";
   "Zen"; "Abel"; "Beau"; "Cove"; "Dean"; "Eli"; "Finn"; "Gage"; "Hart"; "Ivan"; "Jude";
   "Knox"; "Liam"; "Max"; "Noah"; "Owen"; "Paul"; "Quinn"; "Ryan"; "Sean"; "Troy";
   "Uma"; "Vince"; "Will"; "Xander"; "Yael"; "Zoe"; "Aria"; "Beth"; "Cora"; "Dana";
   "Eva"; "Faith"; "Grace"; "Hana"; "Ivy"; "Joy"; "Kate"; "Luna"; "Maya"; "Nora";
   "Olive"; "Piper"; "Rose"; "Sara"; "Tara"; "Uma"; "Vera"; "Willow"
  ].

Definition pool_last_names : list string :=
  [
   "Rivers"; "Brooks"; "Waters"; "Banks"; "Fisher"; "Stone"; "Reed"; "Field"; "Grove";
   "Hill"; "Dale"; "Vale"; "Creek"; "Shore"; "Bay"; "Harbor"; "Dock"; "Bridge"; "Ford";
   "Mill"; "Wells"; "Springs"; "Falls"; "Rapids"; "Current"; "Stream"; "Flow"; "Tide";
   "Wave"; "Marsh"; "Pond"; "Lake"; "Ocean"; "Sea"; "Coast"; "Beach"; "Cliff"; "Rock";
   "Sand"; "Pearl"; "Shell"; "Coral"; "Marina"; "Port"; "Anchor"; "Sail"; "Boat";
   "Ship"; "Float"; "Drift"; "Wade"; "Swim"; "Dive"; "Catch"; "Net"; "Hook"; "Line";
   "Cast"; "Reel"; "Bass"; "Trout"; "Pike"; "Carp"; "Salmon"; "Cod"; "Sole"; "Perch";
   "Willow"; "Oak"; "Pine"; "Birch"; "Maple"; "Cedar"; "Elm"; "Ash"; "Fern"; "Moss";
   "Ivy"; "Rose"; "Lily"; "Daisy"; "Violet"; "Iris"; "Garden"; "Bloom"; "Petal"; "Leaf";
   "Branch"; "Root"; "Seed"; "Berry"; "Apple"; "Cherry"; "Plum"; "Peach"; "Grape";
   "Orange"; "Lemon"; "Mint"; "Sage"; "Basil"; "Thyme"; "Rosemary"; "Lavender"; "Craft";
   "Smith"; "Wright"; "Wood"; "Clay"; "Glass"; "Metal"; "Gold"; "Silver"; "Copper";
   "Iron"; "Steel"; "Bronze"; "Brass"
  ].

Definition NPCManager_init (target_population : Z) : M unit :=
  upd_manager (fun _ =>
    mkManager target_population [] [] _create_job_distribution
      pool_first_names pool_last_names 0 []).

Definition generate_random_name : M string :=
  m <- get_manager ;;
  first_name <- choice (first_names m) ;;
  last_name <- choice (last_names m) ;;
  ret (first_name +++ " " +++ last_name).

(** [while name in used_names: name = self.generate_random_name()];
    [fuel] counts the redraws still allowed to the model. *)
Fixpoint redraw_name (fuel : nat) (used_names : list string) (name : string) : M string :=
  if str_in name used_names then
    match fuel with
    | O => Timeout
    | S fuel' =>
        name <- generate_random_name ;;
        redraw_name fuel' used_names name
    end
  else ret name.

(** [[job] * quantity] *)
Definition times (job : string) (quantity : Z) : list string :=
  repeat job (Z.to_nat quantity).

(** [while len(jobs_to_create) < count]: one job is appended per turn. *)
Fixpoint pad_jobs (missing : nat) (jobs_to_create : list string) : M (list string) :=
  match missing with
  | O => ret jobs_to_create
  | S missing' =>
      m <- get_manager ;;
      additional_job <- choice (dict_keys (job_distribution m)) ;;
      pad_jobs missing' (jobs_to_create ++ [additional_job])
  end.

(** [lst[:count]], also for a negative [count]. *)
Definition prefix {A} (count : Z) (l : list A) : list A :=
  if 0 <=? count then firstn (Z.to_nat count) l
  else firstn (length l - Z.to_nat (- count)) l.

Fixpoint create_each (fuel : nat) (jobs : list string) (created_npcs : list nat)
    (used_names : list string) : M (list nat) :=
  match jobs with
  | [] => ret created_npcs
  | job :: rest =>
      name <- generate_random_name ;;
      name <- redraw_name fuel used_names name ;;
      let used_names := name :: used_names in
      npc <- NPC_init name job ;;
      upd_manager (fun m => set_npc_database (dict_set name npc (npc_database m)) m) >>>
      create_each fuel rest (created_npcs ++ [npc]) used_names
  end.

Fixpoint count_jobs (l : list nat) (job_counts : list (string * Z)) : M (list (string * Z)) :=
  match l with
  | [] => ret job_counts
  | npc :: rest =>
      c <- get_char npc ;;
      count_jobs rest (dict_set (job c) (dict_get_or (job c) job_counts 0 + 1) job_counts)
  end.

Definition _update_population_stats : M unit :=
  m <- get_manager ;;
  job_counts <- count_jobs (mgr_npcs m) [] ;;
  upd_manager (set_stats (Z.of_nat (length (mgr_npcs m))) job_counts).

Definition create_npcs (fuel : nat) (count : Z) : M (list nat) :=
  m <- get_manager ;;
  let jobs_to_create :=
    concat (map (fun jq => times (fst jq) (snd jq)) (job_distribution m)) in
  jobs_to_create <-
    pad_jobs (Z.to_nat (count - Z.of_nat (length jobs_to_create))) jobs_to_create ;;
  jobs_to_create <- shuffle jobs_to_create ;;
  let jobs_to_create := prefix count jobs_to_create in
  created_npcs <- create_each fuel jobs_to_create [] [] ;;
  upd_manager (fun m => set_mgr_npcs (mgr_npcs m ++ created_npcs) m) >>>
  _update_population_stats >>>
  ret created_npcs.

Definition get_random_npcs (count : Z) : M (list nat) :=
  m <- get_manager ;;
  sample (mgr_npcs m) (Z.min count (Z.of_nat (length (mgr_npcs m)))).

Definition simulate_npc_interactions (active_npcs : Z) : M unit :=
  m <- get_manager ;;
  active_group <- sample (mgr_npcs m) (Z.min active_npcs (Z.of_nat (length (mgr_npcs m)))) ;;
  for_each active_group (fun npc =>
    r <- random ;;
    if Qlt_le_dec r float_0_3 then take_action npc else ret tt) >>>
  w <- get_world ;;
  let current_hour := hour (time w) in
  for_each active_group (fun npc =>
    r <- random ;;
    if Qlt_le_dec r float_0_7 then follow_routine npc current_hour else ret tt).

Definition distribute_npcs_to_world : M unit :=
  w <- get_world ;;
  let locs := dict_keys (locations w) in
  m <- get_manager ;;
  for_each (mgr_npcs m) (fun npc =>
    c <- get_char npc ;;
    if String.eqb (location c) "town_center" then
      preferred_location <- choice (preferred_locations c) ;;
      if str_in preferred_location locs then move_character npc preferred_location
      else place <- choice locs ;; move_character npc place
    else ret tt) >>>
  m <- get_manager ;;
  let n := Z_to_string (Z.of_nat (length (mgr_npcs m))) in
  log_event "population_distribution" ("Distributed " +++ n +++ " NPCs across the world")
    "global" (n +++ " NPCs").

(** ** main.py *)

Definition default_active_npcs : Z := 50.

(** [run_simulation_step], without its printing; the five characters it
    shows are drawn from the same [random]. *)
Definition run_simulation_step : M unit :=
  simulate_step >>>
  simulate_npc_interactions default_active_npcs >>>
  shown <- get_random_npcs 5 ;;
  ret tt.

(** [initialize_world], [create_ai_characters] and
    [generate_npc_population] for a population of [count]. *)
Definition setup (fuel : nat) (count : Z) : M unit :=
  World_init "Riverside Town" >>>
  researcher <- DeepSeaResearcher_init "Dr. Marina Depth" 35
    "Marine biologist with 10 years of deep sea exploration experience" ;;
  add_character researcher >>>
  surgeon <- ERSurgeon_init "Dr. Alex Healer" 42
    "Emergency medicine specialist with 15 years of trauma surgery experience" ;;
  add_character surgeon >>>
  NPCManager_init count >>>
  created <- create_npcs fuel count ;;
  for_each created add_character >>>
  distribute_npcs_to_world.

(** The state before anything is constructed. *)
Definition empty_state (tape : nat -> Z) : State :=
  mkState [] (mkWorld "" 0 [] [] [] [])
    (mkManager 0 [] [] [] [] [] 0 []) tape 0 0.

(** A tape with varied draws, used for the concrete runs below. *)
Definition demo_tape (n : nat) : Z :=
  (Z.of_nat n * 6364136223846793005 + 1442695040888963407) mod 2 ^ 61.

(** ** Notions used in the statements *)

Definition trait_sum (p : PersonalityTraits) : Z :=
  curiosity p + empathy p + confidence p + creativity p + analytical p +
  social p + cautious p + ambitious p + humor p + adaptability p.

Definition traits_in_range (p : PersonalityTraits) : Prop :=
  Forall (fun v => 0 <= v <= 100) (trait_values p).

(** [m] returns from [s] with a result and a state that satisfy [Post]. *)
Definition returns {A} (m : M A) (s : State) (Post : A -> State -> Prop) : Prop :=
  exists a s', m s = Ok a s' /\ Post a s'.

(** Only the tape cursor and the wall clock may differ. *)
Definition same_objects (s s' : State) : Prop :=
  heap s' = heap s /\ world s' = world s /\ manager s' = manager s /\ tape s' = tape s.

(** Whatever the outcome of [m], the state it reaches is related to the
    state it started from. *)
Definition preserves {A} (R : State -> State -> Prop) (m : M A) : Prop :=
  forall s, R s (final_state (m s)).

(** The effect of code that acts for the characters in [P]: no object is
    created, every character [k] is still there and related to its old
    value by [Qc], characters outside [P] are unchanged, and the rosters,
    the clock and the manager are unchanged. *)
Definition acts (P : nat -> Prop) (Qc : Character -> Character -> Prop)
    (s s' : State) : Prop :=
  (forall k c, heap s !! k = Some c ->
     exists c', heap s' !! k = Some c' /\ Qc c c' /\ (~ P k -> c' = c)) /\
  length (heap s') = length (heap s) /\
  ai_characters (world s') = ai_characters (world s) /\
  npcs (world s') = npcs (world s) /\
  time (world s') = time (world s) /\
  manager s' = manager s.

Definition energy_ok (c : Character) : Prop := 0 <= energy c <= 100.
Definition keeps_energy_ok (c c' : Character) : Prop := energy_ok c -> energy_ok c'.
Definition same_energy (c c' : Character) : Prop := energy c' = energy c.
Definition any_change (c c' : Character) : Prop := True.

(** The locations whose occupant list holds [character]. *)
Definition places_of (character : nat) (w : World) : list string :=
  map fst (List.filter (fun kv => ref_in character (occupants (snd kv))) (locations w)).

(** The occupancy invariant for one character. *)
Definition occupancy_ok (s : State) (character : nat) : Prop :=
  exists c, heap s !! character = Some c /\ places_of character (world s) = [location c].

Definition has_importance (k : Z) (m : Memory) : bool := importance m =? k.

(** Cumulative weight of the first [n] items of the walk. *)
Definition cumulative (items : list (string * Q)) (n : nat) : Q :=
  sum_Q (map snd (firstn n items)).

(** The draw of [random()] at the cursor. *)
Definition unit_draw (s : State) : Q :=
  Qmake (tape s (cursor s) mod 2 ^ 53) (2 ^ 53)%positive.

(** The name that the [k]-th call of [generate_random_name] from [s] yields. *)
Definition nth_name (s : State) (k : nat) : string :=
  let pick (pool : list string) (i : nat) :=
    nth (Z.to_nat (tape s (cursor s + i)%nat mod Z.of_nat (length pool))) pool "" in
  pick (first_names (manager s)) (2 * k)%nat +++ " " +++
  pick (last_names (manager s)) (2 * k + 1)%nat.

Definition advance (n : nat) (s : State) : State := set_cursor (n + cursor s) s.

Definition is_timeout {A} (r : Res A) : bool :=
  match r with Timeout _ => true | _ => false end.

Definition is_ok {A} (r : Res A) : bool :=
  match r with Ok _ _ => true | _ => false end.

(** The jobs and names of a list of references. *)
Definition jobs_of (s : State) (l : list nat) : list string :=
  map (fun r => match heap s !! r with Some c => job c | None => "" end) l.
Definition names_of (s : State) (l : list nat) : list string :=
  map (fun r => match heap s !! r with Some c => name c | None => "" end) l.

Definition count_str (x : string) (l : list string) : Z :=
  Z.of_nat (length (List.filter (String.eqb x) l)).

(** Orders on memories: descending, and strictly ascending, importance. *)
Definition by_importance_desc (a b : Memory) : Prop := importance b <= importance a.
Definition by_importance_asc (a b : Memory) : Prop := importance a < importance b.

(** Fifty-one entries whose importance grows with their position. *)
Definition graded_entries : list Memory :=
  map (fun i => mkMemory "event" (Z.of_nat i) (Z.of_nat i)) (seq 0 51).

(** The weight of [rest] as the specification words it: the addition is
    [(100 - energy) * 0.02]. *)
Definition spec_rest_weight (energy : Z) : Q :=
  Qmax (1 + inject_Z (100 - energy) * (2 # 100)) (1 # 10).

(** The value that [random.uniform(0, total)] returns at the cursor. *)
Definition uniform_draw (total : Q) (s : State) : Q :=
  (0 + (total - 0) * unit_draw s)%Q.

(** A town with the surgeon alone, moved into the hospital; and a town
    to which the researcher has just been added. *)
Definition hospital_state : State :=
  final_state
    ((World_init "Riverside Town" >>>
      surgeon <- ERSurgeon_init "Dr. Alex Healer" 42
        "Emergency medicine specialist with 15 years of trauma surgery experience" ;;
      add_character surgeon >>>
      move_character surgeon "hospital") (empty_state demo_tape)).

Definition newcomer_state : State :=
  final_state
    ((World_init "Riverside Town" >>>
      DeepSeaResearcher_init "Dr. Marina Depth" 35
        "Marine biologist with 10 years of deep sea exploration experience")
       (empty_state demo_tape)).

Definition character_at (s : State) (r : nat) : Character :=
  nth r (heap s)
    (mkCharacter KBase "" "" 0 "" (mkTraits 0 0 0 0 0 0 0 0 0 0) "" "" 0 "" [] [] 0 0
       [] [] [] [] 0 0 0 []).

(** Relations between the old and the new value of a character that the
    frame statements use: reflexive, transitive, and blind to every
    attribute but [energy]. *)
Class CharRel (Qc : Character -> Character -> Prop) : Prop := {
  qc_refl : forall c, Qc c c;
  qc_trans : forall a b c, Qc a b -> Qc b c -> Qc a c;
  qc_same : forall c c', energy c' = energy c -> Qc c c'
}.

(** Relations that also admit the two updates of [energy] made by
    [execute_action]. *)
Class EnergyRel (Qc : Character -> Character -> Prop) : Prop := {
  qc_rest : forall c, Qc c (set_energy (Z.min 100 (energy c + 20)) c);
  qc_tire : forall c, Qc c (set_energy (Z.max 0 (energy c - 5)) c)
}.

(** The energy that [execute_action] leaves when it returns. *)
Definition energy_after (action : string) (energy : Z) : Z :=
  Z.max 0 ((if String.eqb action "rest" then Z.min 100 (energy + 20) else energy) - 5).

(** A town in which the surgeon, in the hospital, has 3 units of energy. *)
Definition tired_state : State :=
  final_state (upd_char 0 (set_energy 3) hospital_state).

(** The group that [simulate_npc_interactions] draws when it starts in [s]. *)
Definition sampled (s : State) : list nat :=
  match sample (mgr_npcs (manager s))
          (Z.min default_active_npcs (Z.of_nat (length (mgr_npcs (manager s))))) s with
  | Ok group _ => group
  | _ => []
  end.

(** A town of two principals and sixty townspeople, set up as [main] does. *)
Definition crowded_state : State :=
  final_state (setup 20 60 (empty_state demo_tape)).

(** [m] does not raise from [s]; if it returns, result and state satisfy
    [Post]; it may still be looping when the fuel is spent. *)
Definition safe {A} (m : M A) (s : State) (Post : A -> State -> Prop) : Prop :=
  match m s with
  | Ok a s' => Post a s'
  | Raise _ _ => False
  | Timeout _ => True
  end.

(** A new manager whose random source only ever yields 0, so that every
    generated name is the first of each pool; and a new manager on the
    varied tape. *)
Definition stuck_state : State :=
  final_state (NPCManager_init 300 (empty_state (fun _ => 0))).

Definition manager_state : State :=
  final_state ((World_init "Riverside Town" >>> NPCManager_init 361)
                 (empty_state demo_tape)).

(** The job list that [create_npcs] builds from the default quota table. *)
Definition expanded_jobs : list string :=
  concat (map (fun jq => times (fst jq) (snd jq)) _create_job_distribution).

(** Every character of [cs], created from reference [base] on, is
    registered under its name. *)
Definition registered (db : list (string * nat)) (cs : list Character) (base : nat) : Prop :=
  forall i c, cs !! i = Some c -> dict_get (name c) db = Some (base + i)%nat.

(** A key of the world as [World.__init__] declares it. *)
Definition declared (key : string) : bool := dict_mem key initial_locations.

(** The hour that [follow_routine] reads off a routine entry. *)
Definition routine_hour (item : RoutineItem) : option Z :=
  Z_of_string (before_colon (r_time item)).

(** What [BaseCharacter.execute_action] does to a character for an action
    that is none of [rest], [explore] and [socialize]. *)
Definition after_plain_action (action : string) (t : Z) (c : Character) : Character :=
  set_energy (Z.max 0 (energy c - 5))
    (set_last_action_time t (set_current_activity action c)).

Definition plain_action_state (self : nat) (action : string) (c : Character) (s : State) : State :=
  set_heap (<[self := after_plain_action action (wall s) c]> (heap s))
    (set_wall (wall s + 1) s).

(** The researcher's station with the researcher in the roster. *)
Definition station_state : State :=
  final_state (add_character 0 newcomer_state).

(** The locations other than the character's own, among which [explore]
    chooses. *)
Definition other_locations (c : Character) (w : World) : list string :=
  List.filter (fun loc => negb (String.eqb loc (location c))) (dict_keys (locations w)).

(** A world whose only location is the town center, with the surgeon. *)
Definition village_state : State :=
  set_world
    (set_locations [("town_center", mkLocation "Town Center" "" [0%nat])]
       (world hospital_state))
    (set_heap [set_location "town_center" (character_at hospital_state 0)] hospital_state).

(** The bookkeeping of places, in the direction that the code keeps at
    all times: location keys are distinct, no occupant list repeats a
    character, and every character listed at a key has that key as its
    [location]. *)
Definition world_consistent (s : State) : Prop :=
  NoDup (dict_keys (locations (world s))) /\
  forall key loc, dict_get key (locations (world s)) = Some loc ->
    NoDup (occupants loc) /\
    forall k c, k ∈ occupants loc -> heap s !! k = Some c -> location c = key.

Definition keeps_consistent (s s' : State) : Prop :=
  world_consistent s -> world_consistent s'.

(** The event log only grows. *)
Definition log_grows (s s' : State) : Prop :=
  exists l, world_events (world s') = world_events (world s) ++ l.

(** The updates that the code makes outside [move_character]: a
    character keeps its [location], the world keeps its locations and
    its past events. *)
Definition keeps_location (f : Character -> Character) : Prop :=
  forall c, location (f c) = location c.
Definition keeps_locations (f : World -> World) : Prop :=
  forall w, locations (f w) = locations w.
Definition appends_events (f : World -> World) : Prop :=
  forall w, exists l, world_events (f w) = world_events w ++ l.

(** A relation between states that every step of the interpreter keeps,
    whatever its outcome. *)
Class StepRel (R : State -> State -> Prop) : Prop := {
  sr_refl : forall s, R s s;
  sr_trans : forall s1 s2 s3, R s1 s2 -> R s2 s3 -> R s1 s3;
  sr_cursor : forall s n, R s (set_cursor n s);
  sr_wall : forall s n, R s (set_wall n s);
  sr_char : forall s r c f,
    heap s !! r = Some c -> keeps_location f -> R s (set_heap (<[r := f c]> (heap s)) s);
  sr_world : forall s f,
    keeps_locations f -> appends_events f -> R s (set_world (f (world s)) s);
  sr_move : forall character key, preserves R (move_character character key)
}.

(** A boolean test of [world_consistent]. *)
Fixpoint distinct_strings (l : list string) : bool :=
  match l with
  | [] => true
  | x :: rest => negb (str_in x rest) && distinct_strings rest
  end.

Definition consistent_b (s : State) : bool :=
  distinct_strings (dict_keys (locations (world s))) &&
  forallb (fun kv =>
    bool_decide (NoDup (occupants (snd kv))) &&
    forallb (fun k =>
      match heap s !! k with
      | Some c => String.eqb (location c) (fst kv)
      | None => true
      end) (occupants (snd kv)))
    (locations (world s)).

(** A character that is listed among the occupants of its [location]. *)
Definition placed (s : State) (k : nat) : Prop :=
  exists c loc,
    heap s !! k = Some c /\
    dict_get (location c) (locations (world s)) = Some loc /\
    k ∈ occupants loc.

(** What the loop of [distribute_npcs_to_world] keeps of the state [s0] it
    started in: the bookkeeping is consistent, no location and no roster
    entry comes or goes, and a character has been moved only to be placed. *)
Definition distributed_from (s0 s : State) : Prop :=
  world_consistent s /\
  dict_keys (locations (world s)) = dict_keys (locations (world s0)) /\
  manager s = manager s0 /\
  forall k c, heap s0 !! k = Some c ->
    exists c', heap s !! k = Some c' /\
               preferred_locations c' = preferred_locations c /\
               (location c' = location c \/ placed s k).

(** A town of two principals and twenty townspeople who have all been
    added to the world and not yet distributed. *)
Definition gathered_state : State :=
  final_state
    ((World_init "Riverside Town" >>>
      researcher <- DeepSeaResearcher_init "Dr. Marina Depth" 35
        "Marine biologist with 10 years of deep sea exploration experience" ;;
      add_character researcher >>>
      surgeon <- ERSurgeon_init "Dr. Alex Healer" 42
        "Emergency medicine specialist with 15 years of trauma surgery experience" ;;
      add_character surgeon >>>
      NPCManager_init 20 >>>
      created <- create_npcs 20 20 ;;
      for_each created add_character) (empty_state demo_tape)).

(** A boolean test of the precondition of the distribution: every roster
    entry is a character at "town_center" with a preferred location. *)
Definition gathered_b (s : State) : bool :=
  forallb (fun r =>
    match heap s !! r with
    | Some c => String.eqb (location c) "town_center" &&
                negb (Nat.eqb (length (preferred_locations c)) 0)
    | None => false
    end) (mgr_npcs (manager s)).

(** What a simulation step relies on, for a heap of [n] characters and
    the location keys [K]: every reference held by the world or the
    manager is a character of the heap, every character is at a location
    of the world, and the hours of its routine can be read. *)
Definition routine_parses (r : RoutineItem) : Prop :=
  is_Some (Z_of_string (before_colon (r_time r))).

Definition sound_character (K : list string) (c : Character) : Prop :=
  location c ∈ K /\ Forall routine_parses (daily_routine c).

Definition sound_world (n : nat) (K : list string) (w : World) : Prop :=
  dict_keys (locations w) = K /\
  (forall key loc, dict_get key (locations w) = Some loc ->
     Forall (fun k => (k < n)%nat) (occupants loc)) /\
  Forall (fun k => (k < n)%nat) (ai_characters w) /\
  Forall (fun k => (k < n)%nat) (npcs w).

Definition sound (n : nat) (K : list string) (s : State) : Prop :=
  length (heap s) = n /\
  (forall k c, heap s !! k = Some c -> sound_character K c) /\
  sound_world n K (world s) /\
  Forall (fun k => (k < n)%nat) (mgr_npcs (manager s)).

(** [m] returns from every sound state, in a sound state and with a
    value that satisfies [Q]. *)
Definition runs (n : nat) (K : list string) {A} (Q : A -> Prop) (m : M A) : Prop :=
  forall s, sound n K s -> returns m s (fun a s' => sound n K s' /\ Q a).

(** There is somewhere else to go from every place. *)
Definition two_places (K : list string) : Prop :=
  forall loc, List.filter (fun k => negb (String.eqb k loc)) K <> [].

Definition anything {A} (a : A) : Prop := True.

(** The loop of [main]: [for step in range(1, 6): run_simulation_step(...)],
    for any number of steps. *)
Fixpoint run_steps (steps : nat) : M unit :=
  match steps with
  | O => ret tt
  | S steps' => run_simulation_step >>> run_steps steps'
  end.

(** A boolean test of [sound], the location keys apart. *)
Definition below (n : nat) (l : list nat) : bool := forallb (fun k => Nat.ltb k n) l.

Definition sound_b (n : nat) (K : list string) (s : State) : bool :=
  Nat.eqb (length (heap s)) n &&
  forallb (fun c =>
    str_in (location c) K &&
    forallb (fun r =>
      match Z_of_string (before_colon (r_time r)) with Some _ => true | None => false end)
      (daily_routine c)) (heap s) &&
  forallb (fun kv => below n (occupants (snd kv))) (locations (world s)) &&
  below n (ai_characters (world s)) && below n (npcs (world s)) &&
  below n (mgr_npcs (manager s)).

(** * Properties *)

(** ** The monad *)

Lemma returns_ret {A} (a : A) s (Post : A -> State -> Prop) :
  Post a s -> returns (ret a) s Post.
Proof. intros H. exists a, s. split; [reflexivity | exact H]. Qed.

Lemma returns_bind {A B} (m : M A) (k : A -> M B) s (Post : B -> State -> Prop) :
  returns m s (fun a s' => returns (k a) s' Post) -> returns (bind m k) s Post.
Proof.
  intros (a & s' & Hm & b & s'' & Hk & HP).
  exists b, s''. split; [| exact HP].
  unfold bind. rewrite Hm. exact Hk.
Qed.

Lemma returns_weaken {A} (m : M A) s (P Q : A -> State -> Prop) :
  returns m s P -> (forall a s', P a s' -> Q a s') -> returns m s Q.
Proof. intros (a & s' & Hm & HP) H. exists a, s'. auto. Qed.

Lemma bind_ok {A B} (m : M A) (k : A -> M B) s b s'' :
  bind m k s = Ok b s'' -> exists a s', m s = Ok a s' /\ k a s' = Ok b s''.
Proof.
  unfold bind. destruct (m s) as [a s' | e s' | s'] eqn:E; intros H;
    [eauto | discriminate | discriminate].
Qed.

Lemma same_objects_refl s : same_objects s s.
Proof. repeat split. Qed.

Lemma same_objects_trans s1 s2 s3 :
  same_objects s1 s2 -> same_objects s2 s3 -> same_objects s1 s3.
Proof.
  intros (a1 & a2 & a3 & a4) (b1 & b2 & b3 & b4).
  repeat split; congruence.
Qed.

Lemma returns_draw s (Post : Z -> State -> Prop) :
  Post (tape s (cursor s)) (set_cursor (S (cursor s)) s) -> returns draw s Post.
Proof. intros H. eexists _, _. split; [reflexivity | exact H]. Qed.

Lemma returns_randint a b s (Post : Z -> State -> Prop) :
  a <= b ->
  (forall v, a <= v <= b -> Post v (set_cursor (S (cursor s)) s)) ->
  returns (randint a b) s Post.
Proof.
  intros Hab H. unfold randint.
  destruct (b <? a) eqn:E; [apply Z.ltb_lt in E; lia |].
  apply returns_bind, returns_draw, returns_ret, H.
  pose proof (Z.mod_pos_bound (tape s (cursor s)) (b - a + 1)). lia.
Qed.

Lemma nth_elem_of {A} (l : list A) (n : nat) (d : A) :
  (n < length l)%nat -> nth n l d ∈ l.
Proof.
  intros H. apply list_elem_of_In. apply nth_In. exact H.
Qed.

Lemma returns_choice {A} (l : list A) s (Post : A -> State -> Prop) :
  l <> [] ->
  (forall x, x ∈ l -> Post x (set_cursor (S (cursor s)) s)) ->
  returns (choice l) s Post.
Proof.
  intros Hl H. destruct l as [| x l']; [congruence |].
  unfold choice. apply returns_bind, returns_draw, returns_ret, H.
  apply nth_elem_of.
  pose proof (Z.mod_pos_bound (tape s (cursor s)) (Z.of_nat (length (x :: l')))) as Hb.
  cbn [length] in *. lia.
Qed.

Lemma returns_random s (Post : Q -> State -> Prop) :
  Post (unit_draw s) (set_cursor (S (cursor s)) s) -> returns random s Post.
Proof. intros H. unfold random. apply returns_bind, returns_draw, returns_ret, H. Qed.

Lemma returns_now s (Post : Z -> State -> Prop) :
  Post (wall s) (set_wall (wall s + 1) s) -> returns now s Post.
Proof. intros H. eexists _, _. split; [reflexivity | exact H]. Qed.

(** ** PersonalityTraits: validation (C5) *)

Ltac forall_lia :=
  repeat (apply List.Forall_cons; [lia |]); apply List.Forall_nil.

Lemma in_range_iff v : in_range v = true <-> 0 <= v <= 100.
Proof. unfold in_range. rewrite andb_true_iff, !Z.leb_le. tauto. Qed.

Lemma no_invalid_iff (l : list (string * Z)) :
  map fst (List.filter (fun nv => negb (in_range (snd nv))) l) = [] <->
  Forall (fun v => 0 <= v <= 100) (map snd l).
Proof.
  induction l as [| [n v] l IH]; cbn [List.filter map snd fst].
  - split; [constructor | reflexivity].
  - destruct (in_range v) eqn:E; cbn [negb map].
    + rewrite IH. apply in_range_iff in E. split.
      * intros H. constructor; assumption.
      * intros H. apply Forall_cons_1 in H. tauto.
    + split; [discriminate |].
      intros H. apply Forall_cons_1 in H. destruct H as [H _].
      apply in_range_iff in H. congruence.
Qed.

Lemma invalid_fields_nil p : invalid_fields p = [] <-> traits_in_range p.
Proof.
  unfold invalid_fields, traits_in_range. rewrite no_invalid_iff.
  destruct p. reflexivity.
Qed.

Lemma post_init_sum p : fold_left Z.add (trait_values p) 0 = trait_sum p.
Proof. destruct p. unfold trait_sum. cbn. lia. Qed.

Lemma new_traits_ok p :
  traits_in_range p -> trait_sum p = 100 -> new_PersonalityTraits p = inr p.
Proof.
  intros Hr Hs. unfold new_PersonalityTraits.
  apply invalid_fields_nil in Hr. rewrite Hr.
  unfold model_post_init. rewrite post_init_sum, Hs. reflexivity.
Qed.



(** ** NPC: generated personalities (C9) *)

Lemma returns_lift {A} (r : exn + A) (a : A) s (Post : A -> State -> Prop) :
  r = inr a -> Post a s -> returns (lift r) s Post.
Proof. intros -> H. apply returns_ret, H. Qed.

Lemma returns_randint_budget remaining s (Post : Z -> State -> Prop) :
  0 <= remaining ->
  (forall v, 0 <= v -> v <= remaining -> v <= 30 -> Post v (set_cursor (S (cursor s)) s)) ->
  returns (randint 0 (Z.min remaining 30)) s Post.
Proof.
  intros Hr H. apply returns_randint.
  - apply Z.min_glb; lia.
  - intros v [Hv0 Hv]. apply H; [exact Hv0 | |].
    + etransitivity; [exact Hv | apply Z.le_min_l].
    + etransitivity; [exact Hv | apply Z.le_min_r].
Qed.

Lemma traits_of_allocated v1 v2 v3 v4 v5 v6 v7 v8 v9 v10 :
  traits_of_dict
    (dict_set "adaptability" v10 (dict_set "humor" v9 (dict_set "ambitious" v8
      (dict_set "cautious" v7 (dict_set "social" v6 (dict_set "analytical" v5
        (dict_set "creativity" v4 (dict_set "confidence" v3 (dict_set "empathy" v2
          (dict_set "curiosity" v1 []))))))))))
  = new_PersonalityTraits (mkTraits v1 v2 v3 v4 v5 v6 v7 v8 v9 v10).
Proof. reflexivity. Qed.

Lemma generated_personality_returns (s : State) :
  returns _generate_random_personality s
    (fun p s' => s' = advance 9 s /\ traits_in_range p /\ trait_sum p = 100 /\
                 new_PersonalityTraits p = inr p).
Proof.
  unfold _generate_random_personality.
    apply returns_bind.
    cbn [allocate_points trait_names length Nat.sub Nat.eqb].
    apply returns_bind, returns_randint_budget; [lia | intros v1 H1a H1b H1c].
    apply returns_bind, returns_randint_budget; [lia | intros v2 H2a H2b H2c].
    apply returns_bind, returns_randint_budget; [lia | intros v3 H3a H3b H3c].
    apply returns_bind, returns_randint_budget; [lia | intros v4 H4a H4b H4c].
    apply returns_bind, returns_randint_budget; [lia | intros v5 H5a H5b H5c].
    apply returns_bind, returns_randint_budget; [lia | intros v6 H6a H6b H6c].
    apply returns_bind, returns_randint_budget; [lia | intros v7 H7a H7b H7c].
    apply returns_bind, returns_randint_budget; [lia | intros v8 H8a H8b H8c].
    apply returns_bind, returns_randint_budget; [lia | intros v9 H9a H9b H9c].
    apply returns_ret.
    rewrite traits_of_allocated.
    assert (Hr : traits_in_range
              (mkTraits v1 v2 v3 v4 v5 v6 v7 v8 v9
                 (100 - v1 - v2 - v3 - v4 - v5 - v6 - v7 - v8 - v9))).
    { unfold traits_in_range, trait_values. cbn [curiosity empathy confidence creativity
        analytical social cautious ambitious humor adaptability].
      forall_lia. }
    assert (Hs : trait_sum
              (mkTraits v1 v2 v3 v4 v5 v6 v7 v8 v9
                 (100 - v1 - v2 - v3 - v4 - v5 - v6 - v7 - v8 - v9)) = 100).
    { unfold trait_sum. cbn [curiosity empathy confidence creativity
        analytical social cautious ambitious humor adaptability]. lia. }
    rewrite (new_traits_ok _ Hr Hs).
    apply returns_ret.
    split; [| split; [exact Hr | split; [exact Hs |]]].
    - destruct s. reflexivity.
    - apply new_traits_ok; assumption.
Qed.

(** C9. [_generate_random_personality] always returns: it consumes nine
    draws, every one of the ten values lies in [0, 100], they sum to 100,
    and the constructor accepts them. *)
Theorem generated_personality_valid (s : State) :
  exists p,
    _generate_random_personality s = Ok p (advance 9 s) /\
    traits_in_range p /\ trait_sum p = 100 /\
    new_PersonalityTraits p = inr p.
Proof.
  destruct (generated_personality_returns s) as (p & s' & Hrun & -> & Hr & Hs & Hn).
  exists p. auto.
Qed.

(** ** BaseCharacter: the memory log (C4) *)

Lemma insert_by_importance_perm m l :
  Permutation (insert_by_importance m l) (m :: l).
Proof.
  induction l as [| y l IH]; cbn [insert_by_importance]; [reflexivity |].
  destruct (importance y <=? importance m); [reflexivity |].
  rewrite IH. apply perm_swap.
Qed.

Lemma sorted_by_importance_perm l : Permutation (sorted_by_importance l) l.
Proof.
  induction l as [| m l IH]; cbn [sorted_by_importance]; [reflexivity |].
  rewrite insert_by_importance_perm. apply perm_skip, IH.
Qed.

Lemma sorted_by_importance_length l : length (sorted_by_importance l) = length l.
Proof. apply Permutation_length, sorted_by_importance_perm. Qed.

Lemma insert_by_importance_hd m y l :
  importance m < importance y ->
  HdRel by_importance_desc y l ->
  HdRel by_importance_desc y (insert_by_importance m l).
Proof.
  intros Hm Hl. destruct l as [| z l]; cbn [insert_by_importance].
  - constructor. unfold by_importance_desc. lia.
  - destruct (importance z <=? importance m).
    + constructor. unfold by_importance_desc. lia.
    + constructor. inversion Hl; assumption.
Qed.

Lemma insert_by_importance_sorted m l :
  Sorted by_importance_desc l -> Sorted by_importance_desc (insert_by_importance m l).
Proof.
  induction 1 as [| y l Hs IH Hhd]; cbn [insert_by_importance].
  - repeat constructor.
  - destruct (importance y <=? importance m) eqn:E.
    + apply Z.leb_le in E. constructor; [constructor; assumption |].
      constructor. exact E.
    + apply Z.leb_gt in E. constructor; [exact IH |].
      apply insert_by_importance_hd; assumption.
Qed.

Lemma sorted_by_importance_sorted l : Sorted by_importance_desc (sorted_by_importance l).
Proof.
  induction l as [| m l IH]; cbn [sorted_by_importance]; [constructor |].
  apply insert_by_importance_sorted, IH.
Qed.

(** Stability: within one importance value the order is the input's. *)
Lemma insert_by_importance_filter k m l :
  List.filter (has_importance k) (insert_by_importance m l) =
  List.filter (has_importance k) (m :: l).
Proof.
  induction l as [| y l IH]; cbn [insert_by_importance]; [reflexivity |].
  destruct (importance y <=? importance m) eqn:E; [reflexivity |].
  apply Z.leb_gt in E.
  cbn [List.filter] in *. rewrite IH.
  unfold has_importance.
  destruct (importance m =? k) eqn:Em, (importance y =? k) eqn:Ey; try reflexivity.
  apply Z.eqb_eq in Em, Ey. lia.
Qed.

Lemma sorted_by_importance_stable k l :
  List.filter (has_importance k) (sorted_by_importance l) = List.filter (has_importance k) l.
Proof.
  induction l as [| m l IH]; cbn [sorted_by_importance]; [reflexivity |].
  rewrite insert_by_importance_filter. cbn [List.filter]. rewrite IH. reflexivity.
Qed.

Lemma remember_length ms m : (length ms <= 50 -> length (remember ms m) <= 50)%nat.
Proof.
  intros H. unfold remember.
  destruct (50 <? length (ms ++ [m]))%nat eqn:E.
  - rewrite length_firstn. lia.
  - apply Nat.ltb_ge in E. exact E.
Qed.

Lemma remember_all_length entries acc :
  (length acc <= 50 -> length (fold_left remember entries acc) <= 50)%nat.
Proof.
  revert acc. induction entries as [| m entries IH]; intros acc H; cbn [fold_left].
  - exact H.
  - apply IH, remember_length, H.
Qed.

Lemma remember_below ms m :
  (length ms < 50)%nat -> remember ms m = ms ++ [m].
Proof.
  intros H. unfold remember.
  destruct (50 <? length (ms ++ [m]))%nat eqn:E; [| reflexivity].
  apply Nat.ltb_lt in E. rewrite length_app in E. cbn in E. lia.
Qed.

Lemma remember_all_below entries acc :
  (length acc + length entries <= 50)%nat -> fold_left remember entries acc = acc ++ entries.
Proof.
  revert acc. induction entries as [| m entries IH]; intros acc H; cbn [fold_left].
  - rewrite app_nil_r. reflexivity.
  - cbn [length] in H. rewrite remember_below by lia.
    rewrite IH by (rewrite length_app; cbn; lia).
    rewrite <- app_assoc. reflexivity.
Qed.

Lemma sublist_list_filter {A} (f : A -> bool) (l1 l2 : list A) :
  sublist l1 l2 -> sublist (List.filter f l1) (List.filter f l2).
Proof.
  induction 1 as [| x l1 l2 _ IH | x l1 l2 _ IH]; cbn [List.filter].
  - constructor.
  - destruct (f x); [apply sublist_skip |]; exact IH.
  - destruct (f x); [apply sublist_cons |]; exact IH.
Qed.

Lemma remember_sublist k ms m :
  sublist (List.filter (has_importance k) (remember ms m))
          (List.filter (has_importance k) (ms ++ [m])).
Proof.
  unfold remember. destruct (50 <? length (ms ++ [m]))%nat; [| reflexivity].
  rewrite <- (sorted_by_importance_stable k (ms ++ [m])).
  apply sublist_list_filter, sublist_take.
Qed.

Lemma remember_all_sublist k entries acc seen :
  sublist (List.filter (has_importance k) acc) (List.filter (has_importance k) seen) ->
  sublist (List.filter (has_importance k) (fold_left remember entries acc))
          (List.filter (has_importance k) (seen ++ entries)).
Proof.
  revert acc seen. induction entries as [| m entries IH]; intros acc seen H; cbn [fold_left].
  - rewrite app_nil_r. exact H.
  - replace (seen ++ m :: entries) with ((seen ++ [m]) ++ entries)
      by (rewrite <- app_assoc; reflexivity).
    apply IH. etransitivity; [apply remember_sublist |].
    rewrite !List.filter_app. apply sublist_app; [exact H | reflexivity].
Qed.

(** A log in strictly increasing order is reversed by the sort. *)
Lemma insert_by_importance_last m l :
  Forall (fun y => importance m < importance y) l ->
  insert_by_importance m l = l ++ [m].
Proof.
  induction 1 as [| y l Hy _ IH]; cbn [insert_by_importance]; [reflexivity |].
  destruct (importance y <=? importance m) eqn:E; [apply Z.leb_le in E; lia |].
  rewrite IH. reflexivity.
Qed.

Lemma sorted_by_importance_increasing l :
  StronglySorted by_importance_asc l -> sorted_by_importance l = rev l.
Proof.
  induction 1 as [| m l _ IH Hm]; cbn [sorted_by_importance rev]; [reflexivity |].
  rewrite IH. apply insert_by_importance_last.
  apply Forall_forall. intros y Hy. apply list_elem_of_In, in_rev in Hy.
  rewrite List.Forall_forall in Hm. apply Hm, Hy.
Qed.

(** C4. After any sequence of appends the log holds at most 50 entries;
    an append that would exceed 50 keeps the first 50 of the log sorted by
    importance, descending and stable, so entries of one importance stay
    in their order of insertion; and 51 appends of strictly increasing
    importance leave exactly the 50 most important entries. *)
Theorem memory_log_bounded :
  (forall entries, (length (fold_left remember entries []) <= 50)%nat) /\
  (forall self memory importance s c,
     heap s !! self = Some c ->
     add_memory self memory importance s =
       Ok tt (set_heap
                (<[self := set_memories
                             (remember (memories c) (mkMemory memory (wall s) importance)) c]>
                   (heap s))
                (set_wall (wall s + 1) s))) /\
  (forall ms m,
     (50 < length (ms ++ [m]))%nat ->
     remember ms m = firstn 50 (sorted_by_importance (ms ++ [m]))) /\
  (forall l,
     Permutation (sorted_by_importance l) l /\
     Sorted by_importance_desc (sorted_by_importance l) /\
     forall k, List.filter (has_importance k) (sorted_by_importance l)
               = List.filter (has_importance k) l) /\
  (forall entries k,
     sublist (List.filter (has_importance k) (fold_left remember entries []))
             (List.filter (has_importance k) entries)) /\
  (forall first rest,
     length rest = 50%nat ->
     StronglySorted by_importance_asc (first :: rest) ->
     fold_left remember (first :: rest) [] = rev rest).
Proof.
  split; [| split; [| split; [| split; [| split]]]].
  - intros entries. apply remember_all_length. cbn. lia.
  - intros self memory imp s c H.
    unfold add_memory, bind, now, upd_char. cbn [heap set_wall]. rewrite H. reflexivity.
  - intros ms m H. unfold remember.
    apply Nat.ltb_lt in H. rewrite H. reflexivity.
  - intros l. split; [apply sorted_by_importance_perm |].
    split; [apply sorted_by_importance_sorted |].
    intros k. apply sorted_by_importance_stable.
  - intros entries k.
    apply (remember_all_sublist k entries [] []). reflexivity.
  - intros first rest Hlen Hs.
    assert (Hsplit : first :: rest =
              removelast (first :: rest) ++ [List.last (first :: rest) first]).
    { apply app_removelast_last. discriminate. }
    assert (Hl : length (removelast (first :: rest)) = 50%nat).
    { apply (f_equal (@length Memory)) in Hsplit.
      rewrite length_app in Hsplit. cbn [length] in Hsplit. lia. }
    rewrite Hsplit at 1. rewrite fold_left_app. cbn [fold_left].
    rewrite remember_all_below by (cbn [length]; lia).
    cbn [app]. unfold remember. rewrite <- Hsplit.
    cbn [length]. rewrite Hlen. cbn [Nat.ltb Nat.leb].
    rewrite sorted_by_importance_increasing by exact Hs.
    cbn [rev]. rewrite firstn_app, length_rev, Hlen.
    cbn [Nat.sub firstn]. rewrite app_nil_r.
    apply firstn_all2. rewrite length_rev. lia.
Qed.

Lemma graded_entries_increasing : StronglySorted by_importance_asc graded_entries.
Proof.
  assert (H : forall n k, StronglySorted by_importance_asc
            (map (fun i => mkMemory "event" (Z.of_nat i) (Z.of_nat i)) (seq k n))).
  { induction n as [| n IH]; intros k; cbn [seq map]; constructor.
    - apply IH.
    - apply List.Forall_forall. intros m Hm.
      apply in_map_iff in Hm. destruct Hm as (i & <- & Hi).
      apply in_seq in Hi. unfold by_importance_asc. cbn. lia. }
  apply H.
Qed.

(** Of the entries graded 0 to 50 the log keeps those graded 50 down to 1. *)
Lemma memory_log_bounded_witness :
  map importance (fold_left remember graded_entries []) = map Z.of_nat (rev (seq 1 50)).
Proof.
  pose proof (proj2 (proj2 (proj2 (proj2 (proj2 memory_log_bounded))))
                (mkMemory "event" 0 0) (tl graded_entries) eq_refl
                graded_entries_increasing) as H.
  change (mkMemory "event" 0 0 :: tl graded_entries) with graded_entries in H.
  rewrite H. vm_compute. reflexivity.
Defined.

(** ** BaseCharacter: action selection (C6) *)

Lemma unit_draw_range s : (0 <= unit_draw s /\ unit_draw s < 1)%Q.
Proof.
  unfold unit_draw, Qle, Qlt. cbn [Qnum Qden].
  pose proof (Z.mod_pos_bound (tape s (cursor s)) (2 ^ 53)) as H.
  assert (Hp : Z.pos (2 ^ 53)%positive = 2 ^ 53) by reflexivity.
  rewrite Hp. lia.
Qed.

Lemma action_weight_floor p e a : (1 # 10 <= action_weight p e a)%Q.
Proof. unfold action_weight. apply Q.le_max_r. Qed.

Lemma rest_weight p e :
  (action_weight p e "rest" == Qmax (1 + inject_Z (100 - e) * (1 # 100)) (1 # 10))%Q.
Proof. reflexivity. Qed.

Lemma fold_Qplus_lower (l : list Q) (acc : Q) :
  Forall (fun w => (1 # 10 <= w)%Q) l ->
  (acc <= fold_left Qplus l acc)%Q /\ (l <> [] -> acc < fold_left Qplus l acc)%Q.
Proof.
  intros H. revert acc. induction H as [| w l Hw _ IH]; intros acc; cbn [fold_left].
  - split; [lra | congruence].
  - destruct (IH (acc + w)%Q) as [IH1 _]. split; [lra | intros _; lra].
Qed.

Lemma walk_some items pick cur a :
  walk items pick cur = Some a ->
  exists i w, items !! i = Some (a, w) /\
    (pick <= fold_left Qplus (map snd (firstn (S i) items)) cur)%Q /\
    forall j, (j < i)%nat ->
      (fold_left Qplus (map snd (firstn (S j) items)) cur < pick)%Q.
Proof.
  revert cur. induction items as [| [b w] items IH]; intros cur H; cbn [walk] in H.
  - discriminate.
  - destruct (Qle_bool pick (cur + w)) eqn:E.
    + injection H as <-. exists 0%nat, w. split; [reflexivity |].
      split; [apply Qle_bool_iff; exact E | intros j Hj; lia].
    + destruct (IH _ H) as (i & w' & Hi & Hle & Hlt).
      exists (S i), w'. split; [exact Hi |]. split; [exact Hle |].
      intros [| j] Hj.
      * change (firstn 1 ((b, w) :: items)) with [(b, w)].
        cbn [map snd fold_left]. apply Qnot_le_lt. intros Hc.
        apply Qle_bool_iff in Hc. congruence.
      * apply (Hlt j). lia.
Qed.

Lemma walk_none items pick cur :
  walk items pick cur = None ->
  forall i, (i < length items)%nat ->
    (fold_left Qplus (map snd (firstn (S i) items)) cur < pick)%Q.
Proof.
  revert cur. induction items as [| [b w] items IH]; intros cur H i Hi; cbn [walk] in H.
  - cbn in Hi. lia.
  - destruct (Qle_bool pick (cur + w)) eqn:E; [discriminate |].
    destruct i as [| i].
    + change (firstn 1 ((b, w) :: items)) with [(b, w)].
      cbn [map snd fold_left]. apply Qnot_le_lt. intros Hc.
      apply Qle_bool_iff in Hc. congruence.
    + apply (IH _ H i). cbn in Hi. lia.
Qed.

(** The dict built by the loop over [possible_actions]. *)
Lemma dict_set_elem {V} k (v : V) d a w :
  (a, w) ∈ dict_set k v d -> (a, w) ∈ d \/ (a = k /\ w = v).
Proof.
  induction d as [| [k' v'] d IH]; cbn [dict_set]; intros H.
  - apply list_elem_of_singleton in H. injection H as -> ->. auto.
  - destruct (String.eqb k k') eqn:E.
    + apply String.eqb_eq in E. subst k'.
      apply elem_of_cons in H. destruct H as [H | H].
      * injection H as -> ->. auto.
      * left. apply elem_of_cons. auto.
    + apply elem_of_cons in H. destruct H as [H | H].
      * left. apply elem_of_cons. auto.
      * destruct (IH H) as [H' | H']; [| auto].
        left. apply elem_of_cons. auto.
Qed.

Lemma dict_set_mem {V} k (v : V) d k' :
  dict_mem k' (dict_set k v d) = String.eqb k' k || dict_mem k' d.
Proof.
  unfold dict_mem. induction d as [| [k0 v0] d IH]; cbn [dict_set dict_get].
  - destruct (String.eqb k' k); reflexivity.
  - destruct (String.eqb k k0) eqn:E; cbn [dict_get].
    + apply String.eqb_eq in E. subst k0.
      destruct (String.eqb k' k); reflexivity.
    + destruct (String.eqb k' k0) eqn:E0; [| exact IH].
      rewrite orb_true_r. reflexivity.
Qed.

Lemma dict_mem_elem {V} k (d : list (string * V)) :
  dict_mem k d = true -> exists v, (k, v) ∈ d.
Proof.
  unfold dict_mem. induction d as [| [k0 v0] d IH]; cbn [dict_get]; [discriminate |].
  destruct (String.eqb k k0) eqn:E.
  - apply String.eqb_eq in E. subst k0. intros _. exists v0. apply elem_of_cons. auto.
  - intros H. destruct (IH H) as [v Hv]. exists v. apply elem_of_cons. auto.
Qed.

Lemma dict_set_fresh {V} k (v : V) d :
  dict_mem k d = false -> dict_set k v d = d ++ [(k, v)].
Proof.
  unfold dict_mem. induction d as [| [k0 v0] d IH]; cbn [dict_set dict_get app];
    [reflexivity |].
  destruct (String.eqb k k0); [discriminate |].
  intros H. rewrite IH by exact H. reflexivity.
Qed.

Section TraitWeights.
Variable f : string -> Q.

Let build (l : list string) (d : list (string * Q)) : list (string * Q) :=
  fold_left (fun d action => dict_set action (f action) d) l d.

Lemma build_elem l d a w :
  (a, w) ∈ build l d -> (a, w) ∈ d \/ (a ∈ l /\ w = f a).
Proof.
  revert d. induction l as [| x l IH]; intros d H; cbn in H.
  - auto.
  - destruct (IH _ H) as [H' | [H1 H2]].
    + destruct (dict_set_elem _ _ _ _ _ H') as [? | [-> ->]]; [auto |].
      right. split; [apply elem_of_cons; auto | reflexivity].
    + right. split; [apply elem_of_cons; auto | exact H2].
Qed.

Lemma build_mem l d a :
  dict_mem a (build l d) = existsb (String.eqb a) l || dict_mem a d.
Proof.
  revert d. induction l as [| x l IH]; intros d; cbn [build fold_left existsb].
  - reflexivity.
  - unfold build in IH. rewrite IH, dict_set_mem.
    destruct (String.eqb a x), (existsb (String.eqb a) l), (dict_mem a d); reflexivity.
Qed.

Lemma build_nodup l d :
  NoDup l -> (forall a, a ∈ l -> dict_mem a d = false) ->
  build l d = d ++ map (fun a => (a, f a)) l.
Proof.
  intros Hl. revert d. induction Hl as [| x l Hx _ IH]; intros d Hd; cbn [build fold_left map].
  - rewrite app_nil_r. reflexivity.
  - rewrite dict_set_fresh by (apply Hd, elem_of_cons; auto).
    unfold build in IH. rewrite IH.
    + rewrite <- app_assoc. reflexivity.
    + intros a Ha. unfold dict_mem.
      assert (E : dict_mem a (d ++ [(x, f x)]) = dict_mem a (dict_set x (f x) d)).
      { rewrite dict_set_fresh; [reflexivity | apply Hd, elem_of_cons; auto]. }
      unfold dict_mem in E. rewrite E. fold (dict_mem a (dict_set x (f x) d)).
      rewrite dict_set_mem.
      rewrite (Hd a) by (apply elem_of_cons; auto).
      destruct (String.eqb a x) eqn:Eax; [| reflexivity].
      apply String.eqb_eq in Eax. subst a. contradiction.
Qed.
End TraitWeights.

Lemma str_in_elem a l : str_in a l = true <-> a ∈ l.
Proof.
  unfold str_in. rewrite existsb_exists. split.
  - intros (x & Hx & E). apply String.eqb_eq in E. subst x.
    apply list_elem_of_In, Hx.
  - intros H. exists a. split; [apply list_elem_of_In, H | apply String.eqb_refl].
Qed.

Lemma trait_weights_elem p e l a w :
  (a, w) ∈ trait_weights p e l -> a ∈ l /\ w = action_weight p e a.
Proof.
  intros H. apply (build_elem (action_weight p e)) in H.
  destruct H as [H | H]; [| exact H].
  apply elem_of_nil in H. contradiction.
Qed.

Lemma trait_weights_floor p e l :
  Forall (fun w => (1 # 10 <= w)%Q) (dict_values (trait_weights p e l)).
Proof.
  apply Forall_forall. intros w Hw.
  apply list_elem_of_In, in_map_iff in Hw. destruct Hw as ([a w'] & <- & Hin).
  apply list_elem_of_In, trait_weights_elem in Hin. destruct Hin as [_ ->].
  apply action_weight_floor.
Qed.

Lemma trait_weights_nonempty p e l : l <> [] -> trait_weights p e l <> [].
Proof.
  intros Hl. destruct l as [| a l]; [congruence |].
  intros E.
  assert (H : dict_mem a (trait_weights p e (a :: l)) = true).
  { unfold trait_weights. rewrite (build_mem (action_weight p e)).
    cbn [existsb]. rewrite String.eqb_refl. reflexivity. }
  rewrite E in H. discriminate.
Qed.




(** ** World: moves (C2) and the occupancy of added characters (C1) *)

Ltac unfold_state :=
  unfold set_heap, set_world, set_manager, set_cursor, set_wall,
    set_locations, set_world_events, set_time, set_ai_characters, set_npcs in *;
  cbn [heap world manager tape cursor wall
       world_name time locations ai_characters npcs world_events] in *.

Lemma ref_in_elem x l : ref_in x l = true <-> x ∈ l.
Proof.
  unfold ref_in. rewrite existsb_exists. split.
  - intros (y & Hy & E). apply Nat.eqb_eq in E. subst y. apply list_elem_of_In, Hy.
  - intros H. exists x. split; [apply list_elem_of_In, H | apply Nat.eqb_refl].
Qed.

Lemma list_remove_absent x l : x ∉ l -> list_remove x l = l.
Proof.
  induction l as [| y l IH]; cbn [list_remove]; intros H; [reflexivity |].
  destruct (Nat.eqb x y) eqn:E.
  - apply Nat.eqb_eq in E. subst y. exfalso. apply H, elem_of_cons. auto.
  - rewrite IH; [reflexivity |]. intros Hx. apply H, elem_of_cons. auto.
Qed.

Lemma list_remove_other x y l : y <> x -> y ∈ list_remove x l <-> y ∈ l.
Proof.
  intros Hne. induction l as [| z l IH]; cbn [list_remove]; [reflexivity |].
  destruct (Nat.eqb x z) eqn:E.
  - apply Nat.eqb_eq in E. subst z. rewrite elem_of_cons. split; [auto |].
    intros [H | H]; [contradiction | exact H].
  - rewrite !elem_of_cons, IH. reflexivity.
Qed.

Lemma list_remove_sublist x l : sublist (list_remove x l) l.
Proof.
  induction l as [| z l IH]; cbn [list_remove]; [constructor |].
  destruct (Nat.eqb x z); [apply sublist_cons; reflexivity | apply sublist_skip, IH].
Qed.

Lemma list_remove_nodup x l : NoDup l -> NoDup (list_remove x l) /\ x ∉ list_remove x l.
Proof.
  induction 1 as [| z l Hz Hl IH]; cbn [list_remove].
  - split; [constructor | apply not_elem_of_nil].
  - destruct (Nat.eqb x z) eqn:E.
    + apply Nat.eqb_eq in E. subst z. auto.
    + apply Nat.eqb_neq in E. destruct IH as [IH1 IH2]. split.
      * constructor; [| exact IH1]. rewrite list_remove_other by congruence. exact Hz.
      * rewrite elem_of_cons. intros [H | H]; [congruence | contradiction].
Qed.

Lemma vacate_occupants x loc : occupants (vacate x loc) = list_remove x (occupants loc).
Proof.
  unfold vacate. destruct (ref_in x (occupants loc)) eqn:E; [reflexivity |].
  rewrite list_remove_absent; [reflexivity |].
  intros H. apply ref_in_elem in H. congruence.
Qed.

Lemma dict_get_map_values {V} (f : V -> V) k d :
  dict_get k (map_values f d) = option_map f (dict_get k d).
Proof.
  induction d as [| [k' v] d IH]; cbn [map_values map dict_get fst snd]; [reflexivity |].
  destruct (String.eqb k k'); [reflexivity | exact IH].
Qed.

Lemma dict_get_update {V} (f : V -> V) key k d :
  dict_get k (dict_update key f d) =
  if String.eqb k key then option_map f (dict_get k d) else dict_get k d.
Proof.
  induction d as [| [k' v] d IH]; cbn [dict_update dict_get].
  - destruct (String.eqb k key); reflexivity.
  - destruct (String.eqb key k') eqn:E1.
    + apply String.eqb_eq in E1. subst k'. cbn [dict_get].
      destruct (String.eqb k key); reflexivity.
    + cbn [dict_get]. destruct (String.eqb k k') eqn:E2.
      * apply String.eqb_eq in E2. subst k'.
        rewrite String.eqb_sym in E1. rewrite E1. reflexivity.
      * exact IH.
Qed.

Lemma dict_keys_map_values {V} (f : V -> V) d : dict_keys (map_values f d) = dict_keys d.
Proof. unfold dict_keys, map_values. rewrite map_map. reflexivity. Qed.

Lemma dict_keys_update {V} (f : V -> V) key d : dict_keys (dict_update key f d) = dict_keys d.
Proof.
  unfold dict_keys. induction d as [| [k' v] d IH]; cbn [dict_update map fst]; [reflexivity |].
  destruct (String.eqb key k'); cbn [map fst]; [reflexivity | rewrite IH; reflexivity].
Qed.

Lemma dict_get_elem {V} k (v : V) d : dict_get k d = Some v -> (k, v) ∈ d.
Proof.
  induction d as [| [k' v'] d IH]; cbn [dict_get]; [discriminate |].
  destruct (String.eqb k k') eqn:E.
  - apply String.eqb_eq in E. subst k'. intros [= ->]. apply elem_of_cons. auto.
  - intros H. apply elem_of_cons. auto.
Qed.

Lemma dict_elem_get {V} k (v : V) d :
  NoDup (dict_keys d) -> (k, v) ∈ d -> dict_get k d = Some v.
Proof.
  unfold dict_keys. induction d as [| [k' v'] d IH]; cbn [map fst dict_get]; intros Hnd H.
  - apply elem_of_nil in H. contradiction.
  - apply NoDup_cons in Hnd. destruct Hnd as [Hk Hnd].
    apply elem_of_cons in H. destruct H as [H | H].
    + injection H as -> ->. rewrite String.eqb_refl. reflexivity.
    + destruct (String.eqb k k') eqn:E; [| apply IH; assumption].
      apply String.eqb_eq in E. subst k'. exfalso. apply Hk.
      apply list_elem_of_fmap. exists (k, v). auto.
Qed.

(** The keys selected by a test that holds at one key only. *)
Lemma one_key_selected {V} (test : string * V -> bool) key (d : list (string * V)) :
  NoDup (dict_keys d) -> key ∈ dict_keys d ->
  (forall kv, kv ∈ d -> test kv = true <-> fst kv = key) ->
  map fst (List.filter test d) = [key].
Proof.
  unfold dict_keys. induction d as [| [k v] d IH]; cbn [map fst List.filter]; intros Hnd Hk Ht.
  - apply elem_of_nil in Hk. contradiction.
  - apply NoDup_cons in Hnd. destruct Hnd as [Hfresh Hnd].
    assert (Hrest : forall kv, kv ∈ d -> test kv = true <-> fst kv = key).
    { intros kv Hkv. apply Ht, elem_of_cons. auto. }
    destruct (test (k, v)) eqn:E.
    + apply (Ht (k, v)) in E; [| apply elem_of_cons; auto]. cbn [fst] in E. subst k.
      cbn [map fst]. f_equal.
      assert (Hnone : forall kv, kv ∈ d -> test kv = false).
      { intros kv Hkv. destruct (test kv) eqn:E2; [| reflexivity].
        apply Hrest in E2; [| exact Hkv]. exfalso. apply Hfresh.
        apply list_elem_of_fmap. exists kv. auto. }
      clear -Hnone. induction d as [| kv d IH]; cbn [List.filter map]; [reflexivity |].
      rewrite (Hnone kv) by (apply elem_of_cons; auto).
      apply IH. intros kv' H. apply Hnone, elem_of_cons. auto.
    + apply IH; [exact Hnd | | exact Hrest].
      apply elem_of_cons in Hk. destruct Hk as [Hk | Hk]; [| exact Hk].
      cbn [fst] in Hk. subst k. exfalso.
      assert (test (key, v) = true) by (apply Ht; [apply elem_of_cons; auto | reflexivity]).
      congruence.
Qed.

Lemma dict_mem_get {V} k (d : list (string * V)) :
  dict_mem k d = true <-> exists v, dict_get k d = Some v.
Proof.
  unfold dict_mem. destruct (dict_get k d); split; eauto; try discriminate.
  intros [v H]. discriminate.
Qed.

Lemma dict_get_key {V} k (v : V) d : dict_get k d = Some v -> k ∈ dict_keys d.
Proof.
  intros H. apply dict_get_elem in H. unfold dict_keys.
  apply list_elem_of_fmap. exists (k, v). auto.
Qed.

(** The locations after [character] has moved to [location_key]. *)
Lemma moved_location character location_key (locs : list (string * Location)) k loc :
  dict_get k locs = Some loc ->
  exists loc',
    dict_get k (dict_update location_key (enter character)
                  (map_values (vacate character) locs)) = Some loc' /\
    loc_name loc' = loc_name loc /\
    occupants loc' =
      list_remove character (occupants loc) ++
      (if String.eqb k location_key then [character] else []).
Proof.
  intros H. rewrite dict_get_update, dict_get_map_values, H. cbn [option_map].
  destruct (String.eqb k location_key).
  - eexists. split; [reflexivity |].
    unfold enter, vacate, set_occupants.
    destruct (ref_in character (occupants loc)) eqn:E; cbn [loc_name occupants].
    + auto.
    + split; [reflexivity |]. rewrite list_remove_absent; [reflexivity |].
      intros Hin. apply ref_in_elem in Hin. congruence.
  - eexists. split; [reflexivity |]. rewrite vacate_occupants, app_nil_r.
    split; [| reflexivity]. unfold vacate, set_occupants.
    destruct (ref_in character (occupants loc)); reflexivity.
Qed.

(** C2. [move_character] with a key that is not a location changes
    nothing: no occupant list, no attribute, no event.  With a declared
    key it takes the character out of every occupant list, appends it to
    the target's, sets the character's [location] and logs exactly one
    [character_movement] event; where occupant lists had no repetition the
    character then occupies the target and no other location. *)
Theorem move_character_effect (s : State) (character : nat) (c : Character)
    (location_key : string) :
  heap s !! character = Some c ->
  (dict_mem location_key (locations (world s)) = false ->
     move_character character location_key s = Ok tt s) /\
  (dict_mem location_key (locations (world s)) = true ->
     exists s',
       move_character character location_key s = Ok tt s' /\
       heap s' = <[character := set_location location_key c]> (heap s) /\
       dict_keys (locations (world s')) = dict_keys (locations (world s)) /\
       (forall k loc, dict_get k (locations (world s)) = Some loc ->
          exists loc',
            dict_get k (locations (world s')) = Some loc' /\
            loc_name loc' = loc_name loc /\
            occupants loc' =
              list_remove character (occupants loc) ++
              (if String.eqb k location_key then [character] else [])) /\
       (exists e,
          world_events (world s') = world_events (world s) ++ [e] /\
          event_type e = "character_movement" /\
          ev_location e = location_key /\ participants e = name c) /\
       ((forall k loc, dict_get k (locations (world s)) = Some loc ->
           NoDup (occupants loc)) ->
        (forall k loc', dict_get k (locations (world s')) = Some loc' ->
           NoDup (occupants loc') /\
           (character ∈ occupants loc' <-> k = location_key)) /\
        (NoDup (dict_keys (locations (world s))) -> occupancy_ok s' character))).
Proof.
  intros Hc. split.
  - intros Hmem. unfold move_character, bind, get_world. rewrite Hmem. reflexivity.
  - intros Hmem.
    pose proof Hmem as Hget. apply dict_mem_get in Hget. destruct Hget as [target Htarget].
    destruct (moved_location character location_key _ _ _ Htarget)
      as (target' & Htarget' & Hname' & Hocc').
    assert (Hlt : (character < length (heap s))%nat) by (eapply lookup_lt_Some; eauto).
    eexists. split; [| split; [| split; [| split; [| split]]]].
    + unfold move_character, bind, get_world. rewrite Hmem.
      unfold upd_world, modify, upd_char, get_char, location_name, log_event, bind, now,
        get_world, ret.
      unfold_state. rewrite Hc. unfold_state.
      rewrite list_lookup_insert_eq by exact Hlt.
      unfold_state. rewrite Htarget'. unfold raise. unfold_state. reflexivity.
    + reflexivity.
    + unfold_state. rewrite dict_keys_update, dict_keys_map_values. reflexivity.
    + intros k loc Hk. unfold_state. apply moved_location, Hk.
    + eexists. unfold_state. split; [reflexivity |].
      cbn [event_type ev_location participants].
      split; [reflexivity |]. split; [reflexivity |]. reflexivity.
    + intros Hnd. unfold_state.
      assert (Hafter : forall k loc',
                dict_get k (dict_update location_key (enter character)
                              (map_values (vacate character) (locations (world s))))
                  = Some loc' ->
                NoDup (occupants loc') /\
                (character ∈ occupants loc' <-> k = location_key)).
      { intros k loc' Hk.
        destruct (dict_get k (locations (world s))) as [loc |] eqn:Hold.
        - destruct (moved_location character location_key _ _ _ Hold)
            as (loc2 & Hk2 & _ & Hocc2).
          rewrite Hk in Hk2. injection Hk2 as <-. rewrite Hocc2.
          destruct (list_remove_nodup character _ (Hnd _ _ Hold)) as [Hn1 Hn2].
          destruct (String.eqb k location_key) eqn:E.
          + apply String.eqb_eq in E. split.
            * apply NoDup_app. split; [exact Hn1 |]. split; [| apply NoDup_singleton].
              intros x Hx Hx2. apply list_elem_of_singleton in Hx2. subst x. contradiction.
            * split; [auto |]. intros _. apply elem_of_app. right.
              apply list_elem_of_singleton. reflexivity.
          + apply String.eqb_neq in E. rewrite app_nil_r. split; [exact Hn1 |].
            split; [contradiction | congruence].
        - rewrite dict_get_update, dict_get_map_values, Hold in Hk.
          destruct (String.eqb k location_key); discriminate. }
      split; [exact Hafter |].
      intros Hkeys. exists (set_location location_key c). split.
      * cbn [heap]. apply list_lookup_insert_eq, Hlt.
      * unfold places_of. cbn [world locations location set_location].
        apply one_key_selected.
        -- rewrite dict_keys_update, dict_keys_map_values. exact Hkeys.
        -- rewrite dict_keys_update, dict_keys_map_values.
           eapply dict_get_key, Htarget.
        -- intros [k loc'] Hin. cbn [fst snd].
           rewrite ref_in_elem. apply Hafter.
           apply dict_elem_get; [| exact Hin].
           rewrite dict_keys_update, dict_keys_map_values. exact Hkeys.
Qed.

(** The surgeon walks from the hospital to the riverside; a move to a
    place that does not exist leaves the town as it was. *)
Lemma move_character_effect_witness :
  move_character 0 "atlantis" hospital_state = Ok tt hospital_state /\
  places_of 0 (world hospital_state) = ["hospital"] /\
  exists s',
    move_character 0 "riverside" hospital_state = Ok tt s' /\
    occupancy_ok s' 0 /\
    places_of 0 (world s') = ["riverside"].
Proof.
  assert (Hc : heap hospital_state !! 0%nat = Some (character_at hospital_state 0))
    by (vm_compute; reflexivity).
  split; [| split].
  - apply (proj1 (move_character_effect hospital_state 0 _ "atlantis" Hc)).
    vm_compute. reflexivity.
  - vm_compute. reflexivity.
  - destruct (proj2 (move_character_effect hospital_state 0 _ "riverside" Hc))
      as (s' & Hrun & _ & _ & _ & _ & Hocc); [vm_compute; reflexivity |].
    exists s'. split; [exact Hrun |].
    assert (Hok : occupancy_ok s' 0).
    { apply Hocc.
      - intros k loc Hk.
        assert (Hall : forallb (fun kv => match occupants (snd kv) with
                                          | [] | [_] => true | _ => false end)
                         (locations (world hospital_state)) = true)
          by (vm_compute; reflexivity).
        apply dict_get_elem, list_elem_of_In in Hk.
        rewrite forallb_forall in Hall. specialize (Hall _ Hk). cbn [snd] in Hall.
        destruct (occupants loc) as [| x [| y l]]; [constructor | | discriminate].
        apply NoDup_singleton.
      - vm_compute. repeat constructor; intros H;
          repeat (apply elem_of_cons in H; destruct H as [H | H]; [discriminate |]);
          apply elem_of_nil in H; exact H. }
    split; [exact Hok |].
    destruct Hok as (c' & Hc' & Hp). rewrite Hp.
    assert (Hh : heap s' = <[0%nat := set_location "riverside" (character_at hospital_state 0)]>
                             (heap hospital_state)).
    { destruct (proj2 (move_character_effect hospital_state 0 _ "riverside" Hc))
        as (s2 & Hrun2 & Hheap & _); [vm_compute; reflexivity |].
      rewrite Hrun in Hrun2. injection Hrun2 as <-. exact Hheap. }
    rewrite Hh in Hc'. vm_compute in Hc'. injection Hc' as <-. reflexivity.
Defined.

(** C1, at [add_character]. The call files the character in a roster and
    logs the arrival, and touches no occupant list and no attribute: a
    character that was in no occupant list before the call is in none
    after it, whatever its [location] says. *)
Theorem add_character_leaves_unplaced (s : State) (character : nat) (c : Character) :
  heap s !! character = Some c ->
  exists s',
    add_character character s = Ok tt s' /\
    heap s' = heap s /\
    locations (world s') = locations (world s) /\
    (character ∈ ai_characters (world s') \/ character ∈ npcs (world s')) /\
    (places_of character (world s) = [] ->
       places_of character (world s') = [] /\ ~ occupancy_ok s' character).
Proof.
  intros Hc.
  assert (Hshape : exists s',
            add_character character s = Ok tt s' /\
            heap s' = heap s /\
            locations (world s') = locations (world s) /\
            (character ∈ ai_characters (world s') \/ character ∈ npcs (world s'))).
  { unfold add_character, bind, get_char. rewrite Hc.
    destruct (str_in (job c) ["Deep Sea Researcher"; "ER Surgeon"]) eqn:E;
      unfold upd_world, modify, log_event, bind, now; unfold_state;
      (eexists; split; [reflexivity |]); unfold_state;
      (split; [reflexivity |]); (split; [reflexivity |]).
    - left. apply elem_of_app. right. apply list_elem_of_singleton. reflexivity.
    - right. apply elem_of_app. right. apply list_elem_of_singleton. reflexivity. }
  destruct Hshape as (s' & Hrun & Hheap & Hlocs & Hroster).
  exists s'. split; [exact Hrun |]. split; [exact Hheap |]. split; [exact Hlocs |].
  split; [exact Hroster |].
  intros Hp.
  assert (Hp' : places_of character (world s') = []).
  { unfold places_of in *. rewrite Hlocs. exact Hp. }
  split; [exact Hp' |].
  intros (c' & _ & H). rewrite Hp' in H. discriminate.
Qed.

(** The researcher, whose [location] is the research station, is added
    to a new town and is an occupant of no location. *)
Lemma add_character_leaves_unplaced_witness :
  location (character_at newcomer_state 0) = "research_station" /\
  exists s',
    add_character 0 newcomer_state = Ok tt s' /\
    ai_characters (world s') = [0%nat] /\
    places_of 0 (world s') = [] /\
    ~ occupancy_ok s' 0.
Proof.
  split; [vm_compute; reflexivity |].
  destruct (add_character_leaves_unplaced newcomer_state 0 (character_at newcomer_state 0))
    as (s' & Hrun & _ & _ & _ & Hp); [vm_compute; reflexivity |].
  exists s'. split; [exact Hrun |].
  destruct Hp as [Hp Hno]; [vm_compute; reflexivity |].
  split; [| split; [exact Hp | exact Hno]].
  assert (E : add_character 0 newcomer_state =
              Ok tt (final_state (add_character 0 newcomer_state))).
  { rewrite Hrun. reflexivity. }
  rewrite Hrun in E at 1. injection E as ->. vm_compute. reflexivity.
Defined.

(** ** Frame reasoning for code that acts for given characters *)

#[export] Instance any_change_rel : CharRel any_change.
Proof. split; unfold any_change; auto. Qed.

#[export] Instance any_change_energy : EnergyRel any_change.
Proof. split; unfold any_change; auto. Qed.

#[export] Instance same_energy_rel : CharRel same_energy.
Proof. split; unfold same_energy; intros; congruence. Qed.

#[export] Instance keeps_energy_ok_rel : CharRel keeps_energy_ok.
Proof.
  split; unfold keeps_energy_ok, energy_ok; intros; auto.
  rewrite H. auto.
Qed.

#[export] Instance keeps_energy_ok_energy : EnergyRel keeps_energy_ok.
Proof.
  split; unfold keeps_energy_ok, energy_ok; intros c H; cbn [energy set_energy]; lia.
Qed.

Section Acts.
Context (P : nat -> Prop) (Qc : Character -> Character -> Prop) `{!CharRel Qc}.

Lemma acts_refl s : acts P Qc s s.
Proof.
  split; [| repeat split].
  intros k c H. exists c. split; [exact H |]. split; [apply qc_refl | reflexivity].
Qed.

Lemma acts_trans s1 s2 s3 : acts P Qc s1 s2 -> acts P Qc s2 s3 -> acts P Qc s1 s3.
Proof.
  intros (H1 & L1 & A1 & N1 & T1 & M1) (H2 & L2 & A2 & N2 & T2 & M2).
  split; [| repeat split; congruence].
  intros k c Hk. destruct (H1 k c Hk) as (c1 & Hk1 & Q1 & F1).
  destruct (H2 k c1 Hk1) as (c2 & Hk2 & Q2 & F2).
  exists c2. split; [exact Hk2 |]. split; [eapply qc_trans; eauto |].
  intros Hn. rewrite (F2 Hn). apply F1, Hn.
Qed.

Lemma preserves_ret {A} (a : A) : preserves (acts P Qc) (ret a).
Proof. intros s. apply acts_refl. Qed.

Lemma preserves_raise {A} e : preserves (acts P Qc) (@raise A e).
Proof. intros s. apply acts_refl. Qed.

Lemma preserves_bind {A B} (m : M A) (k : A -> M B) :
  preserves (acts P Qc) m -> (forall a, preserves (acts P Qc) (k a)) ->
  preserves (acts P Qc) (bind m k).
Proof.
  intros Hm Hk s. unfold bind. specialize (Hm s).
  destruct (m s) as [a s' | e s' | s']; cbn [final_state] in *; [| exact Hm | exact Hm].
  eapply acts_trans; [exact Hm | apply Hk].
Qed.

Lemma preserves_when b m : preserves (acts P Qc) m -> preserves (acts P Qc) (when b m).
Proof. intros H. destruct b; [exact H | apply preserves_ret]. Qed.

Lemma preserves_for_each {A} (l : list A) (body : A -> M unit) :
  (forall x, x ∈ l -> preserves (acts P Qc) (body x)) ->
  preserves (acts P Qc) (for_each l body).
Proof.
  induction l as [| x l IH]; intros H; cbn [for_each]; [apply preserves_ret |].
  apply preserves_bind.
  - apply H, elem_of_cons. auto.
  - intros _. apply IH. intros y Hy. apply H, elem_of_cons. auto.
Qed.

Lemma preserves_get_char r : preserves (acts P Qc) (get_char r).
Proof. intros s. unfold get_char. destruct (heap s !! r); apply acts_refl. Qed.

Lemma preserves_get_world : preserves (acts P Qc) get_world.
Proof. intros s. apply acts_refl. Qed.

Lemma preserves_get_manager : preserves (acts P Qc) get_manager.
Proof. intros s. apply acts_refl. Qed.

Lemma preserves_now : preserves (acts P Qc) now.
Proof.
  intros s. split; [| repeat split].
  intros k c H. exists c. split; [exact H |]. split; [apply qc_refl | reflexivity].
Qed.

Lemma preserves_draw : preserves (acts P Qc) draw.
Proof.
  intros s. split; [| repeat split].
  intros k c H. exists c. split; [exact H |]. split; [apply qc_refl | reflexivity].
Qed.

Lemma preserves_upd_world f :
  (forall w, ai_characters (f w) = ai_characters w /\ npcs (f w) = npcs w /\
             time (f w) = time w) ->
  preserves (acts P Qc) (upd_world f).
Proof.
  intros Hf s. destruct (Hf (world s)) as (Ha & Hn & Ht).
  split; [| repeat split; assumption].
  intros k c H. exists c. split; [exact H |]. split; [apply qc_refl | reflexivity].
Qed.

Lemma preserves_upd_char r f :
  P r -> (forall c, Qc c (f c)) -> preserves (acts P Qc) (upd_char r f).
Proof.
  intros Hr Hf s. unfold upd_char.
  destruct (heap s !! r) as [c0 |] eqn:E; cbn [final_state]; [| apply acts_refl].
  split; [| repeat split; cbn [heap set_heap]; apply length_insert].
  intros k c Hk. cbn [heap set_heap].
  destruct (decide (k = r)) as [-> | Hne].
  - exists (f c0). rewrite list_lookup_insert_eq by (eapply lookup_lt_Some; eauto).
    split; [reflexivity |]. rewrite Hk in E. injection E as ->.
    split; [apply Hf | intros Hn; contradiction].
  - exists c. rewrite list_lookup_insert_ne by congruence.
    split; [exact Hk |]. split; [apply qc_refl | reflexivity].
Qed.
End Acts.

Lemma preserves_ok {A} R (m : M A) s a s' : preserves R m -> m s = Ok a s' -> R s s'.
Proof. intros H E. specialize (H s). rewrite E in H. exact H. Qed.

Ltac solve_qc :=
  intros;
  solve [ apply qc_rest; exact _
        | apply qc_tire; exact _
        | apply qc_rest
        | apply qc_tire
        | apply qc_same; try exact _; reflexivity ].

Ltac pres_known := fail.

Ltac pres :=
  repeat first
    [ progress intros
    | match goal with
      | |- CharRel _ => exact _
      | |- EnergyRel _ => exact _
      end
    | pres_known
    | apply preserves_ret
    | apply preserves_raise
    | apply preserves_bind
    | apply preserves_when
    | apply preserves_get_char
    | apply preserves_get_world
    | apply preserves_get_manager
    | apply preserves_now
    | apply preserves_draw
    | apply preserves_upd_world; first [exact _ | intros; repeat split; reflexivity]
    | apply preserves_upd_char; first [assumption | exact _ | reflexivity | solve_qc]
    | match goal with
      | |- preserves _ (if ?b then _ else _) => destruct b
      | |- preserves _ (match ?x with _ => _ end) => destruct x
      end ].

Section ActsOf.
Context (P : nat -> Prop) (Qc : Character -> Character -> Prop) `{!CharRel Qc}.

Lemma preserves_randint a b : preserves (acts P Qc) (randint a b).
Proof. unfold randint. pres. Qed.

Lemma preserves_choice {A} (l : list A) : preserves (acts P Qc) (choice l).
Proof. unfold choice. pres. Qed.

Lemma preserves_random : preserves (acts P Qc) random.
Proof. unfold random. pres. Qed.

Lemma preserves_uniform a b : preserves (acts P Qc) (uniform a b).
Proof. unfold uniform. pres. Qed.

Lemma preserves_log_event a b c d : preserves (acts P Qc) (log_event a b c d).
Proof. unfold log_event. pres. Qed.

Lemma preserves_location_name w key : preserves (acts P Qc) (location_name w key).
Proof. unfold location_name. pres. Qed.

Lemma preserves_occupants_at w key : preserves (acts P Qc) (occupants_at w key).
Proof. unfold occupants_at. pres. Qed.
End ActsOf.

Ltac pres_known ::=
  first [ apply preserves_randint | apply preserves_choice | apply preserves_random
        | apply preserves_uniform | apply preserves_log_event
        | apply preserves_location_name | apply preserves_occupants_at ].

Section ActsOfCharacters.
Context (P : nat -> Prop) (Qc : Character -> Character -> Prop) `{!CharRel Qc}.
Variable self : nat.
Hypothesis acting : P self.

Lemma preserves_move_character key : preserves (acts P Qc) (move_character self key).
Proof. unfold move_character. pres. Qed.

Lemma preserves_add_memory memory importance :
  preserves (acts P Qc) (add_memory self memory importance).
Proof. unfold add_memory. pres. Qed.

Lemma preserves_add_relationship n t v :
  preserves (acts P Qc) (add_relationship self n t v).
Proof. unfold add_relationship. pres. Qed.

Lemma preserves_set_activity activity : preserves (acts P Qc) (set_activity self activity).
Proof. unfold set_activity. pres. Qed.

Lemma preserves_update_mood mood : preserves (acts P Qc) (update_mood self mood).
Proof. unfold update_mood. pres. Qed.

Lemma preserves_choose_action l : preserves (acts P Qc) (choose_action self l).
Proof. unfold choose_action. pres. Qed.

Lemma preserves_follow_items items h : preserves (acts P Qc) (follow_items self items h).
Proof.
  induction items as [| entry rest IH]; cbn [follow_items]; [pres |].
  destruct (Z_of_string (before_colon (r_time entry))); [| pres].
  destruct (_ =? h); [| exact IH].
  pres; first [apply preserves_move_character | apply preserves_set_activity];
    first [assumption | exact _ | reflexivity].
Qed.

Lemma preserves_follow_routine h : preserves (acts P Qc) (follow_routine self h).
Proof. unfold follow_routine. pres; apply preserves_follow_items. Qed.
End ActsOfCharacters.

Ltac pres_known ::=
  first [ apply preserves_randint | apply preserves_choice | apply preserves_random
        | apply preserves_uniform | apply preserves_log_event
        | apply preserves_location_name | apply preserves_occupants_at
        | apply preserves_move_character; first [assumption | exact _ | reflexivity]
        | apply preserves_add_memory; first [assumption | exact _ | reflexivity]
        | apply preserves_add_relationship; first [assumption | exact _ | reflexivity]
        | apply preserves_set_activity; first [assumption | exact _ | reflexivity]
        | apply preserves_choose_action; first [assumption | exact _ | reflexivity]
        | apply preserves_follow_routine; first [assumption | exact _ | reflexivity] ].

Section ActsOfActions.
Context (P : nat -> Prop) (Qc : Character -> Character -> Prop)
  `{!CharRel Qc} `{!EnergyRel Qc}.
Variable self : nat.
Hypothesis acting : P self.

Lemma preserves_Base_execute_action action :
  preserves (acts P Qc) (Base_execute_action self action).
Proof. unfold Base_execute_action. pres. Qed.

Lemma preserves_Researcher_execute_action action :
  preserves (acts P Qc) (Researcher_execute_action self action).
Proof.
  unfold Researcher_execute_action.
  apply preserves_bind; [exact _ | apply preserves_Base_execute_action | pres].
Qed.

Lemma preserves_Surgeon_execute_action action :
  preserves (acts P Qc) (Surgeon_execute_action self action).
Proof.
  unfold Surgeon_execute_action.
  apply preserves_bind; [exact _ | apply preserves_Base_execute_action | pres].
Qed.

Lemma preserves_NPC_execute_action action :
  preserves (acts P Qc) (NPC_execute_action self action).
Proof.
  unfold NPC_execute_action.
  apply preserves_bind; [exact _ | apply preserves_Base_execute_action | pres].
Qed.

Lemma preserves_execute_action action :
  preserves (acts P Qc) (execute_action self action).
Proof.
  unfold execute_action. apply preserves_bind; [exact _ | pres |].
  intros c. destruct (klass c);
    [ apply preserves_Base_execute_action | apply preserves_NPC_execute_action
    | apply preserves_Researcher_execute_action | apply preserves_Surgeon_execute_action ].
Qed.

Lemma preserves_take_action : preserves (acts P Qc) (take_action self).
Proof.
  unfold take_action. apply preserves_bind; [exact _ | pres |].
  intros c. destruct (get_possible_actions c); [pres |].
  apply preserves_bind; [exact _ | pres |].
  intros a. apply preserves_execute_action.
Qed.
End ActsOfActions.

(** ** BaseCharacter: energy (C10) *)

Lemma upd_char_ok r f s s' :
  upd_char r f s = Ok tt s' ->
  exists c, heap s !! r = Some c /\ heap s' !! r = Some (f c).
Proof.
  unfold upd_char. destruct (heap s !! r) as [c |] eqn:E; [| discriminate].
  intros [= <-]. exists c. split; [reflexivity |].
  cbn [heap set_heap]. apply list_lookup_insert_eq. eapply lookup_lt_Some; eauto.
Qed.

Lemma acts_same_energy s s' self c :
  acts (fun k => k = self) same_energy s s' ->
  heap s !! self = Some c ->
  exists c', heap s' !! self = Some c' /\ energy c' = energy c.
Proof.
  intros (H & _) Hc. destruct (H _ _ Hc) as (c' & Hc' & Hq & _). eauto.
Qed.

Lemma Base_execute_action_energy self action s s' c :
  heap s !! self = Some c ->
  Base_execute_action self action s = Ok tt s' ->
  exists c', heap s' !! self = Some c' /\ energy c' = energy_after action (energy c).
Proof.
  intros Hc Hrun. unfold Base_execute_action in Hrun.
  apply bind_ok in Hrun. destruct Hrun as (u1 & s1 & H1 & Hrun).
  apply bind_ok in Hrun. destruct Hrun as (u2 & s2 & H2 & H3).
  eapply preserves_ok in H1; [| apply (preserves_set_activity (fun k => k = self) same_energy);
                                 reflexivity].
  destruct (acts_same_energy _ _ _ _ H1 Hc) as (c1 & Hc1 & E1).
  assert (Hc2 : exists c2, heap s2 !! self = Some c2 /\
                  energy c2 = if String.eqb action "rest"
                              then Z.min 100 (energy c + 20) else energy c).
  { destruct (String.eqb action "rest") eqn:Erest.
    - apply bind_ok in H2. destruct H2 as ([] & s1' & Hu & Hm).
      apply upd_char_ok in Hu. destruct Hu as (c0 & Hc0 & Hc0').
      rewrite Hc1 in Hc0. injection Hc0 as <-.
      eapply preserves_ok in Hm;
        [| apply (preserves_add_memory (fun k => k = self) same_energy); reflexivity].
      destruct (acts_same_energy _ _ _ _ Hm Hc0') as (c2 & Hc2 & E2).
      exists c2. split; [exact Hc2 |]. rewrite E2. cbn [energy set_energy]. congruence.
    - assert (Hp : acts (fun k => k = self) same_energy s1 s2).
      { eapply preserves_ok; [| exact H2]. pres. }
      destruct (acts_same_energy _ _ _ _ Hp Hc1) as (c2 & Hc2 & E2).
      exists c2. split; [exact Hc2 | congruence]. }
  destruct Hc2 as (c2 & Hc2 & E2).
  apply upd_char_ok in H3. destruct H3 as (c3 & Hc3 & Hc').
  rewrite Hc2 in Hc3. injection Hc3 as <-.
  eexists. split; [exact Hc' |].
  cbn [energy set_energy]. unfold energy_after. rewrite E2. reflexivity.
Qed.

Lemma own_effects_energy self (m : M unit) s1 s' c1 :
  preserves (acts (fun k => k = self) same_energy) m ->
  heap s1 !! self = Some c1 ->
  m s1 = Ok tt s' ->
  exists c', heap s' !! self = Some c' /\ energy c' = energy c1.
Proof.
  intros Hp Hc Hrun. eapply acts_same_energy; [| exact Hc].
  eapply preserves_ok; eauto.
Qed.

(** C10. From an energy in [0, 100], after any sequence of executed
    actions, whatever each call's outcome, the energy is in [0, 100]; and
    an action that returns leaves [max 0 (e' - 5)], where [e'] is
    [min 100 (e + 20)] for [rest] and [e] otherwise. *)
Theorem energy_stays_in_range (s : State) (self : nat) (c : Character)
    (actions : list string) :
  heap s !! self = Some c ->
  0 <= energy c <= 100 ->
  (exists c',
     heap (final_state (for_each actions (execute_action self) s)) !! self = Some c' /\
     0 <= energy c' <= 100) /\
  (forall action s',
     execute_action self action s = Ok tt s' ->
     exists c', heap s' !! self = Some c' /\
                energy c' = energy_after action (energy c)).
Proof.
  intros Hc He. split.
  - assert (Hp : preserves (acts (fun k => k = self) keeps_energy_ok)
                   (for_each actions (execute_action self))).
    { apply preserves_for_each; [exact _ |]. intros action _.
      apply preserves_execute_action; first [exact _ | reflexivity]. }
    destruct (Hp s) as (H & _). destruct (H _ _ Hc) as (c' & Hc' & Hq & _).
    exists c'. split; [exact Hc' | apply Hq, He].
  - intros action s' Hrun. unfold execute_action in Hrun.
    apply bind_ok in Hrun. destruct Hrun as (c0 & s0 & H0 & Hrun).
    unfold get_char in H0. rewrite Hc in H0. injection H0 as <- <-.
    destruct (klass c).
    + apply (Base_execute_action_energy _ _ _ _ _ Hc Hrun).
    + unfold NPC_execute_action in Hrun.
      apply bind_ok in Hrun. destruct Hrun as ([] & s1 & H1 & H2).
      destruct (Base_execute_action_energy _ _ _ _ _ Hc H1) as (c1 & Hc1 & E1).
      edestruct (own_effects_energy self) as (c' & Hc' & E');
        [| exact Hc1 | exact H2 |]; [pres |].
      exists c'. split; [exact Hc' | congruence].
    + unfold Researcher_execute_action in Hrun.
      apply bind_ok in Hrun. destruct Hrun as ([] & s1 & H1 & H2).
      destruct (Base_execute_action_energy _ _ _ _ _ Hc H1) as (c1 & Hc1 & E1).
      edestruct (own_effects_energy self) as (c' & Hc' & E');
        [| exact Hc1 | exact H2 |]; [pres |].
      exists c'. split; [exact Hc' | congruence].
    + unfold Surgeon_execute_action in Hrun.
      apply bind_ok in Hrun. destruct Hrun as ([] & s1 & H1 & H2).
      destruct (Base_execute_action_energy _ _ _ _ _ Hc H1) as (c1 & Hc1 & E1).
      edestruct (own_effects_energy self) as (c' & Hc' & E');
        [| exact Hc1 | exact H2 |]; [pres |].
      exists c'. split; [exact Hc' | congruence].
Qed.

(** The tired surgeon works, rests and works again: 3, then 0, 15 and 10. *)
Lemma energy_stays_in_range_witness :
  energy (character_at tired_state 0) = 3 /\
  (exists c',
     heap (final_state
             (for_each ["perform_surgery"; "rest"; "examine_patients"]
                (execute_action 0) tired_state)) !! 0%nat = Some c' /\
     0 <= energy c' <= 100) /\
  energy_after "perform_surgery" 3 = 0 /\
  energy_after "rest" 0 = 15 /\
  energy_after "examine_patients" 15 = 10.
Proof.
  split; [vm_compute; reflexivity |]. split.
  - apply (proj1 (energy_stays_in_range tired_state 0 (character_at tired_state 0)
                    ["perform_surgery"; "rest"; "examine_patients"]
                    ltac:(vm_compute; reflexivity)
                    ltac:(vm_compute; split; discriminate))).
  - vm_compute. auto.
Defined.

(** ** One step of the simulation (C3) *)

Lemma returns_ok {A} (m : M A) s (Post : A -> State -> Prop) a s' :
  returns m s Post -> m s = Ok a s' -> Post a s'.
Proof. intros (a0 & s0 & E & H) E'. rewrite E in E'. injection E' as <- <-. exact H. Qed.

Lemma swap_middle {A} (x y : A) (l1 l2 : list A) :
  Permutation (x :: (l1 ++ y :: l2)) ((l1 ++ x :: l2) ++ [y]).
Proof.
  transitivity (y :: (l1 ++ x :: l2)); [| apply Permutation_cons_append].
  transitivity (x :: y :: (l1 ++ l2)).
  - apply perm_skip. symmetry. apply Permutation_middle.
  - transitivity (y :: x :: (l1 ++ l2)); [apply perm_swap |].
    apply perm_skip. apply Permutation_middle.
Qed.

(** Drawing one element and refilling its slot with the last live one
    takes that element out of the live part of the pool. *)
Lemma pool_draw {A} (pool : list A) (n j : nat) (x y : A) :
  (j < n)%nat -> pool !! j = Some x -> pool !! (n - 1)%nat = Some y ->
  Permutation (x :: take (n - 1) (<[j := y]> pool)) (take n pool).
Proof.
  intros Hj Hx Hy.
  replace n with (S (n - 1)) at 2 by lia.
  rewrite (take_S_r _ _ _ Hy).
  destruct (decide (j = n - 1)%nat) as [-> | Hne].
  - rewrite Hx in Hy. injection Hy as ->.
    rewrite list_insert_id by exact Hx.
    apply Permutation_cons_append.
  - assert (Hlt : (j < n - 1)%nat) by lia.
    rewrite take_insert_lt by exact Hlt.
    assert (Hxa : take (n - 1) pool !! j = Some x).
    { rewrite lookup_take_lt by exact Hlt. exact Hx. }
    rewrite <- (take_drop_middle _ _ _ Hxa) at 2.
    rewrite insert_take_drop by (eapply lookup_lt_Some; eauto).
    apply swap_middle.
Qed.

Lemma sample_from_ok {A} (k n : nat) (pool : list A) s :
  (k <= n)%nat -> (n <= length pool)%nat ->
  returns (sample_from k n pool) s
    (fun g s' => same_objects s s' /\ length g = k /\
                 exists rest, Permutation (g ++ rest) (take n pool)).
Proof.
  revert n pool s. induction k as [| k IH]; intros n pool s Hk Hn; cbn [sample_from].
  - apply returns_ret. split; [apply same_objects_refl |]. split; [reflexivity |].
    exists (take n pool). reflexivity.
  - apply returns_bind, returns_draw.
    set (j := Z.to_nat (tape s (cursor s) mod Z.of_nat n)).
    assert (Hj : (j < n)%nat).
    { unfold j. pose proof (Z.mod_pos_bound (tape s (cursor s)) (Z.of_nat n)). lia. }
    destruct (lookup_lt_is_Some_2 pool j) as [x Hx]; [lia |].
    destruct (lookup_lt_is_Some_2 pool (n - 1)) as [y Hy]; [lia |].
    rewrite Hx, Hy.
    apply returns_bind.
    eapply returns_weaken; [apply (IH (n - 1)%nat); [lia | rewrite length_insert; lia] |].
    intros g s' (Hsame & Hlen & rest & Hperm). apply returns_ret.
    split; [| split].
    + eapply same_objects_trans; [| exact Hsame]. repeat split.
    + cbn [length]. rewrite Hlen. reflexivity.
    + exists rest. cbn [app]. rewrite <- (pool_draw pool n j x y Hj Hx Hy).
      apply perm_skip, Hperm.
Qed.

Lemma sample_ok {A} (population : list A) (k : Z) s :
  0 <= k <= Z.of_nat (length population) ->
  returns (sample population k) s
    (fun g s' => same_objects s s' /\ length g = Z.to_nat k /\
                 exists rest, Permutation (g ++ rest) population).
Proof.
  intros Hk. unfold sample.
  destruct ((k <? 0) || (Z.of_nat (length population) <? k)) eqn:E.
  - apply orb_true_iff in E. destruct E as [E | E]; [apply Z.ltb_lt in E | apply Z.ltb_lt in E]; lia.
  - eapply returns_weaken; [apply sample_from_ok; lia |].
    intros g s' (Hs & Hl & rest & Hp). split; [exact Hs |]. split; [exact Hl |].
    exists rest. rewrite Hp, firstn_all. reflexivity.
Qed.

Section ActsOfSteps.
Context (P : nat -> Prop) (Qc : Character -> Character -> Prop) `{!CharRel Qc}.

Lemma preserves_sample_from {A} k n (pool : list A) :
  preserves (acts P Qc) (sample_from k n pool).
Proof.
  revert n pool. induction k as [| k IH]; intros n pool; cbn [sample_from]; [pres |].
  apply preserves_bind; [exact _ | pres |]. intros d.
  destruct (pool !! _); [| pres]. destruct (pool !! _); [| pres].
  apply preserves_bind; [exact _ | apply IH | pres].
Qed.

Lemma preserves_sample {A} (population : list A) k :
  preserves (acts P Qc) (sample population k).
Proof. unfold sample. destruct (_ || _); [pres | apply preserves_sample_from]. Qed.

Lemma preserves_get_random_npcs k : preserves (acts P Qc) (get_random_npcs k).
Proof. unfold get_random_npcs. pres; apply preserves_sample. Qed.
End ActsOfSteps.

Lemma acts_weaken (P P' : nat -> Prop) Qc s s' :
  (forall k, P k -> P' k) -> acts P Qc s s' -> acts P' Qc s s'.
Proof.
  intros Himp (H & Hrest). split; [| exact Hrest].
  intros k c Hk. destruct (H k c Hk) as (c' & Hc' & Hq & Hf).
  exists c'. split; [exact Hc' |]. split; [exact Hq |]. intros Hn. apply Hf. auto.
Qed.

Lemma acts_lookup P Qc s s' k :
  acts P Qc s s' -> ~ P k -> heap s' !! k = heap s !! k.
Proof.
  intros (H & Hlen & _) Hn. destruct (heap s !! k) as [c |] eqn:E.
  - destruct (H k c E) as (c' & Hc' & _ & Hf). rewrite Hc'. f_equal. apply Hf, Hn.
  - apply lookup_ge_None in E. apply lookup_ge_None. lia.
Qed.

(** [take_action] for each character of a list acts for that list. *)
Lemma acts_take_actions (l : list nat) s :
  acts (fun k => k ∈ l) any_change s (final_state (for_each l take_action s)).
Proof.
  apply (preserves_for_each (fun k => k ∈ l) any_change).
  intros x Hx. apply preserves_take_action; first [exact _ | exact Hx].
Qed.

Lemma update_time_ok hours s :
  exists s1,
    update_time hours s = Ok tt s1 /\
    heap s1 = heap s /\ manager s1 = manager s /\
    time (world s1) = time (world s) + 3600 * hours /\
    ai_characters (world s1) = ai_characters (world s) /\
    npcs (world s1) = npcs (world s) /\
    locations (world s1) = locations (world s) /\
    exists e, world_events (world s1) = world_events (world s) ++ [e] /\
              event_type e = "time_update".
Proof.
  eexists. split; [reflexivity |]. unfold_state.
  repeat (split; [reflexivity |]). eexists. split; reflexivity.
Qed.

Lemma simulate_step_acts s :
  exists s1,
    update_time 1 s = Ok tt s1 /\
    acts (fun k => k ∈ ai_characters (world s) ++ firstn 10 (npcs (world s))) any_change
      s1 (final_state (simulate_step s)).
Proof.
  destruct (update_time_ok 1 s) as (s1 & Hu & Hheap & Hmgr & Htime & Hai & Hnpcs & _).
  exists s1. split; [exact Hu |].
  unfold simulate_step, bind. rewrite Hu. unfold get_world at 1.
  pose proof (acts_take_actions (ai_characters (world s1)) s1) as H2.
  destruct (for_each (ai_characters (world s1)) take_action s1) as [[] s2 | e s2 | s2];
    cbn [final_state] in *;
    try (eapply acts_weaken; [| exact H2]; intros k Hk; rewrite <- Hai;
         apply elem_of_app; auto).
  unfold get_world.
  pose proof (acts_take_actions (firstn 10 (npcs (world s2))) s2) as H3.
  eapply acts_trans; [exact _ | |].
  - eapply acts_weaken; [| exact H2]. intros k Hk. rewrite <- Hai.
    apply elem_of_app. auto.
  - eapply acts_weaken; [| exact H3]. intros k Hk.
    destruct H2 as (_ & _ & _ & Hn & _). rewrite Hn, Hnpcs in Hk.
    apply elem_of_app. auto.
Qed.

Lemma interactions_acts s :
  acts (fun k => k ∈ sampled s) any_change s
    (final_state (simulate_npc_interactions default_active_npcs s)).
Proof.
  unfold simulate_npc_interactions, bind at 1. unfold get_manager at 1.
  unfold bind at 1.
  pose proof (preserves_sample (fun k => k ∈ sampled s) any_change
                (mgr_npcs (manager s))
                (Z.min default_active_npcs (Z.of_nat (length (mgr_npcs (manager s))))) s)
    as Hs.
  unfold sampled in *.
  destruct (sample (mgr_npcs (manager s)) _ s) as [group s1 | e s1 | s1];
    cbn [final_state] in *; [| exact Hs | exact Hs].
  eapply acts_trans; [exact _ | exact Hs |].
  assert (Hp : preserves (acts (fun k => k ∈ group) any_change)
                 (for_each group (fun npc =>
                    r <- random ;;
                    if Qlt_le_dec r float_0_3 then take_action npc else ret tt) >>>
                  w <- get_world ;;
                  for_each group (fun npc =>
                    r <- random ;;
                    if Qlt_le_dec r float_0_7
                    then follow_routine npc (hour (time w)) else ret tt))).
  { apply preserves_bind; [exact _ | |].
    - apply preserves_for_each; [exact _ |]. intros x Hx.
      apply preserves_bind; [exact _ | pres |]. intros r.
      destruct (Qlt_le_dec r float_0_3); [| pres].
      apply preserves_take_action; first [exact _ | exact Hx].
    - intros _. apply preserves_bind; [exact _ | pres |]. intros w.
      apply preserves_for_each; [exact _ |]. intros x Hx.
      apply preserves_bind; [exact _ | pres |]. intros r.
      destruct (Qlt_le_dec r float_0_7); [| pres].
      apply preserves_follow_routine; first [exact _ | exact Hx]. }
  apply Hp.
Qed.



(** ** NPCManager: the name loop (C8) *)

Lemma advance_0 s : advance 0 s = s.
Proof. destruct s. reflexivity. Qed.

Lemma advance_advance a b s : advance a (advance b s) = advance (a + b) s.
Proof. destruct s. unfold advance, set_cursor. cbn. f_equal. lia. Qed.

Lemma nth_name_advance s j : nth_name (advance 2 s) j = nth_name s (S j).
Proof.
  unfold nth_name, advance, set_cursor. cbn [tape cursor manager].
  replace (2 + cursor s + 2 * j)%nat with (cursor s + 2 * S j)%nat by lia.
  replace (2 + cursor s + (2 * j + 1))%nat with (cursor s + (2 * S j + 1))%nat by lia.
  reflexivity.
Qed.

Lemma generate_random_name_ok s :
  first_names (manager s) <> [] -> last_names (manager s) <> [] ->
  generate_random_name s = Ok (nth_name s 0) (advance 2 s).
Proof.
  intros Hf Hl. unfold generate_random_name, bind, get_manager.
  destruct (first_names (manager s)) as [| f fs] eqn:Ef; [congruence |].
  destruct (last_names (manager s)) as [| l ls] eqn:El; [congruence |].
  unfold choice, bind, draw, ret. unfold_state.
  unfold nth_name. rewrite Ef, El.
  replace (cursor s + 2 * 0)%nat with (cursor s) by lia.
  replace (cursor s + (2 * 0 + 1))%nat with (S (cursor s)) by lia.
  rewrite (nth_indep (f :: fs) f "").
  2: { pose proof (Z.mod_pos_bound (tape s (cursor s)) (Z.of_nat (length (f :: fs)))).
       cbn [length] in *. lia. }
  rewrite (nth_indep (l :: ls) l "").
  2: { pose proof (Z.mod_pos_bound (tape s (S (cursor s))) (Z.of_nat (length (l :: ls)))).
       cbn [length] in *. lia. }
  destruct s. reflexivity.
Qed.

(** As long as the draws collide the loop keeps drawing. *)
Lemma redraw_name_collisions fuel s used name :
  first_names (manager s) <> [] -> last_names (manager s) <> [] ->
  str_in name used = true ->
  (forall j, (j < fuel)%nat -> str_in (nth_name s j) used = true) ->
  redraw_name fuel used name s = Timeout (advance (2 * fuel) s).
Proof.
  revert s name. induction fuel as [| fuel IH]; intros s name Hf Hl Hin Hall;
    cbn [redraw_name]; rewrite Hin.
  - rewrite advance_0. reflexivity.
  - unfold bind. rewrite generate_random_name_ok by assumption.
    rewrite IH.
    + rewrite advance_advance. f_equal. f_equal. lia.
    + exact Hf.
    + exact Hl.
    + apply (Hall 0%nat). lia.
    + intros j Hj. rewrite nth_name_advance. apply Hall. lia.
Qed.

(** The loop returns at the first draw that is not in use. *)
Lemma redraw_name_fresh fuel s used name k :
  first_names (manager s) <> [] -> last_names (manager s) <> [] ->
  str_in name used = true ->
  (forall j, (j < k)%nat -> str_in (nth_name s j) used = true) ->
  str_in (nth_name s k) used = false ->
  (k < fuel)%nat ->
  redraw_name fuel used name s = Ok (nth_name s k) (advance (2 * (k + 1)) s).
Proof.
  revert s name k. induction fuel as [| fuel IH]; intros s name k Hf Hl Hin Hall Hk Hlt;
    [lia |].
  cbn [redraw_name]. rewrite Hin.
  unfold bind. rewrite generate_random_name_ok by assumption.
  destruct k as [| k].
  - destruct fuel; cbn [redraw_name]; rewrite Hk; reflexivity.
  - rewrite (IH _ _ k).
    + rewrite nth_name_advance, advance_advance. f_equal. f_equal. lia.
    + exact Hf.
    + exact Hl.
    + apply (Hall 0%nat). lia.
    + intros j Hj. rewrite nth_name_advance. apply Hall. lia.
    + rewrite nth_name_advance. exact Hk.
    + lia.
Qed.

(** C8, as the code has it. The name loop has no bound and no error: a
    name that is not in use is kept without a draw; otherwise the loop
    returns the first drawn name that is not in use, after as many draws
    as it took, and is still drawing after any number of colliding draws.
    Draws move only the cursor of the random source, so the characters
    created so far and the registry are untouched. *)
Theorem redraw_name_unbounded (s : State) (used : list string) (name : string) :
  first_names (manager s) <> [] -> last_names (manager s) <> [] ->
  (str_in name used = false -> forall fuel, redraw_name fuel used name s = Ok name s) /\
  (str_in name used = true ->
   forall k,
     (forall j, (j < k)%nat -> str_in (nth_name s j) used = true) ->
     (forall fuel, (fuel <= k)%nat ->
        redraw_name fuel used name s = Timeout (advance (2 * fuel) s)) /\
     (str_in (nth_name s k) used = false ->
      forall fuel, (k < fuel)%nat ->
        redraw_name fuel used name s = Ok (nth_name s k) (advance (2 * (k + 1)) s))).
Proof.
  intros Hf Hl. split.
  - intros Hin fuel. destruct fuel; cbn [redraw_name]; rewrite Hin; reflexivity.
  - intros Hin k Hall. split.
    + intros fuel Hle. apply redraw_name_collisions; try assumption.
      intros j Hj. apply Hall. lia.
    + intros Hk fuel Hlt. apply redraw_name_fresh; assumption.
Qed.

(** On the varied tape the first draw is taken and the second is free:
    one redraw is not enough, two are. *)
Lemma redraw_name_unbounded_witness :
  let taken := nth_name manager_state 0 in
  redraw_name 1 [taken] taken manager_state = Timeout (advance 2 manager_state) /\
  redraw_name 2 [taken] taken manager_state
  = Ok (nth_name manager_state 1) (advance 4 manager_state).
Proof.
  intros taken.
  assert (Hf : first_names (manager manager_state) <> []) by (vm_compute; discriminate).
  assert (Hl : last_names (manager manager_state) <> []) by (vm_compute; discriminate).
  destruct (proj2 (redraw_name_unbounded manager_state [taken] taken Hf Hl)
              ltac:(vm_compute; reflexivity) 1%nat) as [Hstill Hdone].
  { intros j Hj. replace j with 0%nat by lia. vm_compute. reflexivity. }
  split.
  - apply (Hstill 1%nat). lia.
  - apply (Hdone ltac:(vm_compute; reflexivity) 2%nat). lia.
Defined.

(** C8, as the specification words it, fails: when every draw yields a
    name in use no number of redraws ends the loop, and no error is
    raised. *)
Lemma name_loop_has_no_bound :
  ~ (exists bound,
       is_timeout (redraw_name bound ["Alex Rivers"] "Alex Rivers" stuck_state) = false).
Proof.
  intros [bound H].
  rewrite redraw_name_collisions in H.
  - discriminate.
  - vm_compute. discriminate.
  - vm_compute. discriminate.
  - reflexivity.
  - intros j _. vm_compute. reflexivity.
Qed.

(** ** NPCManager: the population (C7) *)

Lemma safe_ret {A} (a : A) s (Post : A -> State -> Prop) : Post a s -> safe (ret a) s Post.
Proof. intros H. exact H. Qed.

Lemma safe_bind {A B} (m : M A) (k : A -> M B) s (Post : B -> State -> Prop) :
  safe m s (fun a s' => safe (k a) s' Post) -> safe (bind m k) s Post.
Proof. unfold safe, bind. destruct (m s); auto. Qed.

Lemma returns_safe {A} (m : M A) s (Post : A -> State -> Prop) :
  returns m s Post -> safe m s Post.
Proof. intros (a & s' & E & H). unfold safe. rewrite E. exact H. Qed.

Lemma safe_weaken {A} (m : M A) s (P Q : A -> State -> Prop) :
  safe m s P -> (forall a s', P a s' -> Q a s') -> safe m s Q.
Proof. unfold safe. destruct (m s); auto. Qed.

(** The primitives, with the state reached described by its parts. *)
Lemma same_objects_cursor s n : same_objects s (set_cursor n s).
Proof. repeat split. Qed.

Lemma same_objects_wall s n : same_objects s (set_wall n s).
Proof. repeat split. Qed.

Lemma returns_randint_so a b s (Post : Z -> State -> Prop) :
  a <= b ->
  (forall v s', a <= v <= b -> same_objects s s' -> Post v s') ->
  returns (randint a b) s Post.
Proof.
  intros Hab H. apply returns_randint; [exact Hab |].
  intros v Hv. apply H; [exact Hv | apply same_objects_cursor].
Qed.

Lemma returns_choice_so {A} (l : list A) s (Post : A -> State -> Prop) :
  l <> [] ->
  (forall x s', x ∈ l -> same_objects s s' -> Post x s') ->
  returns (choice l) s Post.
Proof.
  intros Hl H. apply returns_choice; [exact Hl |].
  intros x Hx. apply H; [exact Hx | apply same_objects_cursor].
Qed.

Lemma returns_random_so s (Post : Q -> State -> Prop) :
  (forall r s', same_objects s s' -> Post r s') -> returns random s Post.
Proof. intros H. apply returns_random, H, same_objects_cursor. Qed.

Lemma returns_now_so s (Post : Z -> State -> Prop) :
  (forall t s', same_objects s s' -> Post t s') -> returns now s Post.
Proof. intros H. apply returns_now, H, same_objects_wall. Qed.

Lemma returns_get_char r c s (Post : Character -> State -> Prop) :
  heap s !! r = Some c -> Post c s -> returns (get_char r) s Post.
Proof.
  intros Hc H. exists c, s. split; [| exact H]. unfold get_char. rewrite Hc. reflexivity.
Qed.

Lemma returns_upd_char r f c s (Post : unit -> State -> Prop) :
  heap s !! r = Some c ->
  (forall s', heap s' = <[r := f c]> (heap s) -> world s' = world s ->
              manager s' = manager s -> tape s' = tape s -> Post tt s') ->
  returns (upd_char r f) s Post.
Proof.
  intros Hc H. eexists tt, _. split; [unfold upd_char; rewrite Hc; reflexivity |].
  apply H; reflexivity.
Qed.

Lemma returns_alloc c s (Post : nat -> State -> Prop) :
  (forall s', heap s' = heap s ++ [c] -> world s' = world s ->
              manager s' = manager s -> tape s' = tape s ->
              Post (length (heap s)) s') ->
  returns (alloc c) s Post.
Proof. intros H. eexists _, _. split; [reflexivity |]. apply H; reflexivity. Qed.

Lemma returns_get_manager s (Post : NPCManager -> State -> Prop) :
  Post (manager s) s -> returns get_manager s Post.
Proof. intros H. eexists _, _. split; [reflexivity | exact H]. Qed.

Lemma returns_upd_manager f s (Post : unit -> State -> Prop) :
  (forall s', heap s' = heap s -> world s' = world s ->
              manager s' = f (manager s) -> tape s' = tape s -> Post tt s') ->
  returns (upd_manager f) s Post.
Proof. intros H. eexists _, _. split; [reflexivity |]. apply H; reflexivity. Qed.

Lemma lookup_snoc {A} (l : list A) (x : A) : (l ++ [x]) !! length l = Some x.
Proof. rewrite lookup_app_r by lia. rewrite Nat.sub_diag. reflexivity. Qed.

Lemma insert_snoc {A} (l : list A) (x y : A) : <[length l := y]> (l ++ [x]) = l ++ [y].
Proof.
  rewrite insert_app_r_alt by lia. rewrite Nat.sub_diag. reflexivity.
Qed.

Lemma daily_routine_returns c s :
  returns (_generate_daily_routine c) s (fun _ s' => same_objects s s').
Proof.
  unfold _generate_daily_routine.
  apply returns_bind, returns_randint_so; [lia | intros work_hours s1 _ H1].
  apply returns_bind, returns_randint_so; [lia | intros start_time s2 _ H2].
  apply returns_bind, returns_random_so. intros r s3 H3.
  assert (H03 : same_objects s s3) by eauto using same_objects_trans.
  apply returns_bind. destruct (Qlt_le_dec float_0_7 r).
  - apply returns_bind, returns_choice_so; [discriminate | intros place s4 _ H4].
    apply returns_ret, returns_ret. eauto using same_objects_trans.
  - apply returns_ret, returns_ret. exact H03.
Qed.

Lemma work_schedule_returns c s :
  returns (_generate_work_schedule c) s (fun _ s' => same_objects s s').
Proof.
  unfold _generate_work_schedule.
  destruct (str_in (job c) _); [apply returns_ret, same_objects_refl |].
  destruct (str_in (job c) _); [apply returns_ret, same_objects_refl |].
  apply returns_bind, returns_choice_so; [discriminate | intros sat s1 _ H1].
  apply returns_bind, returns_choice_so; [discriminate | intros sun s2 _ H2].
  apply returns_ret. eauto using same_objects_trans.
Qed.

(** [NPC(name, job)] always returns: one townsperson with that name and
    job is created at the next free reference, at the town center, and
    nothing else changes. *)
Lemma NPC_init_ok name0 job0 s :
  returns (NPC_init name0 job0) s
    (fun self s' =>
       self = length (heap s) /\
       world s' = world s /\ manager s' = manager s /\ tape s' = tape s /\
       exists c, heap s' = heap s ++ [c] /\
                 name c = name0 /\ job c = job0 /\ klass c = KNPC /\
                 location c = "town_center" /\ energy c = 100 /\
                 memories c = [] /\
                 traits_in_range (personality c) /\ trait_sum (personality c) = 100 /\
                 18 <= age c <= 75).
Proof.
  unfold NPC_init.
  apply returns_bind.
  eapply returns_weaken; [apply generated_personality_returns |].
  intros p s1 (-> & Hr & Hsum & _).
  assert (H1 : same_objects s (advance 9 s)) by apply same_objects_cursor.
  apply returns_bind, returns_randint_so; [lia | intros age0 s2 Hage H2].
  unfold BaseCharacter_init.
  apply returns_bind, returns_bind, returns_now_so. intros t1 s3 H3.
  apply returns_bind, returns_now_so. intros t2 s4 H4.
  assert (H04 : same_objects s s4) by eauto using same_objects_trans.
  destruct H04 as (Hh4 & Hw4 & Hm4 & Ht4).
  apply returns_alloc. intros s5 Hh5 Hw5 Hm5 Ht5.
  rewrite Hh4 in *.
  set (c0 := mkCharacter KNPC name0 job0 age0 (_generate_background job0) p
               "town_center" "neutral" 100 "idle" [] [] t1 t2 [] [] [] [] 0 0 0 []) in *.
  eapply returns_bind, returns_get_char; [rewrite Hh5; apply lookup_snoc |].
  apply returns_bind.
  eapply returns_weaken; [apply daily_routine_returns |].
  intros routine s6 (Hh6 & Hw6 & Hm6 & Ht6).
  apply returns_bind.
  eapply returns_upd_char; [rewrite Hh6, Hh5; apply lookup_snoc |].
  intros s7 Hh7 Hw7 Hm7 Ht7. rewrite Hh6, Hh5, insert_snoc in Hh7.
  eapply returns_bind, returns_get_char; [rewrite Hh7; apply lookup_snoc |].
  apply returns_bind.
  eapply returns_upd_char; [rewrite Hh7; apply lookup_snoc |].
  intros s8 Hh8 Hw8 Hm8 Ht8. rewrite Hh7, insert_snoc in Hh8.
  eapply returns_bind, returns_get_char; [rewrite Hh8; apply lookup_snoc |].
  apply returns_bind.
  eapply returns_weaken; [apply work_schedule_returns |].
  intros schedule s9 (Hh9 & Hw9 & Hm9 & Ht9).
  apply returns_bind.
  eapply returns_upd_char; [rewrite Hh9, Hh8; apply lookup_snoc |].
  intros s10 Hh10 Hw10 Hm10 Ht10. rewrite Hh9, Hh8, insert_snoc in Hh10.
  apply returns_ret.
  split; [reflexivity |].
  split; [congruence |]. split; [congruence |]. split; [congruence |].
  eexists. split; [exact Hh10 |].
  cbn [name job klass location energy memories personality age set_npc_fields c0].
  repeat (split; [reflexivity |]). split; [exact Hr |]. split; [exact Hsum | exact Hage].
Qed.

Lemma swap_perm {A} (i j : nat) (l : list A) : Permutation (swap i j l) l.
Proof.
  unfold swap. destruct (l !! i) as [a |] eqn:Ei; [| reflexivity].
  destruct (l !! j) as [b |] eqn:Ej; [| reflexivity].
  apply Permutation_insert_swap; assumption.
Qed.

Lemma shuffle_from_ok {A} (i : nat) (l : list A) s :
  returns (shuffle_from i l) s (fun l' s' => Permutation l' l /\ same_objects s s').
Proof.
  revert l s. induction i as [| i IH]; intros l s; cbn [shuffle_from].
  - apply returns_ret. split; [reflexivity | apply same_objects_refl].
  - apply returns_bind, returns_draw.
    eapply returns_weaken; [apply IH |].
    intros l' s' (Hp & Hs). split.
    + rewrite Hp. apply swap_perm.
    + eapply same_objects_trans; [| exact Hs]. apply same_objects_cursor.
Qed.

Lemma dict_get_set {V} k k' (v : V) d :
  dict_get k (dict_set k' v d) = if String.eqb k k' then Some v else dict_get k d.
Proof.
  induction d as [| [k0 v0] d IH]; cbn [dict_set dict_get]; [reflexivity |].
  destruct (String.eqb k' k0) eqn:E0; cbn [dict_get].
  - apply String.eqb_eq in E0. subst k0.
    destruct (String.eqb k k'); reflexivity.
  - destruct (String.eqb k k0) eqn:E1.
    + apply String.eqb_eq in E1. subst k0. rewrite String.eqb_sym in E0. rewrite E0.
      reflexivity.
    + exact IH.
Qed.

Lemma str_in_cons x n l : str_in x (n :: l) = String.eqb x n || str_in x l.
Proof. reflexivity. Qed.

Lemma redraw_name_safe fuel used name0 s :
  first_names (manager s) <> [] -> last_names (manager s) <> [] ->
  safe (redraw_name fuel used name0) s
    (fun n s' => str_in n used = false /\ same_objects s s').
Proof.
  revert name0 s. induction fuel as [| fuel IH]; intros name0 s Hf Hl;
    unfold safe; cbn [redraw_name]; destruct (str_in name0 used) eqn:E;
    try (split; [exact E | apply same_objects_refl]); [exact I |].
  unfold bind. rewrite generate_random_name_ok by assumption.
  specialize (IH (nth_name s 0) (advance 2 s) Hf Hl). unfold safe in IH.
  destruct (redraw_name fuel used (nth_name s 0) (advance 2 s)); [| exact IH | exact I].
  destruct IH as [H1 H2]. split; [exact H1 |].
  eapply same_objects_trans; [apply same_objects_cursor | exact H2].
Qed.

Lemma set_npc_database_id m : set_npc_database (npc_database m) m = m.
Proof. destruct m. reflexivity. Qed.

Lemma create_each_safe fuel jobs created0 used0 s :
  first_names (manager s) <> [] -> last_names (manager s) <> [] ->
  safe (create_each fuel jobs created0 used0) s
    (fun created s' =>
       world s' = world s /\ tape s' = tape s /\
       exists cs db,
         heap s' = heap s ++ cs /\
         manager s' = set_npc_database db (manager s) /\
         created = created0 ++ seq (length (heap s)) (length jobs) /\
         map job cs = jobs /\
         Forall (fun c => klass c = KNPC) cs /\
         NoDup (map name cs) /\
         (forall n, n ∈ map name cs -> str_in n used0 = false) /\
         registered db cs (length (heap s)) /\
         (forall n r, dict_get n (npc_database (manager s)) = Some r ->
                      n ∉ map name cs -> dict_get n db = Some r)).
Proof.
  revert created0 used0 s.
  induction jobs as [| job0 jobs IH]; intros created0 used0 s Hf Hl; cbn [create_each].
  - apply safe_ret. split; [reflexivity |]. split; [reflexivity |].
    exists [], (npc_database (manager s)).
    rewrite !app_nil_r, set_npc_database_id. cbn [length seq map].
    repeat split; auto.
    + constructor.
    + intros n Hn. apply elem_of_nil in Hn. contradiction.
    + intros i c Hc. rewrite lookup_nil in Hc. discriminate.
  - apply safe_bind. unfold safe at 1.
    rewrite generate_random_name_ok by assumption.
    apply safe_bind.
    eapply safe_weaken; [apply redraw_name_safe; assumption |].
    intros n sb (Hfresh & Hhb & Hwb & Hmb & Htb). cbn [heap world manager tape advance
      set_cursor] in Hhb, Hwb, Hmb, Htb.
    apply safe_bind, returns_safe.
    eapply returns_weaken; [apply NPC_init_ok |].
    intros self sc (-> & Hwc & Hmc & Htc & c & Hhc & Hname & Hjob & Hklass & _).
    apply safe_bind, returns_safe, returns_upd_manager.
    intros sd Hhd Hwd Hmd Htd.
    assert (Hlen : length (heap sd) = S (length (heap s))).
    { rewrite Hhd, Hhc, Hhb, length_app. cbn. lia. }
    eapply safe_weaken.
    { apply IH; rewrite Hmd, Hmc, Hmb; assumption. }
    intros created s' (Hw' & Ht' & cs & db & Hh' & Hm' & Hcreated & Hjobs & Hk & Hnd
                       & Hused & Hreg & Hold).
    split; [congruence |]. split; [congruence |].
    exists (c :: cs), db.
    assert (Hn_new : n ∉ map name cs).
    { intros Hin. specialize (Hused n Hin). rewrite str_in_cons, String.eqb_refl in Hused.
      discriminate. }
    split; [rewrite Hh', Hhd, Hhc, Hhb, <- app_assoc; reflexivity |].
    split.
    { rewrite Hm', Hmd, Hmc, Hmb. destruct (manager s). reflexivity. }
    split.
    { rewrite Hcreated, Hlen, Hhb, <- app_assoc. reflexivity. }
    split; [cbn [map]; congruence |].
    split; [constructor; assumption |].
    split.
    { cbn [map]. rewrite Hname. apply NoDup_cons. split; assumption. }
    split.
    { intros x Hx. cbn [map] in Hx. rewrite Hname in Hx.
      apply elem_of_cons in Hx. destruct Hx as [-> | Hx]; [exact Hfresh |].
      specialize (Hused x Hx). rewrite str_in_cons in Hused.
      apply orb_false_iff in Hused. tauto. }
    split.
    { intros i c' Hi. destruct i as [| i]; cbn in Hi.
      - injection Hi as <-. rewrite Hname.
        rewrite (Hold n (length (heap s))); [f_equal; lia | | exact Hn_new].
        rewrite Hmd. cbn [npc_database set_npc_database].
        rewrite dict_get_set, String.eqb_refl, Hhb. reflexivity.
      - rewrite (Hreg i c' Hi). f_equal. lia. }
    intros x r Hx Hnot. cbn [map] in Hnot. rewrite Hname in Hnot.
    apply not_elem_of_cons in Hnot. destruct Hnot as [Hne Hnot].
    apply Hold; [| exact Hnot].
    rewrite Hmd. cbn [npc_database set_npc_database]. rewrite dict_get_set.
    destruct (String.eqb x n) eqn:E; [apply String.eqb_eq in E; contradiction |].
    rewrite Hmc, Hmb. exact Hx.
Qed.

Lemma count_jobs_ok l acc s :
  Forall (fun r => (r < length (heap s))%nat) l ->
  returns (count_jobs l acc) s (fun _ s' => s' = s).
Proof.
  revert acc. induction l as [| r l IH]; intros acc H; cbn [count_jobs].
  - apply returns_ret. reflexivity.
  - apply Forall_cons_1 in H. destruct H as [Hr Hl].
    destruct (lookup_lt_is_Some_2 _ _ Hr) as [c Hc].
    eapply returns_bind, returns_get_char; [exact Hc |]. apply IH, Hl.
Qed.

Lemma expanded_jobs_length : length expanded_jobs = 361%nat.
Proof. vm_compute. reflexivity. Qed.

Lemma expanded_jobs_counts job quantity :
  (job, quantity) ∈ _create_job_distribution -> count_str job expanded_jobs = quantity.
Proof.
  intros H.
  assert (Hall : forallb (fun jq => count_str (fst jq) expanded_jobs =? snd jq)
                   _create_job_distribution = true) by (vm_compute; reflexivity).
  rewrite forallb_forall in Hall. apply list_elem_of_In in H.
  apply Z.eqb_eq, (Hall (job, quantity) H).
Qed.

Lemma count_str_perm x l l' : Permutation l l' -> count_str x l = count_str x l'.
Proof.
  intros H. unfold count_str. f_equal.
  induction H as [| y l l' _ IH | y z l | l l' l'' _ IH1 _ IH2]; cbn [List.filter].
  - reflexivity.
  - destruct (String.eqb x y); cbn [length]; congruence.
  - destruct (String.eqb x y), (String.eqb x z); reflexivity.
  - congruence.
Qed.

Lemma lookups_of_new {A} (h cs : list A) :
  map (fun r => (h ++ cs) !! r) (seq (length h) (length cs)) = map Some cs.
Proof.
  revert h. induction cs as [| c cs IH]; intros h; cbn [length seq map]; [reflexivity |].
  rewrite list_lookup_middle by reflexivity. f_equal.
  replace (h ++ c :: cs) with ((h ++ [c]) ++ cs) by (rewrite <- app_assoc; reflexivity).
  replace (S (length h)) with (length (h ++ [c])) by (rewrite length_app; cbn; lia).
  apply IH.
Qed.

Lemma attributes_of_new {B} (f : Character -> B) (d : B) (h cs : list Character) :
  map (fun r => match (h ++ cs) !! r with Some c => f c | None => d end)
      (seq (length h) (length cs)) = map f cs.
Proof.
  transitivity (map (fun o : option Character => match o with Some c => f c | None => d end)
                  (map (fun r => (h ++ cs) !! r) (seq (length h) (length cs)))).
  - rewrite map_map. reflexivity.
  - rewrite lookups_of_new, map_map. reflexivity.
Qed.


Lemma is_ok_run {A} (r : Res A) : is_ok r = true -> exists a s', r = Ok a s'.
Proof. destruct r; [eauto | discriminate | discriminate]. Qed.

Lemma safe_ok {A} (m : M A) s (Post : A -> State -> Prop) a s' :
  safe m s Post -> m s = Ok a s' -> Post a s'.
Proof. unfold safe. intros H E. rewrite E in H. exact H. Qed.


(** * Further properties of the code *)

(** ** NPC: places and routines *)

Lemma table_values_declared (table : list (string * string)) k v :
  forallb (fun kv => declared (snd kv)) table = true ->
  dict_get k table = Some v -> declared v = true.
Proof.
  intros Hall H. apply dict_get_elem, list_elem_of_In in H.
  rewrite forallb_forall in Hall. apply (Hall (k, v) H).
Qed.

(** X1. Whatever the job and the personality of a townsperson, its work
    location is a declared location of the world, its list of preferred
    locations is not empty, and every preferred location is declared: the
    moves of [work_at_job] and of [distribute_npcs_to_world] never meet an
    unknown key. *)
Theorem npc_places_declared (c : Character) :
  declared (_get_work_location c) = true /\
  _get_preferred_locations c <> [] /\
  Forall (fun l => declared l = true) (_get_preferred_locations c).
Proof.
  split; [| split].
  - unfold _get_work_location.
    destruct (dict_get (job c) work_locations) as [l |] eqn:E; [| reflexivity].
    eapply table_values_declared; [| exact E]. vm_compute. reflexivity.
  - unfold _get_preferred_locations.
    destruct (20 <=? social (personality c)); [discriminate |].
    destruct (20 <=? curiosity (personality c)); [discriminate |].
    destruct (20 <=? cautious (personality c)); discriminate.
  - unfold _get_preferred_locations.
    destruct (20 <=? social (personality c));
      [repeat (apply List.Forall_cons; [reflexivity |]); apply List.Forall_nil |].
    destruct (20 <=? curiosity (personality c));
      [repeat (apply List.Forall_cons; [reflexivity |]); apply List.Forall_nil |].
    destruct (20 <=? cautious (personality c));
      repeat (apply List.Forall_cons; [reflexivity |]); apply List.Forall_nil.
Qed.

(** X2. The label of an hour of the day, as the routine generator writes
    it, is read back by [follow_routine] as that hour. *)
Theorem clock_label_round_trip (h : Z) :
  0 <= h < 24 -> Z_of_string (before_colon (clock_label h)) = Some h.
Proof.
  intros Hh.
  assert (Hall : forallb (fun n => match Z_of_string (before_colon (clock_label (Z.of_nat n)))
                                   with Some v => v =? Z.of_nat n | None => false end)
                   (seq 0 24) = true) by (vm_compute; reflexivity).
  rewrite forallb_forall in Hall.
  specialize (Hall (Z.to_nat h)). rewrite Z2Nat.id in Hall by lia.
  destruct (Z_of_string (before_colon (clock_label h))) as [v |].
  - f_equal. apply Z.eqb_eq, Hall, in_seq. lia.
  - discriminate Hall. apply in_seq. lia.
Qed.

Lemma clock_label_round_trip_witness :
  Z_of_string (before_colon (clock_label 17)) = Some 17.
Proof. apply clock_label_round_trip. lia. Defined.

Lemma follow_items_skip self (pre : list RoutineItem) rest hour :
  Forall (fun item => exists h, routine_hour item = Some h /\ h <> hour) pre ->
  follow_items self (pre ++ rest) hour = follow_items self rest hour.
Proof.
  induction 1 as [| item pre (h & Hh & Hne) _ IH]; cbn [app follow_items]; [reflexivity |].
  unfold routine_hour in Hh. rewrite Hh.
  destruct (h =? hour) eqn:E; [apply Z.eqb_eq in E; contradiction | exact IH].
Qed.

(** X3. [follow_routine] applies the first entry whose hour is the
    current hour, and only that one.  When no entry matches, nothing at
    all changes; when the first match is an entry at [home], the
    character keeps its location, no occupant list changes and no event
    is logged: only the activity and the time of the last action are
    set. *)
Theorem follow_routine_first_match (s : State) (self : nat) (c : Character) (hour : Z) :
  heap s !! self = Some c ->
  (Forall (fun item => exists h, routine_hour item = Some h /\ h <> hour)
     (daily_routine c) ->
   follow_routine self hour s = Ok tt s) /\
  (forall pre item rest,
     daily_routine c = pre ++ item :: rest ->
     Forall (fun item => exists h, routine_hour item = Some h /\ h <> hour) pre ->
     routine_hour item = Some hour ->
     r_location item = "home" ->
     exists s',
       follow_routine self hour s = Ok tt s' /\
       world s' = world s /\
       heap s' = <[self := set_last_action_time (wall s)
                             (set_current_activity (r_activity item) c)]> (heap s)).
Proof.
  intros Hc. split.
  - intros Hall. unfold follow_routine, bind, get_char. rewrite Hc.
    rewrite <- (app_nil_r (daily_routine c)), follow_items_skip by exact Hall.
    reflexivity.
  - intros pre item rest Hsplit Hpre Hhit Hhome.
    assert (Hlt : (self < length (heap s))%nat) by (eapply lookup_lt_Some; eauto).
    eexists. split; [| split].
    + unfold follow_routine, bind, get_char. rewrite Hc, Hsplit.
      rewrite follow_items_skip by exact Hpre. cbn [follow_items].
      unfold routine_hour in Hhit. rewrite Hhit, Z.eqb_refl, Hhome.
      unfold bind, get_world, when. cbn [String.eqb Ascii.eqb Bool.eqb negb andb].
      unfold ret, set_activity, bind, upd_char, now. rewrite Hc.
      unfold_state. rewrite list_lookup_insert_eq by exact Hlt.
      reflexivity.
    + reflexivity.
    + unfold_state. rewrite list_insert_insert_eq. reflexivity.
Qed.

Ltac routine_misses :=
  vm_compute;
  repeat (apply List.Forall_cons;
          [eexists; split; [reflexivity | discriminate] |]);
  apply List.Forall_nil.

(** The artist of the crowded town works at 6, lunches at 10 and is at
    home from 18: at 3 nothing happens, and at 18 the town does not
    change. *)
Lemma follow_routine_first_match_witness :
  follow_routine 2 3 crowded_state = Ok tt crowded_state /\
  exists s', follow_routine 2 18 crowded_state = Ok tt s' /\
             world s' = world crowded_state.
Proof.
  assert (Hc : heap crowded_state !! 2%nat = Some (character_at crowded_state 2))
    by (vm_compute; reflexivity).
  destruct (follow_routine_first_match crowded_state 2 _ 3 Hc) as [Hmiss _].
  destruct (follow_routine_first_match crowded_state 2 _ 18 Hc) as [_ Hhome].
  split.
  - apply Hmiss. routine_misses.
  - destruct (Hhome (firstn 2 (daily_routine (character_at crowded_state 2)))
                (mkRoutineItem "18:00" "personal_time" "home" 3) [])
      as (s' & Hrun & Hw & _).
    + vm_compute. reflexivity.
    + routine_misses.
    + reflexivity.
    + reflexivity.
    + exists s'. split; [exact Hrun | exact Hw].
Defined.

(** ** Actions without effects of their own *)

Lemma Base_plain_action self action c s :
  heap s !! self = Some c ->
  String.eqb action "rest" = false ->
  String.eqb action "explore" = false ->
  String.eqb action "socialize" = false ->
  Base_execute_action self action s = Ok tt (plain_action_state self action c s).
Proof.
  intros Hc H1 H2 H3.
  assert (Hlt : (self < length (heap s))%nat) by (eapply lookup_lt_Some; eauto).
  unfold Base_execute_action. rewrite H1, H2, H3.
  unfold set_activity, bind, upd_char, now, ret. rewrite Hc. unfold_state.
  rewrite list_lookup_insert_eq by exact Hlt. unfold_state.
  rewrite list_lookup_insert_eq by (rewrite length_insert; exact Hlt).
  unfold plain_action_state, after_plain_action. unfold_state.
  rewrite !list_insert_insert_eq. reflexivity.
Qed.

Lemma plain_action_lookup self action c s :
  heap s !! self = Some c ->
  heap (plain_action_state self action c s) !! self
  = Some (after_plain_action action (wall s) c).
Proof.
  intros Hc. unfold plain_action_state. unfold_state.
  apply list_lookup_insert_eq. eapply lookup_lt_Some; eauto.
Qed.

(** X4. The guards of the researcher's actions: analysing specimens
    without samples, diving anywhere but at the riverside and documenting
    findings without discoveries do exactly what any plain action does
    (activity and time of the last action set, 5 units of energy spent)
    and nothing more: no draw of the random source, no memory, no event,
    no counter changed. *)
Theorem researcher_guards (s : State) (self : nat) (c : Character) :
  heap s !! self = Some c ->
  (samples_collected c <= 0 ->
   Researcher_execute_action self "analyze_specimens" s
   = Ok tt (plain_action_state self "analyze_specimens" c s)) /\
  (location c <> "riverside" ->
   Researcher_execute_action self "dive_for_samples" s
   = Ok tt (plain_action_state self "dive_for_samples" c s)) /\
  (discoveries c = [] ->
   Researcher_execute_action self "document_findings" s
   = Ok tt (plain_action_state self "document_findings" c s)).
Proof.
  intros Hc. split; [| split].
  - intros Hn. unfold Researcher_execute_action, bind.
    rewrite (Base_plain_action _ _ c) by (exact Hc || reflexivity).
    cbn [String.eqb Ascii.eqb Bool.eqb]. unfold bind, get_char.
    rewrite (plain_action_lookup _ _ _ _ Hc).
    cbn [samples_collected after_plain_action set_energy set_last_action_time
         set_current_activity].
    destruct (0 <? samples_collected c) eqn:E; [apply Z.ltb_lt in E; lia | reflexivity].
  - intros Hn. unfold Researcher_execute_action, bind.
    rewrite (Base_plain_action _ _ c) by (exact Hc || reflexivity).
    cbn [String.eqb Ascii.eqb Bool.eqb]. unfold bind, get_char.
    rewrite (plain_action_lookup _ _ _ _ Hc).
    cbn [location after_plain_action set_energy set_last_action_time
         set_current_activity].
    destruct (String.eqb (location c) "riverside") eqn:E;
      [apply String.eqb_eq in E; contradiction | reflexivity].
  - intros Hn. unfold Researcher_execute_action, bind.
    rewrite (Base_plain_action _ _ c) by (exact Hc || reflexivity).
    cbn [String.eqb Ascii.eqb Bool.eqb]. unfold bind, get_char.
    rewrite (plain_action_lookup _ _ _ _ Hc).
    cbn [discoveries after_plain_action set_energy set_last_action_time
         set_current_activity].
    rewrite Hn. reflexivity.
Qed.

(** The researcher at the station, new in town, has no samples and no
    discoveries and is not at the riverside. *)
Lemma researcher_guards_witness :
  let c := character_at station_state 0 in
  Researcher_execute_action 0 "analyze_specimens" station_state
  = Ok tt (plain_action_state 0 "analyze_specimens" c station_state) /\
  Researcher_execute_action 0 "dive_for_samples" station_state
  = Ok tt (plain_action_state 0 "dive_for_samples" c station_state) /\
  Researcher_execute_action 0 "document_findings" station_state
  = Ok tt (plain_action_state 0 "document_findings" c station_state).
Proof.
  intros c.
  destruct (researcher_guards station_state 0 c ltac:(vm_compute; reflexivity))
    as (H1 & H2 & H3).
  split; [apply H1; vm_compute; discriminate |].
  split; [apply H2; vm_compute; discriminate | apply H3; vm_compute; reflexivity].
Defined.

(** ** Exploring *)

Lemma returns_get_world s (Post : World -> State -> Prop) :
  Post (world s) s -> returns get_world s Post.
Proof. intros H. eexists _, _. split; [reflexivity | exact H]. Qed.

Lemma returns_location_name w key loc s (Post : string -> State -> Prop) :
  dict_get key (locations w) = Some loc -> Post (loc_name loc) s ->
  returns (location_name w key) s Post.
Proof.
  intros Hk H. unfold location_name. rewrite Hk. apply returns_ret, H.
Qed.

Lemma returns_upd_world f s (Post : unit -> State -> Prop) :
  (forall s', heap s' = heap s -> world s' = f (world s) ->
              manager s' = manager s -> tape s' = tape s -> Post tt s') ->
  returns (upd_world f) s Post.
Proof. intros H. eexists _, _. split; [reflexivity |]. apply H; reflexivity. Qed.

Lemma returns_log_event a b c d s (Post : unit -> State -> Prop) :
  (forall s' e, heap s' = heap s -> manager s' = manager s -> tape s' = tape s ->
                world s' = set_world_events (world_events (world s) ++ [e]) (world s) ->
                event_type e = a -> ev_location e = c -> participants e = d ->
                Post tt s') ->
  returns (log_event a b c d) s Post.
Proof.
  intros H. unfold log_event. apply returns_bind, returns_now.
  apply returns_upd_world. intros s' Hh Hw Hm Ht.
  eapply H; [exact Hh | exact Hm | exact Ht | exact Hw | | |]; reflexivity.
Qed.

(** A move to a declared key, with the state reached described by its
    parts. *)
Lemma returns_move_character character key c s (Post : unit -> State -> Prop) :
  heap s !! character = Some c ->
  dict_mem key (locations (world s)) = true ->
  (forall s' e,
     heap s' = <[character := set_location key c]> (heap s) ->
     manager s' = manager s -> tape s' = tape s ->
     locations (world s') =
       dict_update key (enter character) (map_values (vacate character) (locations (world s))) ->
     world_events (world s') = world_events (world s) ++ [e] ->
     event_type e = "character_movement" ->
     ai_characters (world s') = ai_characters (world s) ->
     npcs (world s') = npcs (world s) ->
     time (world s') = time (world s) ->
     Post tt s') ->
  returns (move_character character key) s Post.
Proof.
  intros Hc Hmem H.
  pose proof Hmem as Hget. apply dict_mem_get in Hget. destruct Hget as [target Htarget].
  destruct (moved_location character key _ _ _ Htarget) as (target' & Htarget' & _).
  assert (Hlt : (character < length (heap s))%nat) by (eapply lookup_lt_Some; eauto).
  unfold move_character.
  apply returns_bind, returns_get_world. rewrite Hmem.
  apply returns_bind, returns_upd_world. intros s1 Hh1 Hw1 Hm1 Ht1.
  apply returns_bind, returns_upd_world. intros s2 Hh2 Hw2 Hm2 Ht2.
  eapply returns_bind, returns_upd_char; [rewrite Hh2, Hh1; exact Hc |].
  intros s3 Hh3 Hw3 Hm3 Ht3.
  eapply returns_bind, returns_get_char.
  { rewrite Hh3. apply list_lookup_insert_eq. rewrite Hh2, Hh1. exact Hlt. }
  apply returns_bind, returns_get_world.
  assert (Hlocs : locations (world s3) =
            dict_update key (enter character)
              (map_values (vacate character) (locations (world s)))).
  { rewrite Hw3, Hw2, Hw1. reflexivity. }
  eapply returns_bind, returns_location_name; [rewrite Hlocs; exact Htarget' |].
  apply returns_log_event. intros s4 e Hh4 Hm4 Ht4 Hw4 He _ _.
  apply (H s4 e);
    rewrite ?Hw4, ?Hw3, ?Hw2, ?Hw1, ?Hh4, ?Hh3, ?Hh2, ?Hh1, ?Hm4, ?Hm3, ?Hm2, ?Hm1,
      ?Ht4, ?Ht3, ?Ht2, ?Ht1;
    first [reflexivity | assumption].
Qed.

Lemma key_declared {V} k (d : list (string * V)) : k ∈ dict_keys d -> dict_mem k d = true.
Proof.
  unfold dict_keys, dict_mem. induction d as [| [k' v] d IH]; cbn [map fst dict_get].
  - intros H. apply elem_of_nil in H. contradiction.
  - intros H. destruct (String.eqb k k') eqn:E; [reflexivity |].
    apply elem_of_cons in H. destruct H as [-> | H]; [| exact (IH H)].
    rewrite String.eqb_refl in E. discriminate.
Qed.

Lemma other_locations_elem c w loc :
  loc ∈ other_locations c w <-> loc ∈ dict_keys (locations w) /\ loc <> location c.
Proof.
  unfold other_locations. rewrite list_elem_of_In, filter_In, <- list_elem_of_In.
  rewrite negb_true_iff, String.eqb_neq. reflexivity.
Qed.

(** X5. [explore] always goes elsewhere.  If the world declares a
    location other than the character's own, the action returns and the
    character is then at a declared location different from where it was,
    with 5 units of energy spent, a memory of importance 4 appended and
    one movement event logged last; no other character changes.  If
    there is no other location the action raises [IndexError] once the
    activity is set, before any energy is spent. *)
Theorem explore_goes_elsewhere (s : State) (self : nat) (c : Character) :
  heap s !! self = Some c ->
  (other_locations c (world s) = [] ->
   exists s',
     Base_execute_action self "explore" s = Raise IndexError s' /\
     world s' = world s /\
     heap s' = <[self := set_last_action_time (wall s)
                           (set_current_activity "explore" c)]> (heap s)) /\
  (other_locations c (world s) <> [] ->
   exists s' c' e m,
     Base_execute_action self "explore" s = Ok tt s' /\
     heap s' = <[self := c']> (heap s) /\
     location c' ∈ dict_keys (locations (world s)) /\ location c' <> location c /\
     energy c' = Z.max 0 (energy c - 5) /\
     current_activity c' = "explore" /\
     memories c' = remember (memories c) m /\ importance m = 4 /\
     world_events (world s') = world_events (world s) ++ [e] /\
     event_type e = "character_movement").
Proof.
  intros Hc.
  assert (Hlt : (self < length (heap s))%nat) by (eapply lookup_lt_Some; eauto).
  split.
  - intros Hnone. eexists. split; [| split].
    + unfold Base_execute_action. cbn [String.eqb Ascii.eqb Bool.eqb].
      unfold set_activity, bind, upd_char, now, get_world, get_char.
      rewrite Hc. unfold_state. rewrite list_lookup_insert_eq by exact Hlt. unfold_state.
      rewrite list_lookup_insert_eq by (rewrite length_insert; exact Hlt).
      cbn [location set_last_action_time set_current_activity].
      fold (other_locations c (world s)). rewrite Hnone. reflexivity.
    + reflexivity.
    + unfold_state. rewrite list_insert_insert_eq. reflexivity.
  - intros Hsome.
    assert (H : returns (Base_execute_action self "explore") s
              (fun _ s' => exists c' e m,
                 heap s' = <[self := c']> (heap s) /\
                 location c' ∈ dict_keys (locations (world s)) /\
                 location c' <> location c /\
                 energy c' = Z.max 0 (energy c - 5) /\
                 current_activity c' = "explore" /\
                 memories c' = remember (memories c) m /\ importance m = 4 /\
                 world_events (world s') = world_events (world s) ++ [e] /\
                 event_type e = "character_movement")).
    { unfold Base_execute_action. cbn [String.eqb Ascii.eqb Bool.eqb].
      apply returns_bind. unfold set_activity.
      eapply returns_bind, returns_upd_char; [exact Hc |]. intros s1 Hh1 Hw1 Hm1 Ht1.
      apply returns_bind, returns_now_so. intros t1 s2 (Hh2 & Hw2 & Hm2 & Ht2).
      eapply returns_upd_char.
      { rewrite Hh2, Hh1. apply list_lookup_insert_eq, Hlt. }
      intros s3 Hh3 Hw3 Hm3 Ht3.
      rewrite Hh2, Hh1, list_insert_insert_eq in Hh3.
      set (c1 := set_last_action_time t1 (set_current_activity "explore" c)) in *.
      assert (Hw03 : world s3 = world s) by congruence.
      apply returns_bind, returns_bind, returns_get_world.
      eapply returns_bind, returns_get_char.
      { rewrite Hh3. apply list_lookup_insert_eq, Hlt. }
      rewrite Hw03. change (location c1) with (location c).
      fold (other_locations c (world s)).
      apply returns_bind, returns_choice_so; [exact Hsome |].
      intros new_location s4 Hnew (Hh4 & Hw4 & Hm4 & Ht4).
      apply other_locations_elem in Hnew. destruct Hnew as [Hkey Hne].
      eapply returns_bind, returns_move_character.
      { rewrite Hh4, Hh3. apply list_lookup_insert_eq, Hlt. }
      { rewrite Hw4, Hw03. apply key_declared, Hkey. }
      intros s5 e Hh5 Hm5 Ht5 Hl5 He5 Hty5 _ _ _.
      rewrite Hh4, Hh3, list_insert_insert_eq in Hh5.
      apply returns_bind, returns_get_world.
      assert (Hplace : exists loc, dict_get new_location (locations (world s5)) = Some loc).
      { apply key_declared, dict_mem_get in Hkey. destruct Hkey as [loc Hloc].
        destruct (moved_location self new_location _ _ _ Hloc) as (loc' & Hloc' & _).
        exists loc'. rewrite Hl5, Hw4, Hw03. exact Hloc'. }
      destruct Hplace as [loc Hloc].
      eapply returns_bind, returns_location_name; [exact Hloc |].
      unfold add_memory. apply returns_bind, returns_now_so.
      intros t2 s6 (Hh6 & Hw6 & Hm6 & Ht6).
      eapply returns_upd_char.
      { rewrite Hh6, Hh5. apply list_lookup_insert_eq, Hlt. }
      intros s7 Hh7 Hw7 Hm7 Ht7.
      rewrite Hh6, Hh5, list_insert_insert_eq in Hh7.
      eapply returns_upd_char.
      { rewrite Hh7. apply list_lookup_insert_eq, Hlt. }
      intros s8 Hh8 Hw8 Hm8 Ht8.
      rewrite Hh7, list_insert_insert_eq in Hh8.
      eexists _, e, _. split; [exact Hh8 |].
      cbn [location energy current_activity memories set_energy set_memories set_location
           set_last_action_time set_current_activity c1 importance].
      split; [exact Hkey |]. split; [exact Hne |].
      repeat (split; [reflexivity |]).
      split; [| exact Hty5].
      rewrite Hw8, Hw7, Hw6, He5, Hw4, Hw03. reflexivity. }
    destruct H as ([] & s' & Hrun & c' & e & m & H).
    exists s', c', e, m. split; [exact Hrun | exact H].
Qed.

(** In the hospital town the surgeon explores and leaves the hospital; in
    a village of one place exploring fails. *)
Lemma explore_goes_elsewhere_witness :
  (exists s' c',
     Base_execute_action 0 "explore" hospital_state = Ok tt s' /\
     heap s' !! 0%nat = Some c' /\ location c' <> "hospital") /\
  (exists s', Base_execute_action 0 "explore" village_state = Raise IndexError s').
Proof.
  split.
  - destruct (proj2 (explore_goes_elsewhere hospital_state 0 (character_at hospital_state 0)
                       ltac:(vm_compute; reflexivity)))
      as (s' & c' & e & m & Hrun & Hheap & _ & Hne & _);
      [vm_compute; discriminate |].
    exists s', c'. split; [exact Hrun |]. split; [| exact Hne].
    rewrite Hheap. reflexivity.
  - destruct (proj1 (explore_goes_elsewhere village_state 0
                       (set_location "town_center" (character_at hospital_state 0))
                       ltac:(vm_compute; reflexivity)))
      as (s' & Hrun & _); [vm_compute; reflexivity |].
    exists s'. exact Hrun.
Defined.

(** ** Relations kept by every step of the interpreter *)

Section Keeps.
Context (R : State -> State -> Prop) `{!StepRel R}.

Lemma keeps_ret {A} (a : A) : preserves R (ret a).
Proof. intros s. apply sr_refl. Qed.

Lemma keeps_raise {A} e : preserves R (@raise A e).
Proof. intros s. apply sr_refl. Qed.

Lemma keeps_bind {A B} (m : M A) (k : A -> M B) :
  preserves R m -> (forall a, preserves R (k a)) -> preserves R (bind m k).
Proof.
  intros Hm Hk s. unfold bind. specialize (Hm s).
  destruct (m s) as [a s' | e s' | s']; cbn [final_state] in *; [| exact Hm | exact Hm].
  eapply sr_trans; [exact Hm | apply Hk].
Qed.

Lemma keeps_when b m : preserves R m -> preserves R (when b m).
Proof. intros H. destruct b; [exact H | apply keeps_ret]. Qed.

Lemma keeps_for_each {A} (l : list A) (body : A -> M unit) :
  (forall x, preserves R (body x)) -> preserves R (for_each l body).
Proof.
  intros H. induction l as [| x l IH]; cbn [for_each]; [apply keeps_ret |].
  apply keeps_bind; [apply H | intros _; exact IH].
Qed.

Lemma keeps_get_char r : preserves R (get_char r).
Proof. intros s. unfold get_char. destruct (heap s !! r); apply sr_refl. Qed.

Lemma keeps_get_world : preserves R get_world.
Proof. intros s. apply sr_refl. Qed.

Lemma keeps_get_manager : preserves R get_manager.
Proof. intros s. apply sr_refl. Qed.

Lemma keeps_now : preserves R now.
Proof. intros s. apply sr_wall. Qed.

Lemma keeps_draw : preserves R draw.
Proof. intros s. apply sr_cursor. Qed.

Lemma keeps_upd_world f :
  keeps_locations f -> appends_events f -> preserves R (upd_world f).
Proof. intros Hf Hg s. apply sr_world; assumption. Qed.

Lemma keeps_upd_char r f : keeps_location f -> preserves R (upd_char r f).
Proof.
  intros Hf s. unfold upd_char. destruct (heap s !! r) as [c |] eqn:E; cbn [final_state].
  - eapply sr_char; eauto.
  - apply sr_refl.
Qed.
End Keeps.

Ltac keeps_side :=
  first
    [ match goal with |- StepRel _ => exact _ end
    | match goal with |- keeps_location _ => intros ?; reflexivity end
    | match goal with |- keeps_locations _ => intros ?; reflexivity end
    | match goal with
      | |- appends_events _ =>
          intros ?; first [ exists []; rewrite app_nil_r; reflexivity
                          | eexists; reflexivity ]
      end ].

Ltac keeps_known := fail.

Ltac keeps_with tac :=
  repeat first
    [ progress intros
    | keeps_side
    | tac
    | keeps_known
    | apply sr_move
    | apply keeps_ret
    | apply keeps_raise
    | apply keeps_bind
    | apply keeps_when
    | apply keeps_for_each
    | apply keeps_get_char
    | apply keeps_get_world
    | apply keeps_get_manager
    | apply keeps_now
    | apply keeps_draw
    | apply keeps_upd_world
    | apply keeps_upd_char
    | match goal with
      | |- preserves _ (if ?b then _ else _) => destruct b
      | |- preserves _ (match ?x with _ => _ end) => destruct x
      end ].

Ltac keeps := keeps_with fail.

Section KeepsOf.
Context (R : State -> State -> Prop) `{!StepRel R}.

Lemma keeps_randint a b : preserves R (randint a b).
Proof. unfold randint. keeps. Qed.

Lemma keeps_choice {A} (l : list A) : preserves R (choice l).
Proof. unfold choice. keeps. Qed.

Lemma keeps_random : preserves R random.
Proof. unfold random. keeps. Qed.

Lemma keeps_uniform a b : preserves R (uniform a b).
Proof. unfold uniform. keeps. Qed.

Lemma keeps_log_event a b c d : preserves R (log_event a b c d).
Proof. unfold log_event. keeps. Qed.

Lemma keeps_location_name w key : preserves R (location_name w key).
Proof. unfold location_name. keeps. Qed.

Lemma keeps_occupants_at w key : preserves R (occupants_at w key).
Proof. unfold occupants_at. keeps. Qed.

Lemma keeps_follow_items self items h : preserves R (follow_items self items h).
Proof.
  induction items as [| entry rest IH]; cbn [follow_items]; [keeps |].
  destruct (Z_of_string (before_colon (r_time entry))); [| keeps].
  destruct (_ =? h); [| exact IH].
  keeps.
Qed.

Lemma keeps_sample_from {A} k n (pool : list A) : preserves R (sample_from k n pool).
Proof.
  revert n pool. induction k as [| k IH]; intros n pool; cbn [sample_from]; [keeps |].
  apply keeps_bind; [exact _ | keeps |]. intros d.
  destruct (pool !! _); [| keeps]. destruct (pool !! _); [| keeps].
  apply keeps_bind; [exact _ | apply IH | keeps].
Qed.

Lemma keeps_sample {A} (population : list A) k : preserves R (sample population k).
Proof. unfold sample. destruct (_ || _); [keeps | apply keeps_sample_from]. Qed.
End KeepsOf.

Ltac keeps_known ::=
  first [ apply keeps_randint | apply keeps_choice | apply keeps_random
        | apply keeps_uniform | apply keeps_log_event
        | apply keeps_location_name | apply keeps_occupants_at
        | apply keeps_follow_items | apply keeps_sample ].

Section KeepsOfActions.
Context (R : State -> State -> Prop) `{!StepRel R}.

Lemma keeps_Base_execute_action self action :
  preserves R (Base_execute_action self action).
Proof. unfold Base_execute_action. keeps. Qed.

Lemma keeps_Researcher_execute_action self action :
  preserves R (Researcher_execute_action self action).
Proof.
  unfold Researcher_execute_action.
  apply keeps_bind; [exact _ | apply keeps_Base_execute_action; exact _ | keeps].
Qed.

Lemma keeps_Surgeon_execute_action self action :
  preserves R (Surgeon_execute_action self action).
Proof.
  unfold Surgeon_execute_action.
  apply keeps_bind; [exact _ | apply keeps_Base_execute_action; exact _ | keeps].
Qed.

Lemma keeps_NPC_execute_action self action :
  preserves R (NPC_execute_action self action).
Proof.
  unfold NPC_execute_action.
  apply keeps_bind; [exact _ | apply keeps_Base_execute_action; exact _ | keeps].
Qed.

Lemma keeps_execute_action self action : preserves R (execute_action self action).
Proof.
  unfold execute_action. apply keeps_bind; [exact _ | keeps |].
  intros c. destruct (klass c);
    [ apply keeps_Base_execute_action | apply keeps_NPC_execute_action
    | apply keeps_Researcher_execute_action | apply keeps_Surgeon_execute_action ];
    exact _.
Qed.

Lemma keeps_take_action self : preserves R (take_action self).
Proof.
  unfold take_action. apply keeps_bind; [exact _ | keeps |].
  intros c. destruct (get_possible_actions c); [keeps |].
  apply keeps_bind; [exact _ | keeps |].
  intros a. apply keeps_execute_action; exact _.
Qed.

Lemma keeps_follow_routine self h : preserves R (follow_routine self h).
Proof. unfold follow_routine. keeps. Qed.

Lemma keeps_update_time hours : preserves R (update_time hours).
Proof. unfold update_time. keeps. Qed.

Lemma keeps_simulate_step : preserves R simulate_step.
Proof. unfold simulate_step. keeps_with ltac:(apply keeps_take_action). Qed.

Lemma keeps_simulate_npc_interactions n : preserves R (simulate_npc_interactions n).
Proof.
  unfold simulate_npc_interactions.
  keeps_with ltac:(first [apply keeps_take_action | apply keeps_follow_routine]).
Qed.

Lemma keeps_get_random_npcs k : preserves R (get_random_npcs k).
Proof. unfold get_random_npcs. keeps. Qed.

Lemma keeps_run_simulation_step : preserves R run_simulation_step.
Proof.
  unfold run_simulation_step.
  keeps_with ltac:(first [ apply keeps_simulate_step | apply keeps_simulate_npc_interactions
                         | apply keeps_get_random_npcs ]).
Qed.

Lemma keeps_add_character character : preserves R (add_character character).
Proof. unfold add_character. keeps. Qed.

Lemma keeps_distribute_npcs_to_world : preserves R distribute_npcs_to_world.
Proof. unfold distribute_npcs_to_world. keeps. Qed.
End KeepsOfActions.

(** ** The event log only grows *)

Lemma move_character_log_grows character key :
  preserves log_grows (move_character character key).
Proof.
  intros s. unfold log_grows, move_character, bind, get_world.
  destruct (dict_mem key (locations (world s))); cbn [final_state];
    [| exists []; rewrite app_nil_r; reflexivity].
  unfold upd_world, modify, upd_char, get_char, location_name, log_event, bind, now,
    get_world, ret, raise.
  unfold_state.
  destruct (heap s !! character) as [c |] eqn:Hc; unfold_state; cbn [final_state];
    [| exists []; rewrite app_nil_r; reflexivity].
  rewrite list_lookup_insert_eq by (eapply lookup_lt_Some; eauto).
  unfold_state.
  destruct (dict_get key _); unfold_state; cbn [final_state].
  - eexists. reflexivity.
  - exists []. rewrite app_nil_r. reflexivity.
Qed.

#[local] Instance log_grows_rel : StepRel log_grows.
Proof.
  split.
  - intros s. exists []. rewrite app_nil_r. reflexivity.
  - intros s1 s2 s3 [l1 H1] [l2 H2]. exists (l1 ++ l2). rewrite H2, H1, app_assoc.
    reflexivity.
  - intros s n. exists []. rewrite app_nil_r. reflexivity.
  - intros s n. exists []. rewrite app_nil_r. reflexivity.
  - intros s r c f _ _. exists []. rewrite app_nil_r. reflexivity.
  - intros s f _ Hf. destruct (Hf (world s)) as [l Hl]. exists l. exact Hl.
  - apply move_character_log_grows.
Qed.


(** ** The occupant lists agree with the characters' locations *)

Lemma moved_consistent s s' character key :
  world_consistent s ->
  locations (world s') =
    dict_update key (enter character)
      (map_values (vacate character) (locations (world s))) ->
  (forall k c', heap s' !! k = Some c' ->
     (k = character /\ location c' = key) \/ (k <> character /\ heap s !! k = Some c')) ->
  world_consistent s'.
Proof.
  intros [Hkeys Hlocs] Hl Hheap. split.
  - rewrite Hl, dict_keys_update, dict_keys_map_values. exact Hkeys.
  - intros key' loc' Hk. rewrite Hl in Hk.
    destruct (dict_get key' (locations (world s))) as [loc |] eqn:Hold.
    + destruct (moved_location character key _ _ _ Hold) as (loc2 & Hk2 & _ & Hocc2).
      rewrite Hk in Hk2. injection Hk2 as <-. rewrite Hocc2.
      destruct (Hlocs _ _ Hold) as [Hnd Hmem].
      destruct (list_remove_nodup character _ Hnd) as [Hn1 Hn2].
      split.
      * destruct (String.eqb key' key); [| rewrite app_nil_r; exact Hn1].
        apply NoDup_app. split; [exact Hn1 |]. split; [| apply NoDup_singleton].
        intros x Hx Hx2. apply list_elem_of_singleton in Hx2. subst x. contradiction.
      * intros k c' Hin Hc'. apply elem_of_app in Hin.
        destruct (Hheap _ _ Hc') as [[-> Hloc] | [Hne Hold']].
        -- destruct Hin as [Hin | Hin]; [contradiction |].
           destruct (String.eqb key' key) eqn:E; [| apply elem_of_nil in Hin; contradiction].
           apply String.eqb_eq in E. congruence.
        -- destruct Hin as [Hin | Hin].
           ++ apply (Hmem k); [| exact Hold']. apply list_remove_other in Hin; assumption.
           ++ destruct (String.eqb key' key); [| apply elem_of_nil in Hin; contradiction].
              apply list_elem_of_singleton in Hin. contradiction.
    + rewrite dict_get_update, dict_get_map_values, Hold in Hk.
      destruct (String.eqb key' key); discriminate.
Qed.

Lemma move_character_consistent character key :
  preserves keeps_consistent (move_character character key).
Proof.
  intros s Hcons. unfold move_character, bind, get_world.
  destruct (dict_mem key (locations (world s))); cbn [final_state]; [| exact Hcons].
  unfold upd_world, modify, upd_char, get_char, location_name, log_event, bind, now,
    get_world, ret, raise.
  unfold_state.
  destruct (heap s !! character) as [c |] eqn:Hc; unfold_state; cbn [final_state].
  - assert (Hlt : (character < length (heap s))%nat) by (eapply lookup_lt_Some; eauto).
    rewrite list_lookup_insert_eq by exact Hlt.
    unfold_state.
    assert (Hheap : forall k c',
              <[character := set_location key c]> (heap s) !! k = Some c' ->
              (k = character /\ location c' = key) \/
              (k <> character /\ heap s !! k = Some c')).
    { intros k c' Hk. destruct (Nat.eq_dec k character) as [-> | Hne].
      - rewrite list_lookup_insert_eq in Hk by exact Hlt. injection Hk as <-.
        left. split; reflexivity.
      - rewrite list_lookup_insert_ne in Hk by congruence. right. split; assumption. }
    destruct (dict_get key _); unfold_state; cbn [final_state];
      (eapply moved_consistent; [exact Hcons | reflexivity | exact Hheap]).
  - eapply moved_consistent; [exact Hcons | reflexivity |].
    intros k c' Hk. cbn [heap] in Hk. right. split; [| exact Hk].
    intros ->. rewrite Hc in Hk. discriminate.
Qed.

#[local] Instance keeps_consistent_rel : StepRel keeps_consistent.
Proof.
  split.
  - intros s H. exact H.
  - intros s1 s2 s3 H1 H2 H. exact (H2 (H1 H)).
  - intros s n H. exact H.
  - intros s n H. exact H.
  - intros s r c f Hc Hf [Hkeys Hlocs]. split; [exact Hkeys |].
    intros key loc Hk. destruct (Hlocs key loc Hk) as [Hnd Hmem].
    split; [exact Hnd |]. intros k c' Hin Hc'. cbn [heap set_heap] in Hc'.
    destruct (Nat.eq_dec k r) as [-> | Hne].
    + rewrite list_lookup_insert_eq in Hc' by (eapply lookup_lt_Some; eauto).
      injection Hc' as <-. rewrite Hf. eapply Hmem; eauto.
    + rewrite list_lookup_insert_ne in Hc' by congruence. eapply Hmem; eauto.
  - intros s f Hf _ [Hkeys Hlocs]. unfold world_consistent. unfold_state.
    rewrite Hf. split; assumption.
  - apply move_character_consistent.
Qed.

Lemma distinct_strings_nodup l : distinct_strings l = true -> NoDup l.
Proof.
  induction l as [| x l IH]; cbn [distinct_strings]; intros H; [constructor |].
  apply andb_true_iff in H. destruct H as [Hx Hl]. constructor; [| apply IH, Hl].
  intros Hin. apply str_in_elem in Hin. rewrite Hin in Hx. discriminate.
Qed.

Lemma consistent_b_sound s : consistent_b s = true -> world_consistent s.
Proof.
  unfold consistent_b. intros H. apply andb_true_iff in H. destruct H as [Hkeys Hall].
  split; [apply distinct_strings_nodup, Hkeys |].
  intros key loc Hk. apply dict_get_elem, list_elem_of_In in Hk.
  rewrite forallb_forall in Hall. specialize (Hall _ Hk). cbn [fst snd] in Hall.
  apply andb_true_iff in Hall. destruct Hall as [Hnd Hmem].
  split; [apply bool_decide_eq_true in Hnd; exact Hnd |].
  intros k c Hin Hc. rewrite forallb_forall in Hmem.
  apply list_elem_of_In in Hin. specialize (Hmem _ Hin). rewrite Hc in Hmem.
  apply String.eqb_eq, Hmem.
Qed.

Lemma consistent_places s k c :
  world_consistent s -> heap s !! k = Some c ->
  places_of k (world s) = [] \/ places_of k (world s) = [location c].
Proof.
  intros [Hkeys Hlocs] Hc.
  assert (Hall : forall key, key ∈ places_of k (world s) -> key = location c).
  { intros key Hin. unfold places_of in Hin. apply list_elem_of_fmap in Hin.
    destruct Hin as ([key' loc] & -> & Hin). cbn [fst].
    apply list_elem_of_In, filter_In in Hin. destruct Hin as [Hin Htest]. cbn [snd] in Htest.
    apply list_elem_of_In in Hin. apply dict_elem_get in Hin; [| exact Hkeys].
    symmetry. eapply (proj2 (Hlocs _ _ Hin)); [apply ref_in_elem, Htest | exact Hc]. }
  assert (Hnd : NoDup (places_of k (world s))).
  { unfold places_of. apply (sublist_NoDup _ (dict_keys (locations (world s))));
      [exact Hkeys |].
    unfold dict_keys. clear.
    induction (locations (world s)) as [| kv l IH]; cbn [List.filter map]; [constructor |].
    destruct (ref_in k (occupants (snd kv))); cbn [map];
      [apply sublist_skip | apply sublist_cons]; exact IH. }
  destruct (places_of k (world s)) as [| a [| b l]]; [left; reflexivity | |].
  - right. rewrite (Hall a); [reflexivity | apply elem_of_cons; left; reflexivity].
  - exfalso. apply NoDup_cons in Hnd. destruct Hnd as [Hnd _]. apply Hnd.
    assert (Ha : a = location c) by (apply Hall, elem_of_cons; left; reflexivity).
    assert (Hb : b = location c).
    { apply Hall, elem_of_cons. right. apply elem_of_cons. left. reflexivity. }
    rewrite Ha, Hb. apply elem_of_cons. left. reflexivity.
Qed.

(** X7. The occupant lists never contradict the characters: if location
    keys are distinct, no occupant list repeats a character and every
    listed character has the key of its list as [location], then the same
    holds after a move, an arrival, an action, a routine, the distribution
    of the population and a whole simulation step, whether they returned
    or raised; and then every character is listed at no place or at its
    [location] alone. *)
Theorem placement_stays_consistent (s : State) :
  world_consistent s ->
  (forall character key, world_consistent (final_state (move_character character key s))) /\
  (forall character, world_consistent (final_state (add_character character s))) /\
  (forall self, world_consistent (final_state (take_action self s))) /\
  (forall self hour, world_consistent (final_state (follow_routine self hour s))) /\
  world_consistent (final_state (distribute_npcs_to_world s)) /\
  world_consistent (final_state (run_simulation_step s)) /\
  forall k c, heap (final_state (run_simulation_step s)) !! k = Some c ->
    places_of k (world (final_state (run_simulation_step s))) = [] \/
    places_of k (world (final_state (run_simulation_step s))) = [location c].
Proof.
  intros H.
  assert (Hstep : world_consistent (final_state (run_simulation_step s)))
    by (apply (keeps_run_simulation_step keeps_consistent), H).
  split; [intros; apply (move_character_consistent character key), H |].
  split; [intros; apply (keeps_add_character keeps_consistent), H |].
  split; [intros; apply (keeps_take_action keeps_consistent), H |].
  split; [intros; apply (keeps_follow_routine keeps_consistent), H |].
  split; [apply (keeps_distribute_npcs_to_world keeps_consistent), H |].
  split; [exact Hstep |].
  intros k c Hc. apply consistent_places; assumption.
Qed.

(** The town of sixty after its setup. *)
Lemma placement_stays_consistent_witness :
  world_consistent crowded_state /\
  world_consistent (final_state (run_simulation_step crowded_state)).
Proof.
  assert (H : world_consistent crowded_state)
    by (apply consistent_b_sound; vm_compute; reflexivity).
  split; [exact H |].
  apply (placement_stays_consistent crowded_state H).
Defined.

(** ** NPCManager: populations of any size *)

Lemma pad_jobs_ok missing jobs s :
  dict_keys (job_distribution (manager s)) <> [] ->
  returns (pad_jobs missing jobs) s
    (fun jobs' s' =>
       same_objects s s' /\
       exists extra, jobs' = jobs ++ extra /\ length extra = missing /\
                     forall j, j ∈ extra -> j ∈ dict_keys (job_distribution (manager s))).
Proof.
  revert jobs s. induction missing as [| missing IH]; intros jobs s Hkeys; cbn [pad_jobs].
  - apply returns_ret. split; [apply same_objects_refl |].
    exists []. rewrite app_nil_r. split; [reflexivity |]. split; [reflexivity |].
    intros j Hj. apply elem_of_nil in Hj. contradiction.
  - apply returns_bind, returns_get_manager.
    apply returns_bind, returns_choice_so; [exact Hkeys |].
    intros x s1 Hx Hs1.
    assert (Hm1 : manager s1 = manager s) by apply Hs1.
    eapply returns_weaken; [apply IH; rewrite Hm1; exact Hkeys |].
    intros jobs' s2 (Hs2 & extra & -> & Hlen & Hall).
    split; [eapply same_objects_trans; eassumption |].
    exists (x :: extra). rewrite <- app_assoc. split; [reflexivity |].
    split; [cbn [length]; rewrite Hlen; reflexivity |].
    intros j Hj. apply elem_of_cons in Hj. destruct Hj as [-> | Hj]; [exact Hx |].
    rewrite <- Hm1. apply Hall, Hj.
Qed.

Lemma prefix_length {A} count (l : list A) :
  length (prefix count l) =
    if 0 <=? count then Nat.min (Z.to_nat count) (length l)
    else (length l - Z.to_nat (- count))%nat.
Proof.
  unfold prefix. destruct (0 <=? count); rewrite length_take; lia.
Qed.

Lemma prefix_sublist {A} count (l : list A) : sublist (prefix count l) l.
Proof. unfold prefix. destruct (0 <=? count); apply sublist_take. Qed.

Lemma count_str_sublist x l l' : sublist l l' -> count_str x l <= count_str x l'.
Proof.
  intros H. unfold count_str. apply inj_le.
  apply sublist_length, sublist_list_filter, H.
Qed.

Lemma count_str_app x l l' : count_str x (l ++ l') = count_str x l + count_str x l'.
Proof. unfold count_str. rewrite List.filter_app, length_app. lia. Qed.

Lemma count_str_nonneg x l : 0 <= count_str x l.
Proof. unfold count_str. lia. Qed.

Lemma expanded_jobs_declared j :
  j ∈ expanded_jobs -> j ∈ dict_keys _create_job_distribution.
Proof.
  intros H.
  assert (Hall : forallb (fun j => str_in j (dict_keys _create_job_distribution))
                   expanded_jobs = true) by (vm_compute; reflexivity).
  rewrite forallb_forall in Hall. apply str_in_elem, Hall, list_elem_of_In, H.
Qed.

(** X8. [create_npcs(count)] for any [count], with the default quota
    table (361 positions): unless the name loop runs on, the call does not
    raise; it creates exactly [count] townspeople for [count >= 0] and
    [361 + count] of them (none below -361) for a negative [count], which
    the slice [jobs_to_create[:count]] reads from the end; their names
    are distinct and their jobs are jobs of the table; up to 361 no job
    exceeds its quota, from 361 on every job reaches it; the roster is
    extended by the new townspeople in order, the statistics count the
    whole roster, and the world is untouched. *)
Theorem create_npcs_population (fuel : nat) (count : Z) (s : State) :
  job_distribution (manager s) = _create_job_distribution ->
  first_names (manager s) <> [] -> last_names (manager s) <> [] ->
  Forall (fun r => (r < length (heap s))%nat) (mgr_npcs (manager s)) ->
  safe (create_npcs fuel count) s
    (fun created s' =>
       length created = Z.to_nat (if 0 <=? count then count else 361 + count) /\
       NoDup (names_of s' created) /\
       (forall job, job ∈ jobs_of s' created -> job ∈ dict_keys _create_job_distribution) /\
       (count <= 361 ->
        forall job quantity, (job, quantity) ∈ _create_job_distribution ->
          count_str job (jobs_of s' created) <= quantity) /\
       (361 <= count ->
        forall job quantity, (job, quantity) ∈ _create_job_distribution ->
          quantity <= count_str job (jobs_of s' created)) /\
       mgr_npcs (manager s') = mgr_npcs (manager s) ++ created /\
       stats_total_npcs (manager s') = Z.of_nat (length (mgr_npcs (manager s) ++ created)) /\
       world s' = world s).
Proof.
  intros Htable Hf Hl Hrefs. unfold create_npcs.
  apply safe_bind, returns_safe, returns_get_manager.
  rewrite Htable. fold expanded_jobs. rewrite expanded_jobs_length.
  apply safe_bind, returns_safe.
  eapply returns_weaken;
    [apply pad_jobs_ok; rewrite Htable; vm_compute; discriminate |].
  intros padded s0 ((Hh0 & Hw0 & Hm0 & Ht0) & extra & -> & Hextra & Hdecl).
  rewrite Htable in Hdecl.
  apply safe_bind, returns_safe. unfold shuffle.
  eapply returns_weaken; [apply shuffle_from_ok |].
  intros jobs s1 (Hperm & Hh1 & Hw1 & Hm1 & Ht1).
  assert (Hjlen : length jobs = (361 + Z.to_nat (count - 361))%nat).
  { rewrite (Permutation_length Hperm), length_app, expanded_jobs_length, Hextra.
    reflexivity. }
  apply safe_bind.
  eapply safe_weaken; [apply create_each_safe; rewrite Hm1, Hm0; assumption |].
  intros created s2 (Hw2 & Ht2 & cs & db & Hh2 & Hm2 & Hcreated & Hjobs & Hk & Hnd
                     & _ & Hreg & _).
  cbn [app] in Hcreated. rewrite Hh1, Hh0 in *.
  assert (Hcslen : length cs = length (prefix count jobs)).
  { rewrite <- Hjobs, length_map. reflexivity. }
  rewrite <- Hcslen in Hcreated.
  apply safe_bind, returns_safe, returns_upd_manager.
  intros s3 Hh3 Hw3 Hm3 Ht3.
  apply safe_bind, returns_safe. unfold _update_population_stats.
  apply returns_bind, returns_get_manager.
  apply returns_bind.
  assert (Hvalid : Forall (fun r => (r < length (heap s3))%nat) (mgr_npcs (manager s3))).
  { rewrite Hm3, Hm2, Hm1, Hm0, Hh3, Hh2. cbn [mgr_npcs set_mgr_npcs set_npc_database].
    rewrite length_app. apply Forall_app. split.
    - eapply Forall_impl; [exact Hrefs |]. cbn. intros r Hr. lia.
    - rewrite Hcreated. apply Forall_forall. intros r Hr.
      apply list_elem_of_In, in_seq in Hr. lia. }
  eapply returns_weaken; [apply count_jobs_ok, Hvalid |].
  intros job_counts s3' ->.
  apply returns_upd_manager. intros s4 Hh4 Hw4 Hm4 Ht4.
  apply safe_ret.
  assert (Hheap : heap s4 = heap s ++ cs) by congruence.
  assert (Hjobs_of : jobs_of s4 created = prefix count jobs).
  { unfold jobs_of. rewrite Hheap, Hcreated, (attributes_of_new job). exact Hjobs. }
  assert (Hin : forall j, j ∈ jobs -> j ∈ dict_keys _create_job_distribution).
  { intros j Hj. rewrite Hperm in Hj. apply elem_of_app in Hj.
    destruct Hj as [Hj | Hj]; [apply expanded_jobs_declared, Hj | apply Hdecl, Hj]. }
  split.
  { rewrite Hcreated, length_seq, Hcslen, prefix_length, Hjlen.
    destruct (0 <=? count) eqn:E; [apply Z.leb_le in E | apply Z.leb_gt in E]; lia. }
  split.
  { unfold names_of. rewrite Hheap, Hcreated. rewrite (attributes_of_new name). exact Hnd. }
  split.
  { intros j Hj. rewrite Hjobs_of in Hj. apply Hin.
    eapply elem_of_sublist; [exact Hj | apply prefix_sublist]. }
  split.
  { intros Hle job0 quantity Hq. rewrite Hjobs_of.
    assert (Hnone : extra = []).
    { apply length_zero_iff_nil. rewrite Hextra. lia. }
    rewrite Hnone, app_nil_r in Hperm.
    rewrite <- (expanded_jobs_counts _ _ Hq), <- (count_str_perm _ _ _ Hperm).
    apply count_str_sublist, prefix_sublist. }
  split.
  { intros Hge job0 quantity Hq. rewrite Hjobs_of.
    assert (Hall : prefix count jobs = jobs).
    { unfold prefix. destruct (0 <=? count) eqn:E; [| apply Z.leb_gt in E; lia].
      apply firstn_all2. rewrite Hjlen. lia. }
    rewrite Hall, (count_str_perm _ _ _ Hperm), count_str_app,
      (expanded_jobs_counts _ _ Hq).
    pose proof (count_str_nonneg job0 extra). lia. }
  split.
  { rewrite Hm4, Hm3, Hm2, Hm1, Hm0.
    cbn [mgr_npcs set_stats set_mgr_npcs set_npc_database]. reflexivity. }
  split.
  { rewrite Hm4, Hm3, Hm2, Hm1, Hm0.
    cbn [stats_total_npcs mgr_npcs set_stats set_mgr_npcs set_npc_database]. reflexivity. }
  congruence.
Qed.

(** The population of 300 that [main] asks for; and a call with -1. *)
Lemma create_npcs_population_witness :
  (exists created s',
     create_npcs 10 300 manager_state = Ok created s' /\
     length created = 300%nat /\
     NoDup (names_of s' created) /\
     count_str "fisherman" (jobs_of s' created) <= 25) /\
  (exists created s',
     create_npcs 10 (-1) manager_state = Ok created s' /\
     length created = 360%nat).
Proof.
  assert (Hpre : forall count,
            safe (create_npcs 10 count) manager_state _)
    by (intros count;
        exact (create_npcs_population 10 count manager_state
                 ltac:(vm_compute; reflexivity)
                 ltac:(vm_compute; discriminate)
                 ltac:(vm_compute; discriminate)
                 ltac:(vm_compute; constructor))).
  split.
  - assert (Hok : is_ok (create_npcs 10 300 manager_state) = true)
      by (vm_compute; reflexivity).
    destruct (is_ok_run _ Hok) as (created & s' & Hrun).
    exists created, s'. split; [exact Hrun |].
    destruct (safe_ok _ _ _ _ _ (Hpre 300) Hrun) as (Hlen & Hnd & _ & Hmost & _).
    split; [exact Hlen |]. split; [exact Hnd |].
    apply Hmost; [lia |]. apply (list_elem_of_lookup_2 _ 1%nat). reflexivity.
  - assert (Hok : is_ok (create_npcs 10 (-1) manager_state) = true)
      by (vm_compute; reflexivity).
    destruct (is_ok_run _ Hok) as (created & s' & Hrun).
    exists created, s'. split; [exact Hrun |].
    destruct (safe_ok _ _ _ _ _ (Hpre (-1)) Hrun) as (Hlen & _).
    exact Hlen.
Defined.

(** ** NPCManager: random groups *)



(** ** NPCManager: the distribution of the population *)

Lemma returns_for_each_from {A} (done rest : list A) (body : A -> M unit)
    (I : list A -> State -> Prop) s :
  I done s ->
  (forall done x s1, x ∈ rest -> I done s1 ->
     returns (body x) s1 (fun _ s2 => I (done ++ [x]) s2)) ->
  returns (for_each rest body) s (fun _ s' => I (done ++ rest) s').
Proof.
  revert done s. induction rest as [| x rest IH]; intros done s HI Hbody; cbn [for_each].
  - apply returns_ret. rewrite app_nil_r. exact HI.
  - apply returns_bind.
    eapply returns_weaken; [apply (Hbody done x s); [apply elem_of_cons; left; reflexivity | exact HI] |].
    intros [] s1 H1. cbn beta.
    replace (done ++ x :: rest) with ((done ++ [x]) ++ rest)
      by (rewrite <- app_assoc; reflexivity).
    apply IH; [exact H1 |].
    intros done' y s2 Hy. apply Hbody. apply elem_of_cons. right. exact Hy.
Qed.

Lemma move_character_placed s character c key :
  world_consistent s -> heap s !! character = Some c ->
  dict_mem key (locations (world s)) = true ->
  returns (move_character character key) s
    (fun _ s' =>
       world_consistent s' /\
       dict_keys (locations (world s')) = dict_keys (locations (world s)) /\
       manager s' = manager s /\
       heap s' = <[character := set_location key c]> (heap s) /\
       placed s' character /\
       forall k, k <> character -> placed s k -> placed s' k).
Proof.
  intros Hcons Hc Hmem.
  assert (Hlt : (character < length (heap s))%nat) by (eapply lookup_lt_Some; eauto).
  eapply returns_move_character; [exact Hc | exact Hmem |].
  intros s' e Hh Hm Ht Hl _ _ _ _ _.
  split.
  { eapply moved_consistent; [exact Hcons | exact Hl |].
    intros k c' Hk. rewrite Hh in Hk. destruct (Nat.eq_dec k character) as [-> | Hne].
    - rewrite list_lookup_insert_eq in Hk by exact Hlt. injection Hk as <-.
      left. split; reflexivity.
    - rewrite list_lookup_insert_ne in Hk by congruence. right. split; assumption. }
  split; [rewrite Hl, dict_keys_update, dict_keys_map_values; reflexivity |].
  split; [exact Hm |]. split; [exact Hh |]. split.
  - pose proof Hmem as Hget. apply dict_mem_get in Hget. destruct Hget as [target Htarget].
    destruct (moved_location character key _ _ _ Htarget) as (loc' & Hk' & _ & Hocc).
    exists (set_location key c), loc'.
    split; [rewrite Hh; apply list_lookup_insert_eq, Hlt |].
    split; [cbn [location set_location]; rewrite Hl; exact Hk' |].
    rewrite Hocc, String.eqb_refl. apply elem_of_app. right.
    apply list_elem_of_singleton. reflexivity.
  - intros k Hne (ck & loc & Hck & Hloc & Hin).
    destruct (moved_location character key _ _ _ Hloc) as (loc' & Hk' & _ & Hocc).
    exists ck, loc'.
    split; [rewrite Hh, list_lookup_insert_ne by congruence; exact Hck |].
    split; [rewrite Hl; exact Hk' |].
    rewrite Hocc. apply elem_of_app. left. apply list_remove_other; assumption.
Qed.

Lemma placed_occupancy s k : world_consistent s -> placed s k -> occupancy_ok s k.
Proof.
  intros Hcons (c & loc & Hc & Hloc & Hin). exists c. split; [exact Hc |].
  destruct (consistent_places s k c Hcons Hc) as [Hnone | Hone]; [| exact Hone].
  exfalso.
  assert (Hk : location c ∈ places_of k (world s)).
  { unfold places_of. apply list_elem_of_fmap. exists (location c, loc).
    split; [reflexivity |]. apply list_elem_of_In, filter_In.
    split; [apply list_elem_of_In, dict_get_elem, Hloc |].
    cbn [snd]. apply ref_in_elem, Hin. }
  rewrite Hnone in Hk. apply elem_of_nil in Hk. exact Hk.
Qed.

(** A move of [character], seen from the state [s0] in which the
    distribution began. *)
Lemma distribute_move s0 s character key :
  distributed_from s0 s -> is_Some (heap s0 !! character) ->
  key ∈ dict_keys (locations (world s0)) ->
  returns (move_character character key) s
    (fun _ s' => distributed_from s0 s' /\ placed s' character /\
                 forall k, placed s k -> placed s' k).
Proof.
  intros (Hcons & Hkeys & Hman & Hheap) [c0 Hc0] Hkey.
  destruct (Hheap _ _ Hc0) as (c & Hc & Hpref & _).
  eapply returns_weaken;
    [apply (move_character_placed s character c key Hcons Hc);
     apply key_declared; rewrite Hkeys; exact Hkey |].
  intros [] s' (Hcons' & Hkeys' & Hman' & Hh' & Hplaced & Hothers).
  assert (Hlt : (character < length (heap s))%nat) by (eapply lookup_lt_Some; eauto).
  split; [| split; [exact Hplaced |]].
  - split; [exact Hcons' |]. split; [congruence |]. split; [congruence |].
    intros k ck Hk. destruct (Nat.eq_dec k character) as [-> | Hne].
    + exists (set_location key c). rewrite Hh'.
      split; [apply list_lookup_insert_eq, Hlt |].
      split; [| right; exact Hplaced].
      cbn [preferred_locations set_location]. congruence.
    + destruct (Hheap _ _ Hk) as (ck' & Hck' & Hp & Hl).
      exists ck'. rewrite Hh', list_lookup_insert_ne by congruence.
      split; [exact Hck' |]. split; [exact Hp |].
      destruct Hl as [Hl | Hl]; [left; exact Hl | right; apply Hothers; assumption].
  - intros k Hk. destruct (Nat.eq_dec k character) as [-> | Hne];
      [exact Hplaced | apply Hothers; assumption].
Qed.

(** X10. [distribute_npcs_to_world] places the population: in a world
    with a location, consistent occupant lists, and a roster of
    townspeople who are at "town_center" and have a preferred location,
    the call returns; afterwards every townsperson of the roster is listed
    among the occupants of its own [location] and of no other place, that
    location is a declared one, the occupant lists are consistent, and
    one [population_distribution] event closes the log. *)
Theorem distribute_places_townspeople (s : State) :
  world_consistent s ->
  locations (world s) <> [] ->
  (forall npc, npc ∈ mgr_npcs (manager s) ->
     exists c, heap s !! npc = Some c /\ location c = "town_center" /\
               preferred_locations c <> []) ->
  returns distribute_npcs_to_world s
    (fun _ s' =>
       world_consistent s' /\
       (forall npc, npc ∈ mgr_npcs (manager s) ->
          occupancy_ok s' npc /\
          exists c', heap s' !! npc = Some c' /\
                     location c' ∈ dict_keys (locations (world s))) /\
       exists e, last (world_events (world s')) = Some e /\
                 event_type e = "population_distribution").
Proof.
  intros Hcons Hlocs Hroster. unfold distribute_npcs_to_world.
  apply returns_bind, returns_get_world.
  apply returns_bind, returns_get_manager.
  assert (Hkeys : dict_keys (locations (world s)) <> []).
  { unfold dict_keys. destruct (locations (world s)); [congruence | discriminate]. }
  apply returns_bind.
  eapply returns_weaken.
  { apply (returns_for_each_from [] (mgr_npcs (manager s)) _
             (fun done s' => distributed_from s s' /\ forall k, k ∈ done -> placed s' k)).
    - split; [| intros k Hk; apply elem_of_nil in Hk; contradiction].
      split; [exact Hcons |]. split; [reflexivity |]. split; [reflexivity |].
      intros k c Hk. exists c. split; [exact Hk |]. split; [reflexivity |].
      left. reflexivity.
    - intros done npc s1 Hnpc [Hfrom Hdone].
      destruct (Hroster _ Hnpc) as (c0 & Hc0 & Htown & Hpref).
      pose proof Hfrom as (Hcons1 & Hkeys1 & Hman1 & Hheap1).
      destruct (Hheap1 _ _ Hc0) as (c1 & Hc1 & Hpref1 & Hwhere).
      assert (Hall : forall s2, (forall k, placed s1 k -> placed s2 k) ->
                placed s2 npc -> forall k, k ∈ done ++ [npc] -> placed s2 k).
      { intros s2 Hkeep Hnew k Hk. apply elem_of_app in Hk.
        destruct Hk as [Hk | Hk]; [apply Hkeep, Hdone, Hk |].
        apply list_elem_of_singleton in Hk. subst k. exact Hnew. }
      eapply returns_bind, returns_get_char; [exact Hc1 |].
      destruct (String.eqb (location c1) "town_center") eqn:E.
      + apply returns_bind, returns_choice; [rewrite Hpref1; exact Hpref |].
        intros preferred _.
        destruct (str_in preferred (dict_keys (locations (world s)))) eqn:Hin.
        * eapply returns_weaken.
          { apply (distribute_move s); [exact Hfrom | eexists; exact Hc0 |].
            apply str_in_elem, Hin. }
          intros [] s2 (Hfrom2 & Hnew & Hkeep). split; [exact Hfrom2 |].
          apply Hall; assumption.
        * apply returns_bind, returns_choice; [exact Hkeys |].
          intros place Hplace.
          eapply returns_weaken.
          { apply (distribute_move s); [exact Hfrom | eexists; exact Hc0 | exact Hplace]. }
          intros [] s2 (Hfrom2 & Hnew & Hkeep). split; [exact Hfrom2 |].
          apply Hall; assumption.
      + apply returns_ret. split; [exact Hfrom |].
        apply Hall; [auto |].
        destruct Hwhere as [Hsame | Hplaced]; [| exact Hplaced].
        apply String.eqb_neq in E. congruence. }
  cbn beta. intros [] s1 [(Hcons1 & Hkeys1 & Hman1 & Hheap1) Hplaced].
  rewrite app_nil_l in Hplaced.
  apply returns_bind, returns_get_manager.
  apply returns_log_event. intros s2 e Hh2 Hm2 Ht2 Hw2 He _ _.
  assert (Hl2 : locations (world s2) = locations (world s1)) by (rewrite Hw2; reflexivity).
  assert (Hcons2 : world_consistent s2).
  { unfold world_consistent. rewrite Hl2, Hh2. exact Hcons1. }
  split; [exact Hcons2 |]. split.
  - intros npc Hnpc.
    assert (Hp2 : placed s2 npc).
    { unfold placed. rewrite Hl2, Hh2. apply Hplaced, Hnpc. }
    split; [apply placed_occupancy; assumption |].
    destruct Hp2 as (c' & loc & Hc' & Hloc & _). exists c'. split; [exact Hc' |].
    rewrite <- Hkeys1, <- Hl2. eapply dict_get_key, Hloc.
  - exists e. split; [| exact He]. rewrite Hw2. cbn [world_events set_world_events].
    apply last_snoc.
Qed.

Lemma gathered_b_sound s :
  gathered_b s = true ->
  forall npc, npc ∈ mgr_npcs (manager s) ->
    exists c, heap s !! npc = Some c /\ location c = "town_center" /\
              preferred_locations c <> [].
Proof.
  unfold gathered_b. intros Hroster npc Hnpc. rewrite forallb_forall in Hroster.
  apply list_elem_of_In in Hnpc. specialize (Hroster _ Hnpc).
  destruct (heap s !! npc) as [c |]; [| discriminate].
  apply andb_true_iff in Hroster. destruct Hroster as [Htown Hpref].
  exists c. split; [reflexivity |]. split; [apply String.eqb_eq, Htown |].
  intros Hnil. rewrite Hnil in Hpref. discriminate.
Qed.

(** Twenty townspeople gathered in the town center are all placed. *)
Lemma distribute_places_townspeople_witness :
  length (mgr_npcs (manager gathered_state)) = 20%nat /\
  exists s',
    distribute_npcs_to_world gathered_state = Ok tt s' /\
    forall npc, npc ∈ mgr_npcs (manager gathered_state) -> occupancy_ok s' npc.
Proof.
  split; [vm_compute; reflexivity |].
  assert (H1 : world_consistent gathered_state)
    by (apply consistent_b_sound; vm_compute; reflexivity).
  assert (H2 : locations (world gathered_state) <> [])
    by (vm_compute; discriminate).
  assert (H3 : gathered_b gathered_state = true) by (vm_compute; reflexivity).
  destruct (distribute_places_townspeople gathered_state H1 H2
              (gathered_b_sound gathered_state H3)) as ([] & s' & Hrun & _ & Hall & _).
  exists s'. split; [exact Hrun |]. intros npc Hnpc. apply Hall, Hnpc.
Defined.

(** ** A simulation step does not raise *)

Section Runs.
Variables (n : nat) (K : list string).

Lemma runs_ret {A} (Q : A -> Prop) (a : A) : Q a -> runs n K Q (ret a).
Proof. intros H s Hs. apply returns_ret. split; assumption. Qed.

Lemma runs_bind {A B} (Q : A -> Prop) (Q' : B -> Prop) (m : M A) (k : A -> M B) :
  runs n K Q m -> (forall a, Q a -> runs n K Q' (k a)) -> runs n K Q' (bind m k).
Proof.
  intros Hm Hk s Hs. apply returns_bind.
  eapply returns_weaken; [apply Hm, Hs |].
  intros a s' [Hs' Ha]. apply (Hk a Ha s' Hs').
Qed.

Lemma runs_weaken {A} (Q Q' : A -> Prop) (m : M A) :
  runs n K Q m -> (forall a, Q a -> Q' a) -> runs n K Q' m.
Proof.
  intros Hm H s Hs. eapply returns_weaken; [apply Hm, Hs |].
  intros a s' [Hs' Ha]. split; [exact Hs' | apply H, Ha].
Qed.

Lemma runs_when b m : runs n K anything m -> runs n K anything (when b m).
Proof. intros H. destruct b; [exact H | apply runs_ret; exact I]. Qed.

Lemma runs_for_each {A} (l : list A) (body : A -> M unit) :
  (forall x, x ∈ l -> runs n K anything (body x)) -> runs n K anything (for_each l body).
Proof.
  induction l as [| x l IH]; intros H; cbn [for_each]; [apply runs_ret; exact I |].
  eapply runs_bind; [apply H, elem_of_cons; left; reflexivity |].
  intros _ _. apply IH. intros y Hy. apply H, elem_of_cons. right. exact Hy.
Qed.

Lemma sound_cursor s c : sound n K s -> sound n K (set_cursor c s).
Proof. intros H. exact H. Qed.

Lemma sound_wall s t : sound n K s -> sound n K (set_wall t s).
Proof. intros H. exact H. Qed.

Lemma runs_get_char r : (r < n)%nat -> runs n K (sound_character K) (get_char r).
Proof.
  intros Hr s Hs. pose proof Hs as (Hlen & Hchars & _).
  destruct (lookup_lt_is_Some_2 (heap s) r) as [c Hc]; [lia |].
  eapply returns_get_char; [exact Hc |]. split; [exact Hs | eapply Hchars, Hc].
Qed.

Lemma runs_get_world : runs n K (sound_world n K) get_world.
Proof. intros s Hs. apply returns_get_world. split; [exact Hs | apply Hs]. Qed.

Lemma runs_get_manager :
  runs n K (fun m => Forall (fun k => (k < n)%nat) (mgr_npcs m)) get_manager.
Proof. intros s Hs. apply returns_get_manager. split; [exact Hs | apply Hs]. Qed.

Lemma runs_now : runs n K anything now.
Proof. intros s Hs. apply returns_now. split; [apply sound_wall, Hs | exact I]. Qed.

Lemma runs_draw : runs n K anything draw.
Proof. intros s Hs. apply returns_draw. split; [apply sound_cursor, Hs | exact I]. Qed.

Lemma runs_randint a b : a <= b -> runs n K anything (randint a b).
Proof.
  intros Hab s Hs. apply returns_randint; [exact Hab |].
  intros v _. split; [apply sound_cursor, Hs | exact I].
Qed.

Lemma runs_choice {A} (l : list A) : l <> [] -> runs n K (fun x => x ∈ l) (choice l).
Proof.
  intros Hl s Hs. apply returns_choice; [exact Hl |].
  intros x Hx. split; [apply sound_cursor, Hs | exact Hx].
Qed.

Lemma runs_random : runs n K anything random.
Proof. intros s Hs. apply returns_random. split; [apply sound_cursor, Hs | exact I]. Qed.

Lemma runs_uniform a b : runs n K anything (uniform a b).
Proof.
  unfold uniform. eapply runs_bind; [apply runs_random |].
  intros r _. apply runs_ret. exact I.
Qed.

Lemma runs_upd_char r f :
  (r < n)%nat -> (forall c, sound_character K c -> sound_character K (f c)) ->
  runs n K anything (upd_char r f).
Proof.
  intros Hr Hf s Hs. pose proof Hs as (Hlen & Hchars & Hw & Hm).
  destruct (lookup_lt_is_Some_2 (heap s) r) as [c Hc]; [lia |].
  eapply returns_upd_char; [exact Hc |].
  intros s' Hh' Hw' Hm' _. split; [| exact I].
  split; [rewrite Hh', length_insert; exact Hlen |].
  split; [| rewrite Hw', Hm'; split; assumption].
  intros k ck Hk. rewrite Hh' in Hk. destruct (Nat.eq_dec k r) as [-> | Hne].
  - rewrite list_lookup_insert_eq in Hk by lia. injection Hk as <-.
    apply Hf. eapply Hchars, Hc.
  - rewrite list_lookup_insert_ne in Hk by congruence. eapply Hchars, Hk.
Qed.

Lemma runs_upd_world f :
  (forall w, sound_world n K w -> sound_world n K (f w)) -> runs n K anything (upd_world f).
Proof.
  intros Hf s Hs. pose proof Hs as (Hlen & Hchars & Hw & Hm).
  apply returns_upd_world. intros s' Hh' Hw' Hm' _. split; [| exact I].
  split; [rewrite Hh'; exact Hlen |].
  split; [intros k c Hk; rewrite Hh' in Hk; eapply Hchars, Hk |].
  split; [rewrite Hw'; apply Hf, Hw | rewrite Hm'; exact Hm].
Qed.

Lemma runs_location_name w key :
  sound_world n K w -> key ∈ K -> runs n K anything (location_name w key).
Proof.
  intros (Hkeys & _) Hkey s Hs.
  rewrite <- Hkeys in Hkey. apply key_declared, dict_mem_get in Hkey.
  destruct Hkey as [loc Hloc].
  eapply returns_location_name; [exact Hloc |]. split; [exact Hs | exact I].
Qed.

Lemma runs_occupants_at w key :
  sound_world n K w -> key ∈ K ->
  runs n K (Forall (fun k => (k < n)%nat)) (occupants_at w key).
Proof.
  intros (Hkeys & Hocc & _) Hkey s Hs.
  rewrite <- Hkeys in Hkey. apply key_declared, dict_mem_get in Hkey.
  destruct Hkey as [loc Hloc].
  unfold occupants_at. rewrite Hloc. apply returns_ret.
  split; [exact Hs | eapply Hocc, Hloc].
Qed.

Lemma runs_move_character r key : (r < n)%nat -> runs n K anything (move_character r key).
Proof.
  intros Hr s Hs. pose proof Hs as (Hlen & Hchars & (Hkeys & Hocc & Hai & Hnpcs) & Hm).
  destruct (lookup_lt_is_Some_2 (heap s) r) as [c Hc]; [lia |].
  destruct (dict_mem key (locations (world s))) eqn:Hmem.
  - eapply returns_move_character; [exact Hc | exact Hmem |].
    intros s' e Hh' Hm' _ Hl' _ _ Hai' Hnpcs' _. split; [| exact I].
    split; [rewrite Hh', length_insert; exact Hlen |].
    split; [| split; [split; [| split; [| split]] |]].
    + intros k ck Hk. rewrite Hh' in Hk. destruct (Nat.eq_dec k r) as [-> | Hne].
      * rewrite list_lookup_insert_eq in Hk by lia. injection Hk as <-.
        split; [| apply (Hchars _ _ Hc)].
        cbn [location set_location]. rewrite <- Hkeys.
        apply dict_mem_get in Hmem. destruct Hmem as [loc Hloc].
        eapply dict_get_key, Hloc.
      * rewrite list_lookup_insert_ne in Hk by congruence. eapply Hchars, Hk.
    + rewrite Hl', dict_keys_update, dict_keys_map_values. exact Hkeys.
    + intros key' loc' Hk'. rewrite Hl' in Hk'.
      destruct (dict_get key' (locations (world s))) as [loc |] eqn:Hold.
      * destruct (moved_location r key _ _ _ Hold) as (loc2 & Hk2 & _ & Hocc2).
        rewrite Hk' in Hk2. injection Hk2 as <-. rewrite Hocc2.
        apply Forall_app. split.
        -- apply Forall_forall. intros k Hk.
           assert (Hin : k ∈ occupants loc).
           { eapply elem_of_sublist; [exact Hk | apply list_remove_sublist]. }
           pose proof (Hocc _ _ Hold) as Hall. rewrite Forall_forall in Hall.
           apply Hall, Hin.
        -- destruct (String.eqb key' key); [| constructor].
           constructor; [exact Hr | constructor].
      * rewrite dict_get_update, dict_get_map_values, Hold in Hk'.
        destruct (String.eqb key' key); discriminate.
    + rewrite Hai'. exact Hai.
    + rewrite Hnpcs'. exact Hnpcs.
    + rewrite Hm'. exact Hm.
  - unfold move_character. apply returns_bind, returns_get_world. rewrite Hmem.
    apply returns_ret. split; [exact Hs | exact I].
Qed.
End Runs.

Ltac runs_side :=
  first
    [ exact I
    | assumption
    | lia
    | discriminate
    | match goal with
      | |- forall c, sound_character _ c -> sound_character _ _ => intros ? H; exact H
      | |- forall w, sound_world _ _ w -> sound_world _ _ _ => intros ? H; exact H
      | H : sound_character ?K ?c |- location ?c ∈ ?K => exact (proj1 H)
      end ].

Ltac runs_known := fail.

Ltac runs_with tac :=
  repeat first
    [ progress intros
    | runs_side
    | tac
    | runs_known
    | apply runs_ret
    | apply runs_when
    | apply runs_now
    | apply runs_draw
    | apply runs_random
    | apply runs_uniform
    | apply runs_randint
    | apply runs_get_world
    | apply runs_get_manager
    | apply runs_get_char
    | apply runs_upd_char
    | apply runs_upd_world
    | apply runs_move_character
    | apply runs_location_name
    | apply runs_occupants_at
    | apply runs_choice
    | (eapply runs_weaken; [apply runs_choice |])
    | eapply runs_bind
    | match goal with
      | |- runs _ _ _ (if ?b then _ else _) => destruct b eqn:?
      | |- runs _ _ _ (match ?x with _ => _ end) => destruct x eqn:?
      end ];
  try exact I.

Ltac runs_auto := runs_with fail.

Section RunsOf.
Variables (n : nat) (K : list string).

Lemma runs_log_event a b c d : runs n K anything (log_event a b c d).
Proof. unfold log_event. runs_auto. Qed.

Lemma runs_add_memory self memory importance :
  (self < n)%nat -> runs n K anything (add_memory self memory importance).
Proof. intros. unfold add_memory. runs_auto. Qed.

Lemma runs_add_relationship self a b c :
  (self < n)%nat -> runs n K anything (add_relationship self a b c).
Proof. intros. unfold add_relationship. runs_auto. Qed.

Lemma runs_set_activity self activity :
  (self < n)%nat -> runs n K anything (set_activity self activity).
Proof. intros. unfold set_activity. runs_auto. Qed.

Lemma runs_choose_action self l :
  (self < n)%nat -> l <> [] -> runs n K anything (choose_action self l).
Proof. intros. unfold choose_action. runs_auto. Qed.
End RunsOf.

Ltac runs_known ::=
  first [ apply runs_log_event
        | apply runs_add_memory
        | apply runs_add_relationship
        | apply runs_set_activity
        | apply runs_choose_action ].

Section RunsOfActions.
Variables (n : nat) (K : list string).
Hypothesis elsewhere : two_places K.
Variable self : nat.
Hypothesis valid : (self < n)%nat.

Lemma others_valid (l : list nat) x :
  Forall (fun k => (k < n)%nat) l -> x ∈ List.filter (not_ref self) l -> (x < n)%nat.
Proof.
  intros Hall Hx. rewrite Forall_forall in Hall. apply Hall.
  apply list_elem_of_In, filter_In in Hx. apply list_elem_of_In, Hx.
Qed.

Lemma runs_Base_execute_action action :
  runs n K anything (Base_execute_action self action).
Proof.
  unfold Base_execute_action.
  eapply runs_bind; [apply runs_set_activity, valid |]. intros _ _.
  eapply runs_bind; [| runs_auto].
  destruct (String.eqb action "rest"); [runs_auto |].
  destruct (String.eqb action "explore").
  { eapply runs_bind; [apply runs_get_world |]. intros w Hw.
    eapply runs_bind; [apply runs_get_char, valid |]. intros c Hc.
    eapply runs_bind.
    { apply runs_choice. rewrite (proj1 Hw). apply elsewhere. }
    intros new_location Hnew.
    assert (Hin : new_location ∈ K).
    { apply list_elem_of_In, filter_In in Hnew. rewrite <- (proj1 Hw).
      apply list_elem_of_In, Hnew. }
    runs_auto. }
  destruct (String.eqb action "socialize"); [| runs_auto].
  eapply runs_bind; [apply runs_get_world |]. intros w Hw.
  eapply runs_bind; [apply runs_get_char, valid |]. intros c Hc.
  eapply runs_bind; [apply runs_occupants_at; [exact Hw | apply Hc] |].
  intros location_occupants Hocc.
  destruct (1 <? length location_occupants)%nat; [| runs_auto].
  destruct (List.filter (not_ref self) location_occupants) as [| x others] eqn:E;
    [runs_auto |].
  eapply runs_bind; [apply runs_choice; discriminate |]. intros partner Hp.
  assert (Hvalid : (partner < n)%nat).
  { rewrite <- E in Hp. eapply others_valid; eassumption. }
  runs_auto.
Qed.
End RunsOfActions.

Section RunsOfClasses.
Variables (n : nat) (K : list string).
Hypothesis elsewhere : two_places K.
Variable self : nat.
Hypothesis valid : (self < n)%nat.

Lemma runs_Researcher_execute_action action :
  runs n K anything (Researcher_execute_action self action).
Proof.
  unfold Researcher_execute_action.
  eapply runs_bind; [apply runs_Base_execute_action; assumption |]. intros _ _.
  runs_auto.
Qed.

Lemma runs_Surgeon_execute_action action :
  runs n K anything (Surgeon_execute_action self action).
Proof.
  unfold Surgeon_execute_action.
  eapply runs_bind; [apply runs_Base_execute_action; assumption |]. intros _ _.
  runs_auto.
Qed.

Lemma runs_NPC_execute_action action :
  runs n K anything (NPC_execute_action self action).
Proof.
  unfold NPC_execute_action.
  eapply runs_bind; [apply runs_Base_execute_action; assumption |]. intros _ _.
  destruct (String.eqb action "work_at_job"); [runs_auto |].
  destruct (String.eqb action "chat_with_neighbors"); [| runs_auto].
  eapply runs_bind; [apply runs_get_world |]. intros w Hw.
  eapply runs_bind; [apply runs_get_char, valid |]. intros c Hc.
  eapply runs_bind; [apply runs_occupants_at; [exact Hw | apply Hc] |].
  intros location_occupants Hocc.
  destruct (List.filter (not_ref self) location_occupants) as [| x others] eqn:E;
    [runs_auto |].
  eapply runs_bind; [apply runs_choice; discriminate |]. intros partner Hp.
  assert (Hvalid : (partner < n)%nat).
  { rewrite <- E in Hp. eapply others_valid; eassumption. }
  runs_auto.
Qed.

Lemma runs_execute_action action : runs n K anything (execute_action self action).
Proof.
  unfold execute_action. eapply runs_bind; [apply runs_get_char, valid |].
  intros c _. destruct (klass c);
    [ apply runs_Base_execute_action | apply runs_NPC_execute_action
    | apply runs_Researcher_execute_action | apply runs_Surgeon_execute_action ];
    assumption.
Qed.

Lemma runs_take_action : runs n K anything (take_action self).
Proof.
  unfold take_action. eapply runs_bind; [apply runs_get_char, valid |].
  intros c _. cbn zeta. destruct (get_possible_actions c) as [| a l]; [runs_auto |].
  eapply runs_bind; [apply runs_choose_action; [exact valid | discriminate] |].
  intros action _. apply runs_execute_action.
Qed.

Lemma runs_follow_items items hour :
  Forall routine_parses items -> runs n K anything (follow_items self items hour).
Proof.
  induction items as [| entry rest IH]; intros Hall; cbn [follow_items]; [runs_auto |].
  apply Forall_cons_1 in Hall. destruct Hall as [[h Hh] Hrest].
  rewrite Hh. destruct (h =? hour); [runs_auto | apply IH, Hrest].
Qed.

Lemma runs_follow_routine hour : runs n K anything (follow_routine self hour).
Proof.
  unfold follow_routine. eapply runs_bind; [apply runs_get_char, valid |].
  intros c Hc. apply runs_follow_items, Hc.
Qed.
End RunsOfClasses.

Section RunsOfSteps.
Variables (n : nat) (K : list string).
Hypothesis elsewhere : two_places K.

Lemma sound_same_objects s s' : same_objects s s' -> sound n K s -> sound n K s'.
Proof. intros (Hh & Hw & Hm & _). unfold sound. rewrite Hh, Hw, Hm. auto. Qed.

Lemma runs_sample (population : list nat) k :
  0 <= k <= Z.of_nat (length population) ->
  Forall (fun r => (r < n)%nat) population ->
  runs n K (Forall (fun r => (r < n)%nat)) (sample population k).
Proof.
  intros Hk Hall s Hs. eapply returns_weaken; [apply sample_ok, Hk |].
  intros group s' (Hsame & _ & rest & Hperm).
  split; [eapply sound_same_objects; eassumption |].
  rewrite <- Hperm in Hall. apply Forall_app in Hall. apply Hall.
Qed.

Lemma runs_update_time hours : runs n K anything (update_time hours).
Proof. unfold update_time. runs_auto. Qed.

Lemma runs_take_actions (l : list nat) :
  Forall (fun r => (r < n)%nat) l -> runs n K anything (for_each l take_action).
Proof.
  intros Hall. apply runs_for_each. intros x Hx. rewrite Forall_forall in Hall.
  apply runs_take_action; [exact elsewhere | apply Hall, Hx].
Qed.

Lemma runs_simulate_step : runs n K anything simulate_step.
Proof.
  unfold simulate_step.
  eapply runs_bind; [apply runs_update_time |]. intros _ _.
  eapply runs_bind; [apply runs_get_world |]. intros w (_ & _ & Hai & _).
  eapply runs_bind; [apply runs_take_actions, Hai |]. intros _ _.
  eapply runs_bind; [apply runs_get_world |]. intros w' (_ & _ & _ & Hnpcs).
  apply runs_take_actions.
  rewrite Forall_forall in Hnpcs. apply Forall_forall. intros x Hx. apply Hnpcs.
  eapply elem_of_sublist; [exact Hx | apply sublist_take].
Qed.

Lemma runs_simulate_npc_interactions active :
  0 <= active -> runs n K anything (simulate_npc_interactions active).
Proof.
  intros Hactive. unfold simulate_npc_interactions.
  eapply runs_bind; [apply runs_get_manager |]. intros m Hm.
  eapply runs_bind; [apply runs_sample; [lia | exact Hm] |]. intros group Hgroup.
  rewrite Forall_forall in Hgroup.
  eapply runs_bind.
  { apply runs_for_each. intros npc Hnpc.
    eapply runs_bind; [apply runs_random |]. intros r _.
    destruct (Qlt_le_dec r float_0_3); [| apply runs_ret; exact I].
    apply runs_take_action; [exact elsewhere | apply Hgroup, Hnpc]. }
  intros _ _.
  eapply runs_bind; [apply runs_get_world |]. intros w _. cbn zeta.
  apply runs_for_each. intros npc Hnpc.
  eapply runs_bind; [apply runs_random |]. intros r _.
  destruct (Qlt_le_dec r float_0_7); [| apply runs_ret; exact I].
  apply runs_follow_routine, Hgroup, Hnpc.
Qed.

Lemma runs_run_simulation_step : runs n K anything run_simulation_step.
Proof.
  unfold run_simulation_step.
  eapply runs_bind; [apply runs_simulate_step |]. intros _ _.
  eapply runs_bind; [apply runs_simulate_npc_interactions; unfold default_active_npcs; lia |].
  intros _ _.
  eapply runs_bind; [| intros shown _; apply runs_ret; exact I].
  unfold get_random_npcs.
  eapply runs_bind; [apply runs_get_manager |]. intros m Hm.
  apply runs_sample; [lia | exact Hm].
Qed.

Lemma runs_run_steps steps : runs n K anything (run_steps steps).
Proof.
  induction steps as [| steps IH]; cbn [run_steps]; [apply runs_ret; exact I |].
  eapply runs_bind; [apply runs_run_simulation_step |]. intros _ _. exact IH.
Qed.
End RunsOfSteps.

Lemma runs_unit n K (m : M unit) s :
  runs n K anything m -> sound n K s -> exists s', m s = Ok tt s' /\ sound n K s'.
Proof.
  intros Hm Hs. destruct (Hm s Hs) as ([] & s' & Hrun & Hs' & _).
  exists s'. split; assumption.
Qed.

Lemma two_places_of a b K : a ∈ K -> b ∈ K -> a <> b -> two_places K.
Proof.
  intros Ha Hb Hab loc Hnil.
  assert (Hin : forall x, x ∈ K -> x <> loc ->
                  x ∈ List.filter (fun k => negb (String.eqb k loc)) K).
  { intros x Hx Hne. apply list_elem_of_In, filter_In.
    split; [apply list_elem_of_In, Hx |]. apply negb_true_iff, String.eqb_neq, Hne. }
  rewrite Hnil in Hin.
  destruct (String.eqb a loc) eqn:E.
  - apply String.eqb_eq in E. subst loc.
    eapply elem_of_nil, (Hin b); [exact Hb | congruence].
  - apply String.eqb_neq in E. eapply elem_of_nil, (Hin a); assumption.
Qed.

Lemma below_sound n l : below n l = true -> Forall (fun k => (k < n)%nat) l.
Proof.
  unfold below. intros H. rewrite forallb_forall in H. apply Forall_forall.
  intros k Hk. apply Nat.ltb_lt, H, list_elem_of_In, Hk.
Qed.

Lemma sound_b_sound n K s :
  sound_b n K s = true -> dict_keys (locations (world s)) = K -> sound n K s.
Proof.
  unfold sound_b. intros H Hkeys.
  repeat (apply andb_true_iff in H; destruct H as [H ?]).
  split; [apply Nat.eqb_eq, H |]. split; [| split; [split; [exact Hkeys |] |]].
  - intros k c Hk. rewrite forallb_forall in H4.
    specialize (H4 c (proj1 (list_elem_of_In _ _) (list_elem_of_lookup_2 _ _ _ Hk))).
    apply andb_true_iff in H4. destruct H4 as [Hloc Hroutine].
    split; [apply str_in_elem, Hloc |].
    apply Forall_forall. intros r Hr. rewrite forallb_forall in Hroutine.
    specialize (Hroutine r (proj1 (list_elem_of_In _ _) Hr)). unfold routine_parses.
    destruct (Z_of_string (before_colon (r_time r))); [eexists; reflexivity | discriminate].
  - split; [| split; apply below_sound; assumption].
    intros key loc Hloc. rewrite forallb_forall in H3.
    apply dict_get_elem, list_elem_of_In in Hloc.
    apply below_sound, (H3 _ Hloc).
  - apply below_sound. assumption.
Qed.


